(** * variables-ui: the configuration publish pipeline

    A shallow embedding of [src/services/ipfsUploader.ts], of the
    [ConfigManager] edit handlers and of [EnvironmentTab.tsx]'s
    [handleUploadAndPublish], together with the JavaScript built-ins they
    rest on ([JSON.stringify], [JSON.parse], ordinary objects, strings).

    Conventions.
    - A JavaScript string is its sequence of UTF-16 code units, [list N].
    - An ordinary object is the list of its own enumerable string-keyed
      properties in [[OwnPropertyKeys]] order.
    - An [async] function is a computation in the monad [M]: it threads the
      state of the outside world and the log of service calls, and it
      either returns or throws. *)

From Stdlib Require Import NArith List Lia Bool String Ascii Floats.
From stdpp Require Import base decidable countable gmap.
Import ListNotations.

Local Open Scope N_scope.

(* ================================================================== *)
(** * JavaScript strings *)
(* ================================================================== *)

Module JsString.

(** Bytes of a Rocq string literal. *)
Definition bytes_of (s : string) : list N :=
  List.map N_of_ascii (list_ascii_of_string s).

(** The literal is written in the file as UTF-8; JavaScript holds UTF-16. *)
Fixpoint utf8_to_utf16 (bs : list N) : list N :=
  match bs with
  | [] => []
  | b0 :: t0 =>
    if b0 <? 0x80 then b0 :: utf8_to_utf16 t0
    else
      match t0 with
      | [] => [0xFFFD]
      | b1 :: t1 =>
        if b0 <? 0xE0 then (b0 mod 32 * 64 + b1 mod 64) :: utf8_to_utf16 t1
        else
          match t1 with
          | [] => [0xFFFD]
          | b2 :: t2 =>
            if b0 <? 0xF0
            then (b0 mod 16 * 4096 + b1 mod 64 * 64 + b2 mod 64)
                   :: utf8_to_utf16 t2
            else
              match t2 with
              | [] => [0xFFFD]
              | b3 :: t3 =>
                let cp := b0 mod 8 * 262144 + b1 mod 64 * 4096
                          + b2 mod 64 * 64 + b3 mod 64 in
                let v := cp - 0x10000 in
                (0xD800 + v / 1024) :: (0xDC00 + v mod 1024)
                  :: utf8_to_utf16 t3
              end
          end
      end
  end.

(** A string literal of the source. *)
Definition js (s : string) : list N := utf8_to_utf16 (bytes_of s).

(** ToBoolean on a string: the empty string is the only falsy one. *)
Definition truthy (s : list N) : bool :=
  match s with [] => false | _ :: _ => true end.

(** ToBoolean on [string | undefined]. *)
Definition truthy_opt (s : option (list N)) : bool :=
  match s with Some s => truthy s | None => false end.

(** [a || b] on [string | undefined]. *)
Definition or_else (a b : option (list N)) : option (list N) :=
  if truthy_opt a then a else b.

(** WhiteSpace and LineTerminator code points, as [String.prototype.trim]
    strips them. *)
Definition is_white_space (c : N) : bool :=
  (c =? 0x09) || (c =? 0x0A) || (c =? 0x0B) || (c =? 0x0C) || (c =? 0x0D)
  || (c =? 0x20) || (c =? 0xA0) || (c =? 0x1680)
  || ((0x2000 <=? c) && (c <=? 0x200A))
  || (c =? 0x2028) || (c =? 0x2029) || (c =? 0x202F) || (c =? 0x205F)
  || (c =? 0x3000) || (c =? 0xFEFF).

Fixpoint trim_start (s : list N) : list N :=
  match s with
  | c :: s' => if is_white_space c then trim_start s' else s
  | [] => []
  end.

Definition trim (s : list N) : list N :=
  rev (trim_start (rev (trim_start s))).

End JsString.
Export JsString.

(* ================================================================== *)
(** * JavaScript values and ordinary objects *)
(* ================================================================== *)

#[local] Set Warnings "-register-all".

(** The values a configuration can hold: what [JSON.parse] produces,
    and [undefined], which [handleUpdateKey] can store. *)
Inductive JsValue : Type :=
| JsUndefined
| JsNull
| JsBool (b : bool)
| JsNumber (n : float)
| JsString (s : list N)
| JsArray (items : list JsValue)
| JsObject (props : list (list N * JsValue)).

Module JsObject.
Section Props.
Context {A : Type}.

Definition is_digit (c : N) : bool := (0x30 <=? c) && (c <=? 0x39).

Fixpoint digits_value (acc : N) (s : list N) : option N :=
  match s with
  | [] => Some acc
  | c :: s' =>
    if is_digit c then digits_value (acc * 10 + (c - 0x30)) s' else None
  end.

(** Decimal digits only. *)
Definition all_digits (s : list N) : Prop := forallb is_digit s = true.

(** An array index: the canonical decimal of an integer in [0, 2^32 - 2].
    Such keys are enumerated first, in ascending numeric order. *)
Definition array_index (k : list N) : option N :=
  match k with
  | [] => None
  | c :: rest =>
    if c =? 0x30 then match rest with [] => Some 0 | _ :: _ => None end
    else
      match digits_value 0 k with
      | Some n => if n <? 4294967295 then Some n else None
      | None => None
      end
  end.

Definition is_index (k : list N) : bool :=
  match array_index k with Some _ => true | None => false end.

Definition key_eqb (a b : list N) : bool := bool_decide (a = b).

(** [o[k]] for an own property. *)
Fixpoint get (k : list N) (o : list (list N * A)) : option A :=
  match o with
  | [] => None
  | (k', v) :: o' => if key_eqb k k' then Some v else get k o'
  end.

Definition has (k : list N) (o : list (list N * A)) : bool :=
  match get k o with Some _ => true | None => false end.

Definition keys (o : list (list N * A)) : list (list N) := List.map fst o.

(** Overwrite the value of an existing property; its place is kept. *)
Fixpoint replace (k : list N) (v : A) (o : list (list N * A)) : list (list N * A) :=
  match o with
  | [] => []
  | (k', v') :: o' =>
    if key_eqb k k' then (k', v) :: o' else (k', v') :: replace k v o'
  end.

(** A new array-index key goes before the first larger index and before
    every string key. *)
Fixpoint insert_index (i : N) (k : list N) (v : A) (o : list (list N * A)) : list (list N * A) :=
  match o with
  | [] => [(k, v)]
  | (k', v') :: o' =>
    match array_index k' with
    | Some j => if i <? j then (k, v) :: o
                else (k', v') :: insert_index i k v o'
    | None => (k, v) :: o
    end
  end.

(** CreateDataProperty, as [{..., [k]: v}] and [JSON.parse] perform it. *)
Definition define (k : list N) (v : A) (o : list (list N * A)) : list (list N * A) :=
  if has k o then replace k v o
  else
    match array_index k with
    | Some i => insert_index i k v o
    | None => o ++ [(k, v)]
    end.

(** [delete o[k]]. *)
Fixpoint delete (k : list N) (o : list (list N * A)) : list (list N * A) :=
  match o with
  | [] => []
  | (k', v') :: o' =>
    if key_eqb k k' then o' else (k', v') :: delete k o'
  end.

(** The order every ordinary object keeps: array indices first, ascending,
    then the other keys; no key twice. *)
Definition key_before (a b : list N) : bool :=
  match array_index a, array_index b with
  | Some i, Some j => i <? j
  | Some _, None => true
  | None, Some _ => false
  | None, None => negb (key_eqb a b)
  end.

Fixpoint ordered_keys (ks : list (list N)) : bool :=
  match ks with
  | [] => true
  | k :: ks' => forallb (key_before k) ks' && ordered_keys ks'
  end.

Definition ordinary (o : list (list N * A)) : Prop :=
  ordered_keys (keys o) = true.

End Props.
End JsObject.

(* ================================================================== *)
(** * JSON.stringify and JSON.parse *)
(* ================================================================== *)

(** What the embedding takes from the JavaScript engine as given:
    Number::toString, the numeric value of a JSON number literal, and the
    message of the SyntaxError that [JSON.parse] throws on a text. *)
Class Engine := {
  NumberToString : float -> list N;
  StringToNumber : list N -> float;
  SyntaxErrorMessage : list N -> list N
}.

Module JSON.

(** ** QuoteJSONString *)

Definition hex_digit (d : N) : N :=
  if d <? 10 then 0x30 + d else 0x61 + (d - 10).

(** [\uXXXX], four lowercase hexadecimal digits. *)
Definition UnicodeEscape (c : N) : list N :=
  [0x5C; 0x75; hex_digit (c / 4096 mod 16); hex_digit (c / 256 mod 16);
   hex_digit (c / 16 mod 16); hex_digit (c mod 16)].

Definition is_leading_surrogate (c : N) : bool :=
  (0xD800 <=? c) && (c <=? 0xDBFF).

Definition is_trailing_surrogate (c : N) : bool :=
  (0xDC00 <=? c) && (c <=? 0xDFFF).

(** The code points with a two-character escape: backspace, tab, line
    feed, form feed, carriage return, double quote, backslash. *)
Definition short_escape (c : N) : option N :=
  if c =? 0x08 then Some 0x62
  else if c =? 0x09 then Some 0x74
  else if c =? 0x0A then Some 0x6E
  else if c =? 0x0C then Some 0x66
  else if c =? 0x0D then Some 0x72
  else if c =? 0x22 then Some 0x22
  else if c =? 0x5C then Some 0x5C
  else None.

(** The string is read by code points: a leading surrogate followed by a
    trailing one is one code point and is copied; a lone surrogate is
    escaped. *)
Fixpoint quote_code_points (s : list N) : list N :=
  match s with
  | [] => []
  | c :: s' =>
    match short_escape c with
    | Some e => 0x5C :: e :: quote_code_points s'
    | None =>
      if c <? 0x20 then UnicodeEscape c ++ quote_code_points s'
      else if is_leading_surrogate c then
        match s' with
        | d :: s'' =>
          if is_trailing_surrogate d then c :: d :: quote_code_points s''
          else UnicodeEscape c ++ quote_code_points s'
        | [] => UnicodeEscape c
        end
      else if is_trailing_surrogate c
      then UnicodeEscape c ++ quote_code_points s'
      else c :: quote_code_points s'
    end
  end.

Definition QuoteJSONString (s : list N) : list N :=
  0x22 :: quote_code_points s ++ [0x22].

(** ** SerializeJSONProperty, SerializeJSONObject, SerializeJSONArray *)

Definition join (sep : list N) (parts : list (list N)) : list N :=
  match parts with
  | [] => []
  | p :: ps => p ++ concat (List.map (fun q => sep ++ q) ps)
  end.

Definition is_finite (n : float) : bool :=
  negb (PrimFloat.is_nan n || PrimFloat.is_infinity n).

(** [open ... close] around the parts, one per line when there is a gap. *)
Definition wrap (gap stepback indent : list N) (open close : N)
    (partial : list (list N)) : list N :=
  match partial with
  | [] => [open; close]
  | _ :: _ =>
    if truthy gap
    then [open; 0x0A] ++ indent
         ++ join ([0x2C; 0x0A] ++ indent) partial
         ++ [0x0A] ++ stepback ++ [close]
    else [open] ++ join [0x2C] partial ++ [close]
  end.

Section Serialize.
Context `{Engine}.
Variable gap : list N.

(** [None] is [undefined]: the property is left out of an object and
    written [null] in an array. *)
Fixpoint SerializeJSONProperty (indent : list N) (value : JsValue)
    : option (list N) :=
  match value with
  | JsUndefined => None
  | JsNull => Some (js "null")
  | JsBool true => Some (js "true")
  | JsBool false => Some (js "false")
  | JsNumber n => Some (if is_finite n then NumberToString n else js "null")
  | JsString s => Some (QuoteJSONString s)
  | JsArray items =>
    let stepback := indent in
    let indent := indent ++ gap in
    let partial :=
      (fix elements (l : list JsValue) : list (list N) :=
         match l with
         | [] => []
         | x :: l' =>
           match SerializeJSONProperty indent x with
           | Some strP => strP
           | None => js "null"
           end :: elements l'
         end) items in
    Some (wrap gap stepback indent 0x5B 0x5D partial)
  | JsObject props =>
    let stepback := indent in
    let indent := indent ++ gap in
    let partial :=
      (fix members (l : list (list N * JsValue)) : list (list N) :=
         match l with
         | [] => []
         | (P, v) :: l' =>
           match SerializeJSONProperty indent v with
           | Some strP =>
             (QuoteJSONString P ++ [0x3A]
                ++ (if truthy gap then [0x20] else []) ++ strP)
               :: members l'
           | None => members l'
           end
         end) props in
    Some (wrap gap stepback indent 0x7B 0x7D partial)
  end.

End Serialize.

(** [JSON.stringify(value, null, space)] for a numeric [space]: the gap is
    that many spaces, ten at most. *)
Definition stringify `{Engine} (value : JsValue) (space : N)
    : option (list N) :=
  SerializeJSONProperty (repeat 0x20 (N.to_nat (N.min 10 space))) [] value.

(** ** JSON.parse *)

Inductive ParseResult (A : Type) : Type :=
| Parsed (a : A) (rest : list N)
| SyntaxError
| OutOfFuel.
Arguments Parsed {A} a rest.
Arguments SyntaxError {A}.
Arguments OutOfFuel {A}.

(** JSON white space: space, tab, line feed, carriage return. *)
Definition is_json_ws (c : N) : bool :=
  (c =? 0x20) || (c =? 0x09) || (c =? 0x0A) || (c =? 0x0D).

Fixpoint skip_ws (inp : list N) : list N :=
  match inp with
  | c :: r => if is_json_ws c then skip_ws r else inp
  | [] => []
  end.

Definition hex_value (c : N) : option N :=
  if (0x30 <=? c) && (c <=? 0x39) then Some (c - 0x30)
  else if (0x61 <=? c) && (c <=? 0x66) then Some (c - 0x61 + 10)
  else if (0x41 <=? c) && (c <=? 0x46) then Some (c - 0x41 + 10)
  else None.

(** The character after a backslash, [u] apart. *)
Definition unescape (e : N) : option N :=
  if e =? 0x22 then Some 0x22
  else if e =? 0x5C then Some 0x5C
  else if e =? 0x2F then Some 0x2F
  else if e =? 0x62 then Some 0x08
  else if e =? 0x66 then Some 0x0C
  else if e =? 0x6E then Some 0x0A
  else if e =? 0x72 then Some 0x0D
  else if e =? 0x74 then Some 0x09
  else None.

Definition cons_char (c : N) (r : option (list N * list N))
    : option (list N * list N) :=
  match r with
  | Some (s, rest) => Some (c :: s, rest)
  | None => None
  end.

(** The characters of a string literal after its opening quote, up to
    and including the closing quote. *)
Fixpoint parse_string_chars (inp : list N) : option (list N * list N) :=
  match inp with
  | [] => None
  | c :: r =>
    if c =? 0x22 then Some ([], r)
    else if c =? 0x5C then
      match r with
      | [] => None
      | e :: r1 =>
        if e =? 0x75 then
          match r1 with
          | h3 :: h2 :: h1 :: h0 :: r2 =>
            match hex_value h3, hex_value h2, hex_value h1, hex_value h0 with
            | Some a, Some b, Some c', Some d =>
              cons_char (a * 4096 + b * 256 + c' * 16 + d)
                        (parse_string_chars r2)
            | _, _, _, _ => None
            end
          | _ => None
          end
        else
          match unescape e with
          | Some u => cons_char u (parse_string_chars r1)
          | None => None
          end
      end
    else if c <? 0x20 then None
    else cons_char c (parse_string_chars r)
  end.

Fixpoint span_digits (inp : list N) : list N * list N :=
  match inp with
  | c :: r =>
    if JsObject.is_digit c
    then let (ds, r') := span_digits r in (c :: ds, r')
    else ([], inp)
  | [] => ([], [])
  end.

(** One or more digits after [lead] (a point, or an exponent mark with
    its sign). *)
Definition digits_after (lead : list N) (inp : list N)
    : option (list N * list N) :=
  match span_digits inp with
  | ([], _) => None
  | (ds, r) => Some (lead ++ ds, r)
  end.

(** The lexeme of a number literal: an optional minus sign; a zero, or a
    non-zero digit and further digits; optionally a point and digits;
    optionally [e] or [E], a sign and digits. *)
Definition scan_number (inp : list N) : option (list N * list N) :=
  let '(sign, r0) :=
    match inp with
    | c :: r => if c =? 0x2D then ([c], r) else ([], inp)
    | [] => ([], inp)
    end in
  match r0 with
  | [] => None
  | c :: r1 =>
    let int_part :=
      if c =? 0x30 then Some ([c], r1)
      else if JsObject.is_digit c
      then let (ds, r2) := span_digits r1 in Some (c :: ds, r2)
      else None in
    match int_part with
    | None => None
    | Some (ip, r2) =>
      let frac :=
        match r2 with
        | d :: r3 => if d =? 0x2E then digits_after [d] r3 else Some ([], r2)
        | [] => Some ([], r2)
        end in
      match frac with
      | None => None
      | Some (fp, r4) =>
        let exp :=
          match r4 with
          | e :: r5 =>
            if (e =? 0x65) || (e =? 0x45) then
              match r5 with
              | sg :: r6 =>
                if (sg =? 0x2B) || (sg =? 0x2D)
                then digits_after [e; sg] r6
                else digits_after [e] r5
              | [] => None
              end
            else Some ([], r4)
          | [] => Some ([], r4)
          end in
        match exp with
        | None => None
        | Some (ep, r7) => Some (sign ++ ip ++ fp ++ ep, r7)
        end
      end
    end
  end.

(** [prefix] at the head of [inp]. *)
Fixpoint strip_prefix (prefix inp : list N) : option (list N) :=
  match prefix, inp with
  | [], _ => Some inp
  | p :: prefix', c :: inp' =>
    if p =? c then strip_prefix prefix' inp' else None
  | _ :: _, [] => None
  end.

Section Parse.
Context `{Engine}.

(** A literal name or a number. *)
Definition parse_scalar (inp : list N) : ParseResult JsValue :=
  match strip_prefix (js "true") inp with
  | Some r => Parsed (JsBool true) r
  | None =>
    match strip_prefix (js "false") inp with
    | Some r => Parsed (JsBool false) r
    | None =>
      match strip_prefix (js "null") inp with
      | Some r => Parsed JsNull r
      | None =>
        match scan_number inp with
        | Some (lexeme, r) => Parsed (JsNumber (StringToNumber lexeme)) r
        | None => SyntaxError
        end
      end
    end
  end.

(** Recursive descent. Every call below the first is made on a strictly
    shorter input, so a fuel above twice the length of the text is never
    used up. An object is built property by property with
    CreateDataProperty: a repeated key keeps its first place and its last
    value. *)
Fixpoint parse_value (fuel : nat) (inp : list N) : ParseResult JsValue :=
  match fuel with
  | O => OutOfFuel
  | S fuel' =>
    match skip_ws inp with
    | [] => SyntaxError
    | c :: r =>
      if c =? 0x7B then
        match skip_ws r with
        | c' :: r' =>
          if c' =? 0x7D then Parsed (JsObject []) r'
          else parse_members fuel' r []
        | [] => SyntaxError
        end
      else if c =? 0x5B then
        match skip_ws r with
        | c' :: r' =>
          if c' =? 0x5D then Parsed (JsArray []) r'
          else parse_elements fuel' r []
        | [] => SyntaxError
        end
      else if c =? 0x22 then
        match parse_string_chars r with
        | Some (s, r') => Parsed (JsString s) r'
        | None => SyntaxError
        end
      else parse_scalar (c :: r)
    end
  end

with parse_members (fuel : nat) (inp : list N)
    (acc : list (list N * JsValue)) : ParseResult JsValue :=
  match fuel with
  | O => OutOfFuel
  | S fuel' =>
    match skip_ws inp with
    | q :: r =>
      if q =? 0x22 then
        match parse_string_chars r with
        | Some (k, r1) =>
          match skip_ws r1 with
          | colon :: r2 =>
            if colon =? 0x3A then
              match parse_value fuel' r2 with
              | Parsed v r3 =>
                let acc' := JsObject.define k v acc in
                match skip_ws r3 with
                | c :: r4 =>
                  if c =? 0x2C then parse_members fuel' r4 acc'
                  else if c =? 0x7D then Parsed (JsObject acc') r4
                  else SyntaxError
                | [] => SyntaxError
                end
              | SyntaxError => SyntaxError
              | OutOfFuel => OutOfFuel
              end
            else SyntaxError
          | [] => SyntaxError
          end
        | None => SyntaxError
        end
      else SyntaxError
    | [] => SyntaxError
    end
  end

with parse_elements (fuel : nat) (inp : list N) (acc : list JsValue)
    : ParseResult JsValue :=
  match fuel with
  | O => OutOfFuel
  | S fuel' =>
    match parse_value fuel' inp with
    | Parsed v r1 =>
      match skip_ws r1 with
      | c :: r2 =>
        if c =? 0x2C then parse_elements fuel' r2 (acc ++ [v])
        else if c =? 0x5D then Parsed (JsArray (acc ++ [v])) r2
        else SyntaxError
      | [] => SyntaxError
      end
    | SyntaxError => SyntaxError
    | OutOfFuel => OutOfFuel
    end
  end.

(** [JSON.parse(text)]: one value, white space around it, nothing else.
    [None] is the SyntaxError the call throws. *)
Definition parse (text : list N) : option JsValue :=
  match parse_value (S (S (2 * length text))) text with
  | Parsed v rest =>
    match skip_ws rest with
    | [] => Some v
    | _ :: _ => None
    end
  | SyntaxError => None
  | OutOfFuel => None
  end.

End Parse.

End JSON.

(* ================================================================== *)
(** * Exceptions, service calls and the monad of [async] functions *)
(* ================================================================== *)

(** What a [throw] carries: an [Error] object with its [message], or any
    other value. *)
Inductive Thrown : Type :=
| ErrorObject (message : list N)
| ThrownValue (v : JsValue).

(** [new PinataSDK({ pinataJwt, pinataGateway })]. *)
Record PinataSDK : Type := {
  pinataJwt : option (list N);
  pinataGateway : list N
}.

(** [new File([bits], name, { type })]. *)
Record File : Type := {
  file_bits : list N;
  file_name : list N;
  file_type : list N
}.

Record KeyValues : Type := {
  kv_environment : list N;
  kv_type : list N;
  kv_timestamp : list N
}.

Record UploadMetadata : Type := {
  metadata_name : list N;
  metadata_keyvalues : KeyValues
}.

(** The upload response; the code reads its [cid]. *)
Record UploadResponse : Type := { cid : list N }.

(** One call to a remote service, with what it answered. *)
Inductive Event : Type :=
| TestAuthentication (sdk : PinataSDK) (answer : Thrown + unit)
| UploadPublicFile (sdk : PinataSDK) (file : File) (metadata : UploadMetadata)
                   (answer : Thrown + UploadResponse)
| NamePublish (credential : list N) (identifier : list N)
              (answer : list N + list N).

(** The pinning service and the clock, as functions of the state of the
    outside world. Any behaviour is an instance. *)
Class Pinata (World : Type) := {
  testAuthentication : PinataSDK -> World -> (Thrown + unit) * World;
  upload_public_file :
    PinataSDK -> File -> UploadMetadata -> World
    -> (Thrown + UploadResponse) * World;
  Date_toISOString : World -> list N
}.

(** The state an [async] function runs in: the outside world and the log
    of the service calls made so far. *)
Record State (World : Type) : Type := {
  world : World;
  log : list Event
}.
Arguments world {World} _.
Arguments log {World} _.
Arguments Build_State {World} _ _.

Inductive Completion (A : Type) : Type :=
| Normal (a : A)
| Abrupt (t : Thrown).
Arguments Normal {A} a.
Arguments Abrupt {A} t.

Definition M (World A : Type) : Type :=
  State World -> Completion A * State World.

Section Monad.
Context {World : Type}.

Definition ret {A} (a : A) : M World A := fun st => (Normal a, st).

Definition bind {A B} (m : M World A) (k : A -> M World B) : M World B :=
  fun st =>
    match m st with
    | (Normal a, st') => k a st'
    | (Abrupt t, st') => (Abrupt t, st')
    end.

Definition throw {A} (t : Thrown) : M World A := fun st => (Abrupt t, st).

(** [try { body } catch (error) { handler }]. *)
Definition try_catch {A} (body : M World A) (handler : Thrown -> M World A)
    : M World A :=
  fun st =>
    match body st with
    | (Normal a, st') => (Normal a, st')
    | (Abrupt t, st') => handler t st'
    end.

(** [await] of a service call: the world answers and moves on, the call
    is logged, a rejection is thrown. *)
Definition call {A} (op : World -> (Thrown + A) * World)
    (event : Thrown + A -> Event) : M World A :=
  fun st =>
    let (answer, w') := op (world st) in
    let st' := {| world := w'; log := log st ++ [event answer] |} in
    match answer with
    | inr a => (Normal a, st')
    | inl t => (Abrupt t, st')
    end.

(** Reading the world (the clock) changes nothing. *)
Definition read {A} (f : World -> A) : M World A :=
  fun st => (Normal (f (world st)), st).

End Monad.

Declare Scope monad_scope.
Delimit Scope monad_scope with monad.
Notation "x <- m ;; k" := (bind m (fun x => k))
  (at level 100, m at level 99, right associativity) : monad_scope.
Notation "m ;;; k" := (bind m (fun _ => k))
  (at level 100, right associativity) : monad_scope.
Local Open Scope monad_scope.

(* ================================================================== *)
(** * src/services/ipfsUploader.ts *)
(* ================================================================== *)

(** [import.meta.env]. *)
Class ImportMetaEnv := { VITE_PINATA_JWT : option (list N) }.

Record UploadResult : Type := {
  success : bool;
  ipfsHash : option (list N);
  error : option (list N)
}.

Module ipfsUploader.
Section Uploader.
Context `{Engine} `{ImportMetaEnv} {World : Type} `{Pinata World}.

Definition jwt_required : list N := js
  "Pinata JWT is required - either from config._env.pinataJWT or VITE_PINATA_JWT environment variable".

Definition getPinataInstance (pinataJwt : option (list N))
    : M World PinataSDK :=
  let jwt := or_else pinataJwt VITE_PINATA_JWT in
  if negb (truthy_opt jwt)
  then throw (ErrorObject jwt_required)
  else ret {| pinataJwt := jwt;
              pinataGateway := js "https://gateway.pinata.cloud" |}.

(** A blob part that is [undefined] is written as the text "undefined". *)
Definition blob_part (part : option (list N)) : list N :=
  match part with Some s => s | None => js "undefined" end.

Definition uploadConfigToIPFS (config : JsValue) (environmentName : list N)
    (pinataJWT : option (list N)) : M World UploadResult :=
  try_catch
    (pinataInstance <- getPinataInstance pinataJWT ;;
     (* Test authentication first *)
     call (testAuthentication pinataInstance)
          (TestAuthentication pinataInstance) ;;;
     let jsonString := JSON.stringify config 2 in
     let fileName := environmentName in
     let file := {| file_bits := blob_part jsonString;
                    file_name := fileName;
                    file_type := js "application/json" |} in
     timestamp <- read Date_toISOString ;;
     let metadata :=
       {| metadata_name := fileName;
          metadata_keyvalues :=
            {| kv_environment := environmentName;
               kv_type := js "configuration";
               kv_timestamp := timestamp |} |} in
     upload <- call (upload_public_file pinataInstance file metadata)
                    (UploadPublicFile pinataInstance file metadata) ;;
     ret {| success := true; ipfsHash := Some (cid upload); error := None |})
    (fun error =>
       ret {| success := false;
              ipfsHash := None;
              error := Some match error with
                            | ErrorObject message => message
                            | ThrownValue _ => js "Unknown upload error"
                            end |}).

Definition isPinataConfigured (pinataJWT : option (list N)) : bool :=
  truthy_opt (or_else pinataJWT VITE_PINATA_JWT).

Definition getUploadStatusMessage (environmentName : list N) : list N :=
  if negb (isPinataConfigured None)
  then js "Pinata not configured. Please set VITE_PINATA_JWT environment variable."
  else js "Ready to upload " ++ environmentName ++ js " configuration to IPFS".

End Uploader.
End ipfsUploader.

(* ================================================================== *)
(** * The publisher orchestrator *)
(* ================================================================== *)

(** Modelled from the spec: the naming network boundary of section 6
    ([ipnsUpdater.ts] is not among the sources). The publish primitive
    takes the credential and the identifier; the answer is the name, or
    the reason of a NameUpdateError. *)
Class NamingNetwork (World : Type) := {
  naming_publish : list N -> list N -> World -> (list N + list N) * World
}.

(** Modelled from the spec: the EnvironmentRecord of section 3. *)
Record EnvironmentRecord : Type := {
  name : list N;
  publicName : list N;
  credential : option (list N);
  serviceCredential : option (list N)
}.

(** Modelled from the spec: the [uploadResult] of a PublishOutcome. *)
Inductive UploadOutcome : Type :=
| UploadSuccess (identifier : list N)
| UploadFailure (failure : list N).

(** Modelled from the spec: the three shapes of [nameUpdateResult] in
    section 3; the skipped one is [{skipped: "no credential"}]. *)
Inductive NameUpdateOutcome : Type :=
| NameUpdated (newName : list N) (reachableAs : list N)
| NameUpdateFailure (failure : list N)
| NameSkipped.

(** Modelled from the spec: the reason a skipped name update carries. *)
Definition skipped (r : NameUpdateOutcome) : option (list N) :=
  match r with
  | NameSkipped => Some (js "no credential")
  | _ => None
  end.

(** Modelled from the spec: the PublishOutcome of section 3. *)
Record PublishOutcome : Type := {
  uploadResult : UploadOutcome;
  nameUpdateResult : NameUpdateOutcome
}.

(** [{ ipfsResult, ipnsResult }]: the declaration is in [ipnsUpdater.ts];
    the fields are those [handleUploadAndPublish] reads. *)
Record IpnsResult : Type := {
  ipns_success : bool;
  ipnsName : option (list N);
  ipns_error : option (list N)
}.

Record PublishResults : Type := {
  ipfsResult : UploadResult;
  ipnsResult : option IpnsResult
}.

Module ipnsUpdater.
Section Orchestrator.
Context {World : Type} `{NamingNetwork World}.

(** Modelled from the spec: the naming call of step 4 of section 4.4; the
    network answers, the call is logged, a failure is an answer and not
    an exception. *)
Definition name_update (cred identifier : list N)
    : M World (list N + list N) :=
  fun st =>
    let (answer, w') := naming_publish cred identifier (world st) in
    (Normal answer,
     {| world := w';
        log := log st ++ [NamePublish cred identifier answer] |}).

(** Modelled from the spec: [uploadAndUpdateIPNS] of
    [src/services/ipnsUpdater.ts] is not among the sources; this is the
    algorithm of section 4.4, [publish(snapshot, environmentRecord)].
    Steps 1 and 2 are the upload function the caller hands in (it encodes
    the snapshot itself); an upload that fails ends the call with the name
    update skipped; without a credential the name update is skipped; with
    one, the publish primitive is invoked on the new identifier and its
    failure is reported beside the upload's success. *)
Definition publish
    (upload : JsValue -> list N -> option (list N) -> M World UploadResult)
    (snapshot : JsValue) (environmentRecord : EnvironmentRecord)
    : M World PublishOutcome :=
  uploaded <- upload snapshot (name environmentRecord)
                     (serviceCredential environmentRecord) ;;
  match success uploaded, ipfsHash uploaded with
  | true, Some identifier =>
    match credential environmentRecord with
    | None =>
      ret {| uploadResult := UploadSuccess identifier;
             nameUpdateResult := NameSkipped |}
    | Some cred =>
      answer <- name_update cred identifier ;;
      ret {| uploadResult := UploadSuccess identifier;
             nameUpdateResult :=
               match answer with
               | inr newName =>
                 NameUpdated newName (js "https://ipfs.io/ipns/" ++ newName)
               | inl failure => NameUpdateFailure failure
               end |}
    end
  | _, _ =>
    ret {| uploadResult :=
             UploadFailure match error uploaded with
                           | Some message => message
                           | None => []
                           end;
           nameUpdateResult := NameSkipped |}
  end.

(** Modelled from the spec: the exposed result shape of section 6, in the
    fields the caller destructures; a skipped name update is an absent
    [ipnsResult]. *)
Definition exposed (outcome : PublishOutcome) : PublishResults :=
  {| ipfsResult :=
       match uploadResult outcome with
       | UploadSuccess identifier =>
         {| success := true; ipfsHash := Some identifier; error := None |}
       | UploadFailure failure =>
         {| success := false; ipfsHash := None; error := Some failure |}
       end;
     ipnsResult :=
       match nameUpdateResult outcome with
       | NameUpdated newName _ =>
         Some {| ipns_success := true; ipnsName := Some newName;
                 ipns_error := None |}
       | NameUpdateFailure failure =>
         Some {| ipns_success := false; ipnsName := None;
                 ipns_error := Some failure |}
       | NameSkipped => None
       end |}.

(** Modelled from the spec: [publish] behind the signature of the call in
    [handleUploadAndPublish]; the environment's configuration is the
    EnvironmentRecord of section 3. *)
Definition uploadAndUpdateIPNS {ConfigStructure : Type}
    (config : JsValue) (environmentName : list N)
    (environmentConfig : EnvironmentRecord) (configStructure : ConfigStructure)
    (uploadFn : JsValue -> list N -> option (list N) -> M World UploadResult)
    : M World PublishResults :=
  outcome <- publish uploadFn config environmentConfig ;;
  ret (exposed outcome).

End Orchestrator.
End ipnsUpdater.

(* ================================================================== *)
(** * src/components/EnvironmentTab.tsx *)
(* ================================================================== *)

Module EnvironmentTab.

(** [`${x}`] for an [x] that may be [undefined]. *)
Definition template (x : option (list N)) : list N :=
  match x with Some s => s | None => js "undefined" end.

(** The message of lines 144 to 161. *)
Definition publish_message (r : PublishResults) : list N :=
  let ipfsResult := ipfsResult r in
  let ipnsResult := ipnsResult r in
  if success ipfsResult && truthy_opt (ipfsHash ipfsResult) then
    let message :=
      js "‚úÖ Uploaded to IPFS! Hash: " ++ template (ipfsHash ipfsResult) in
    match ipnsResult with
    | Some ipnsResult =>
      if ipns_success ipnsResult && truthy_opt (ipnsName ipnsResult)
      then message
           ++ [0x0A] ++ js "üîó IPNS Updated! Name: "
           ++ template (ipnsName ipnsResult)
           ++ [0x0A] ++ js "üåê Access: https://ipfs.io/ipns/"
           ++ template (ipnsName ipnsResult)
      else message
           ++ [0x0A] ++ js "‚ùå IPNS update failed: "
           ++ template (ipns_error ipnsResult)
    | None =>
      message
      ++ [0x0A] ++ js "‚ö†Ô∏è No IPNS private key found - IPFS upload only"
    end
  else js "‚ùå Upload failed: " ++ template (error ipfsResult).

Section Tab.
Context `{Engine} `{ImportMetaEnv} {World : Type} `{Pinata World}.
Context {EnvironmentConfig ConfigStructure : Type}.

(** [uploadAndUpdateIPNS] is imported from [ipnsUpdater]. *)
Variable uploadAndUpdateIPNS :
  JsValue -> list N -> EnvironmentConfig -> ConfigStructure
  -> (JsValue -> list N -> option (list N) -> M World UploadResult)
  -> M World PublishResults.

Record Props : Type := {
  environmentName : list N;
  environmentConfig : EnvironmentConfig;
  configStructure : ConfigStructure;
  fetchedConfig : option (list (list N * JsValue))
}.

(** The component state the handler reads and sets. *)
Record TabState : Type := {
  rawJsonValue : list N;
  uploading : bool;
  uploadResult : option (list N)
}.

Definition handleUploadAndPublish (p : Props) (s : TabState)
    : M World TabState :=
  let configToUpload :=
    match fetchedConfig p with
    | Some config => Some (JsObject config)
    | None => JSON.parse (rawJsonValue s)
    end in
  match configToUpload with
  | None =>
    ret {| rawJsonValue := rawJsonValue s;
           uploading := uploading s;
           uploadResult :=
             Some (js "‚ùå Invalid JSON: "
                   ++ SyntaxErrorMessage (rawJsonValue s)) |}
  | Some configToUpload =>
    message <-
      try_catch
        (results <- uploadAndUpdateIPNS configToUpload (environmentName p)
                      (environmentConfig p) (configStructure p)
                      ipfsUploader.uploadConfigToIPFS ;;
         ret (publish_message results))
        (fun error =>
           ret (js "‚ùå Error: "
                ++ match error with
                   | ErrorObject message => message
                   | ThrownValue _ => js "Unknown error"
                   end)) ;;
    ret {| rawJsonValue := rawJsonValue s;
           uploading := false;
           uploadResult := Some message |}
  end.

End Tab.
End EnvironmentTab.

(* ================================================================== *)
(** * ConfigManager: the edit handlers *)
(* ================================================================== *)

Module ConfigManager.

(** [FetchedConfig] is declared in [ipnsFetcher.ts]; a configuration is
    taken as a plain object of the values above, and [fetchedConfigs] as
    the finite map from environment names to configurations. *)

(** [{ ...config }]: the own properties of [config], none when it is
    [undefined]. *)
Definition spread (config : option (list (list N * JsValue)))
    : list (list N * JsValue) :=
  match config with Some c => c | None => [] end.

(** [config[k] = v] on a plain object: a data property is set or created;
    the [__proto__] accessor takes the assignment and leaves the own
    properties as they are. *)
Definition assign (k : list N) (v : JsValue) (o : list (list N * JsValue))
    : list (list N * JsValue) :=
  if JsObject.key_eqb k (js "__proto__") then o else JsObject.define k v o.

(** [config[k]], [undefined] when there is no such own property (what
    [Object.prototype] would lend under names such as [constructor] is
    outside the model). *)
Definition read_property (k : list N) (o : list (list N * JsValue))
    : JsValue :=
  match JsObject.get k o with Some v => v | None => JsUndefined end.

(** Each handler is the function it passes to [setFetchedConfigs]
    ([prev => ...]); a handler that returns early leaves the state. *)

Definition handleUpdateValue (environmentName key value : list N)
    (prev : gmap (list N) (list (list N * JsValue)))
    : gmap (list N) (list (list N * JsValue)) :=
  <[environmentName :=
      JsObject.define key (JsString value) (spread (prev !! environmentName))]>
    prev.

Definition handleUpdateKey (environmentName oldKey newKey : list N)
    (prev : gmap (list N) (list (list N * JsValue)))
    : gmap (list N) (list (list N * JsValue)) :=
  if JsObject.key_eqb oldKey newKey then prev
  else
    let config := spread (prev !! environmentName) in
    let value := read_property oldKey config in
    let config := JsObject.delete oldKey config in
    let config := assign newKey value config in
    <[environmentName := config]> prev.

Definition handleAddKey (environmentName key value : list N)
    (prev : gmap (list N) (list (list N * JsValue)))
    : gmap (list N) (list (list N * JsValue)) :=
  if negb (truthy (trim key)) then prev
  else
    <[environmentName :=
        JsObject.define key (JsString value)
                        (spread (prev !! environmentName))]> prev.

Definition handleRemoveKey (environmentName key : list N)
    (prev : gmap (list N) (list (list N * JsValue)))
    : gmap (list N) (list (list N * JsValue)) :=
  let newConfig := spread (prev !! environmentName) in
  let newConfig := JsObject.delete key newConfig in
  <[environmentName := newConfig]> prev.

End ConfigManager.

(* ================================================================== *)
(** * Reading the log of service calls *)
(* ================================================================== *)

Module Trace.

(** The files handed to the pinning service for storage. *)
Fixpoint uploaded_files (evs : list Event) : list File :=
  match evs with
  | [] => []
  | UploadPublicFile _ file _ _ :: evs' => file :: uploaded_files evs'
  | _ :: evs' => uploaded_files evs'
  end.

(** The identifiers the pinning service returned for stored files. *)
Fixpoint stored_identifiers (evs : list Event) : list (list N) :=
  match evs with
  | [] => []
  | UploadPublicFile _ _ _ (inr response) :: evs' =>
    cid response :: stored_identifiers evs'
  | _ :: evs' => stored_identifiers evs'
  end.

(** The identifiers handed to the naming network's publish primitive. *)
Fixpoint name_updates (evs : list Event) : list (list N) :=
  match evs with
  | [] => []
  | NamePublish _ identifier _ :: evs' => identifier :: name_updates evs'
  | _ :: evs' => name_updates evs'
  end.

(** The credentials the pinning service was called with. *)
Fixpoint credentials_used (evs : list Event) : list (option (list N)) :=
  match evs with
  | [] => []
  | TestAuthentication sdk _ :: evs' => pinataJwt sdk :: credentials_used evs'
  | UploadPublicFile sdk _ _ _ :: evs' => pinataJwt sdk :: credentials_used evs'
  | NamePublish _ _ _ :: evs' => credentials_used evs'
  end.

(** The message the [catch] block of [uploadConfigToIPFS] reports. *)
Definition caught_message (t : Thrown) : list N :=
  match t with
  | ErrorObject message => message
  | ThrownValue _ => js "Unknown upload error"
  end.

End Trace.

(* ================================================================== *)
(** * Runs of the uploader and of the orchestrator *)
(* ================================================================== *)

Module Runs.
Import ipfsUploader ipnsUpdater Trace.

Section Runs.
Context `{Engine} `{ImportMetaEnv} {World : Type} `{Pinata World}
        `{NamingNetwork World}.

Definition failed (message : list N) : UploadResult :=
  {| success := false; ipfsHash := None; error := Some message |}.

Definition succeeded (identifier : list N) : UploadResult :=
  {| success := true; ipfsHash := Some identifier; error := None |}.

(** The file and the metadata of the upload call. *)
Definition file_of (config : JsValue) (environmentName : list N) : File :=
  {| file_bits := blob_part (JSON.stringify config 2);
     file_name := environmentName;
     file_type := js "application/json" |}.

Definition metadata_of (environmentName timestamp : list N)
    : UploadMetadata :=
  {| metadata_name := environmentName;
     metadata_keyvalues :=
       {| kv_environment := environmentName;
          kv_type := js "configuration";
          kv_timestamp := timestamp |} |}.

(** The four ways a run of [uploadConfigToIPFS] can go, with the result
    and the service calls of each. *)
Inductive upload_run (config : JsValue) (environmentName : list N)
    (pinataJWT : option (list N)) (st : State World)
    : UploadResult -> State World -> list Event -> Prop :=
| run_no_credential :
    truthy_opt (or_else pinataJWT VITE_PINATA_JWT) = false ->
    upload_run config environmentName pinataJWT st
               (failed jwt_required) st []
| run_rejected sdk t w1 :
    truthy_opt (or_else pinataJWT VITE_PINATA_JWT) = true ->
    pinataJwt sdk = or_else pinataJWT VITE_PINATA_JWT ->
    testAuthentication sdk (world st) = (inl t, w1) ->
    upload_run config environmentName pinataJWT st
               (failed (caught_message t))
               {| world := w1;
                  log := log st ++ [TestAuthentication sdk (inl t)] |}
               [TestAuthentication sdk (inl t)]
| run_transfer_fault sdk w1 t w2 :
    truthy_opt (or_else pinataJWT VITE_PINATA_JWT) = true ->
    pinataJwt sdk = or_else pinataJWT VITE_PINATA_JWT ->
    testAuthentication sdk (world st) = (inr tt, w1) ->
    upload_public_file sdk (file_of config environmentName)
      (metadata_of environmentName (Date_toISOString w1)) w1 = (inl t, w2) ->
    let evs :=
      [TestAuthentication sdk (inr tt);
       UploadPublicFile sdk (file_of config environmentName)
         (metadata_of environmentName (Date_toISOString w1)) (inl t)] in
    upload_run config environmentName pinataJWT st
               (failed (caught_message t))
               {| world := w2; log := log st ++ evs |} evs
| run_stored sdk w1 response w2 :
    truthy_opt (or_else pinataJWT VITE_PINATA_JWT) = true ->
    pinataJwt sdk = or_else pinataJWT VITE_PINATA_JWT ->
    testAuthentication sdk (world st) = (inr tt, w1) ->
    upload_public_file sdk (file_of config environmentName)
      (metadata_of environmentName (Date_toISOString w1)) w1
      = (inr response, w2) ->
    let evs :=
      [TestAuthentication sdk (inr tt);
       UploadPublicFile sdk (file_of config environmentName)
         (metadata_of environmentName (Date_toISOString w1))
         (inr response)] in
    upload_run config environmentName pinataJWT st
               (succeeded (cid response))
               {| world := w2; log := log st ++ evs |} evs.

(** The ways a run of [publish] over [uploadConfigToIPFS] can go. *)
Inductive publish_run (snapshot : JsValue) (r : EnvironmentRecord)
    (st : State World) : PublishOutcome -> State World -> list Event -> Prop :=
| published_nothing message st1 evs :
    upload_run snapshot (name r) (serviceCredential r) st
               (failed message) st1 evs ->
    publish_run snapshot r st
      {| uploadResult := UploadFailure message;
         nameUpdateResult := NameSkipped |} st1 evs
| published_content identifier st1 evs :
    upload_run snapshot (name r) (serviceCredential r) st
               (succeeded identifier) st1 evs ->
    credential r = None ->
    publish_run snapshot r st
      {| uploadResult := UploadSuccess identifier;
         nameUpdateResult := NameSkipped |} st1 evs
| published_name identifier st1 evs cred answer w2 :
    upload_run snapshot (name r) (serviceCredential r) st
               (succeeded identifier) st1 evs ->
    credential r = Some cred ->
    naming_publish cred identifier (world st1) = (answer, w2) ->
    publish_run snapshot r st
      {| uploadResult := UploadSuccess identifier;
         nameUpdateResult :=
           match answer with
           | inr newName =>
             NameUpdated newName (js "https://ipfs.io/ipns/" ++ newName)
           | inl failure => NameUpdateFailure failure
           end |}
      {| world := w2;
         log := log st ++ evs ++ [NamePublish cred identifier answer] |}
      (evs ++ [NamePublish cred identifier answer]).

End Runs.
End Runs.

(* ================================================================== *)
(** * Snapshots and the text of their encoding *)
(* ================================================================== *)

(** A snapshot of the data model, an ordered mapping from string keys to
    string values, as the properties of the object that holds it. *)
Definition snapshot_props (s : list (list N * list N))
    : list (list N * JsValue) :=
  List.map (fun kv => (fst kv, JsString (snd kv))) s.


Module Codec.
Import JSON.

(** What a parser may answer on [inp] when it has fuel enough: a value
    and a strictly shorter rest, or a syntax error. *)
Definition consumes {A} (inp : list N) (r : ParseResult A) : Prop :=
  match r with
  | Parsed _ rest => (length rest < length inp)%nat
  | SyntaxError => True
  | OutOfFuel => False
  end.

(** White space only. *)
Definition all_ws (w : list N) : Prop := forallb is_json_ws w = true.

(** One member of the serialized object: the quoted key, a colon, the
    space there is with a gap, the quoted value. *)
Definition member_text (sp : list N) (kv : list N * list N) : list N :=
  QuoteJSONString (fst kv) ++ [0x3A] ++ sp ++ QuoteJSONString (snd kv).

(** The members after the first, each behind its separator. *)
Definition members_tail (sep sp : list N) (ms : list (list N * list N))
    : list N :=
  concat (List.map (fun q => sep ++ q) (List.map (member_text sp) ms)).

End Codec.

(* ================================================================== *)
(** * A concrete world for the scenarios *)
(* ================================================================== *)

Module Scenario.

(** The world is the number of service calls answered so far. The
    pinning service accepts one token and names a blob after its bytes;
    the naming network accepts one key. *)
#[export] Instance engine : Engine := {|
  NumberToString := fun _ => js "0";
  StringToNumber := fun _ => 0%float;
  SyntaxErrorMessage := fun _ => js "Unexpected token"
|}.

Definition no_env : ImportMetaEnv := {| VITE_PINATA_JWT := None |}.
Definition shared_env : ImportMetaEnv :=
  {| VITE_PINATA_JWT := Some (js "shared-token") |}.

Definition accepted (jwt : option (list N)) : bool :=
  bool_decide (jwt = Some (js "valid-token"))
  || bool_decide (jwt = Some (js "shared-token")).

#[export] Instance pinata : Pinata nat := {|
  testAuthentication sdk w :=
    (if accepted (pinataJwt sdk) then inr tt
     else inl (ErrorObject (js "Authentication failed")), S w);
  upload_public_file sdk file metadata w :=
    (inr {| cid := js "bafy-" ++ file_bits file |}, S w);
  Date_toISOString w :=
    js "2025-01-01T00:00:0" ++ [0x30 + N.of_nat (w mod 10)] ++ js ".000Z"
|}.

#[export] Instance naming : NamingNetwork nat := {|
  naming_publish cred identifier w :=
    (if bool_decide (cred = js "owner-key") then inr (js "k51-name")
     else inl (js "naming network unreachable"), S w)
|}.

Definition start : State nat := {| world := 0%nat; log := [] |}.

(** The snapshot of scenarios A to D: [{"a":"1","b":"2"}]. *)
Definition snapshot : JsValue :=
  JsObject [(js "a", JsString (js "1")); (js "b", JsString (js "2"))].

Definition record (cred service : option (list N)) : EnvironmentRecord :=
  {| name := js "production";
     publicName := js "k51-name";
     credential := cred;
     serviceCredential := service |}.

(** The text of the snapshot [a = 1, b = 2], indented by two spaces. *)
Definition encoded : list N :=
  [0x7B; 0x0A;
   0x20; 0x20; 0x22; 0x61; 0x22; 0x3A; 0x20; 0x22; 0x31; 0x22; 0x2C; 0x0A;
   0x20; 0x20; 0x22; 0x62; 0x22; 0x3A; 0x20; 0x22; 0x32; 0x22; 0x0A;
   0x7D].

Definition valid : option (list N) := Some (js "valid-token").
Definition owner : option (list N) := Some (js "owner-key").

(** The identifier the store gives the encoded snapshot. *)
Definition stored : list N := js "bafy-" ++ encoded.

(** The store of the edit examples: one environment, one key. *)
Definition store : gmap (list N) (list (list N * JsValue)) :=
  {[ js "production" := [(js "a", JsString (js "1"))] ]}.

(** A snapshot with an array-index key, a quote, a line feed, a control
    character and a lone surrogate. *)
Definition awkward : list (list N * list N) :=
  [(js "7", [0x22; 0x0A; 0x01; 0xD800; 0x41]);
   (js "path", js "C:\temp");
   ([], [])].

End Scenario.

(* ================================================================== *)
(** * String(v), Object.keys and Object.entries *)
(* ================================================================== *)

Module JsCoercion.

Fixpoint digits_of_uint (d : Decimal.uint) : list N :=
  match d with
  | Decimal.Nil => []
  | Decimal.D0 d' => 0x30 :: digits_of_uint d'
  | Decimal.D1 d' => 0x31 :: digits_of_uint d'
  | Decimal.D2 d' => 0x32 :: digits_of_uint d'
  | Decimal.D3 d' => 0x33 :: digits_of_uint d'
  | Decimal.D4 d' => 0x34 :: digits_of_uint d'
  | Decimal.D5 d' => 0x35 :: digits_of_uint d'
  | Decimal.D6 d' => 0x36 :: digits_of_uint d'
  | Decimal.D7 d' => 0x37 :: digits_of_uint d'
  | Decimal.D8 d' => 0x38 :: digits_of_uint d'
  | Decimal.D9 d' => 0x39 :: digits_of_uint d'
  end.

(** The property key of an array index: its decimal digits. *)
Definition index_key (i : nat) : list N := digits_of_uint (Nat.to_uint i).

(** The elements of an array or the code units of a string under their
    indices. *)
Definition indexed {A} (l : list A) : list (list N * A) :=
  combine (List.map index_key (seq 0 (length l))) l.

(** [Object.keys(o)] of a plain object. *)
Definition Object_keys {A} (o : list (list N * A)) : list (list N) :=
  JsObject.keys o.

(** [Object.entries(v)]. [None] is the TypeError thrown for [null] and
    [undefined]; a number or a boolean has no entries; a string has its
    code units. *)
Definition Object_entries (v : JsValue) : option (list (list N * JsValue)) :=
  match v with
  | JsUndefined => None
  | JsNull => None
  | JsBool _ => Some []
  | JsNumber _ => Some []
  | JsString s => Some (indexed (List.map (fun c => JsString [c]) s))
  | JsArray items => Some (indexed items)
  | JsObject props => Some props
  end.

Section ToString.
Context `{Engine}.

(** [String(v)]. An array is its elements joined by commas, [null] and
    [undefined] among them written as nothing; a plain object is
    "[object Object]". *)
Fixpoint ToString (v : JsValue) : list N :=
  match v with
  | JsUndefined => js "undefined"
  | JsNull => js "null"
  | JsBool true => js "true"
  | JsBool false => js "false"
  | JsNumber n => NumberToString n
  | JsString s => s
  | JsArray items =>
    JSON.join [0x2C]
      ((fix each (l : list JsValue) : list (list N) :=
          match l with
          | [] => []
          | x :: l' =>
            match x with
            | JsUndefined => []
            | JsNull => []
            | _ => ToString x
            end :: each l'
          end) items)
  | JsObject _ => js "[object Object]"
  end.

End ToString.
End JsCoercion.

(* ================================================================== *)
(** * src/components/EnvironmentTab.tsx: the editing side *)
(* ================================================================== *)

(** The message of the TypeError that [Object.entries(null)] throws; it
    is the engine's. *)
Class TypeErrors := { NullToObjectMessage : list N }.

Module EnvironmentTabEditing.
Import JsCoercion.

(** [configStructure._env?.pinataJWT], [isPinataConfigured] and the
    [disabled] attribute of the publish button. *)
Definition publishDisabled `{ImportMetaEnv} (uploading : bool)
    (env_pinataJWT : option (list N)) (showRawJson : bool)
    (rawJsonValue : list N) : bool :=
  uploading
  || negb (ipfsUploader.isPinataConfigured env_pinataJWT)
  || (showRawJson && negb (truthy (trim rawJsonValue))).

(** The text a tab without configuration starts with: an opening brace,
    a line of two spaces, a closing brace. *)
Definition empty_text : list N := [0x7B; 0x0A; 0x20; 0x20; 0x0A; 0x7D].

Section Editing.
Context `{Engine} `{TypeErrors} {Store : Type}.

(** The callbacks of the props: each is the update it makes to the state
    of the parent. *)
Variable onAddKey : list N -> list N -> list N -> Store -> Store.
Variable onRemoveKey : list N -> list N -> Store -> Store.
Variable environmentName : list N.

(** The two inputs of the "Add New Key-Value Pair" row. *)
Record Inputs : Type := {
  newKey : list N;
  newValue : list N
}.

Definition handleAddKey (i : Inputs) (store : Store) : Inputs * Store :=
  if truthy (trim (newKey i)) && truthy (trim (newValue i))
  then ({| newKey := []; newValue := [] |},
        onAddKey environmentName (trim (newKey i)) (trim (newValue i)) store)
  else (i, store).


(** The value input of a row, lines 268 to 272. *)
Definition onValueChange (key value : list N) (store : Store) : Store :=
  (* Remove old key and add new one with updated value *)
  let store := onRemoveKey environmentName key store in
  onAddKey environmentName key value store.

(** The first effect: the raw text follows [fetchedConfig]. (The encoding
    of an object is never [undefined].) *)
Definition syncRawJson (fetchedConfig : option (list (list N * JsValue)))
    (rawJsonValue : list N) : list N :=
  match fetchedConfig with
  | Some config =>
    match JSON.stringify (JsObject config) 2 with
    | Some text => text
    | None => rawJsonValue
    end
  | None => if negb (truthy rawJsonValue) then empty_text else rawJsonValue
  end.

(** [Object.keys(fetchedConfig).forEach(k => onRemoveKey(environmentName, k))],
    skipped when there is no [fetchedConfig]. *)
Definition clearExisting (fetchedConfig : option (list (list N * JsValue)))
    (store : Store) : Store :=
  match fetchedConfig with
  | Some config =>
    fold_left (fun st k => onRemoveKey environmentName k st)
              (Object_keys config) store
  | None => store
  end.

(** [entries.forEach(([k, v]) => onAddKey(environmentName, k, String(v)))]. *)
Definition addEntries (entries : list (list N * JsValue)) (store : Store)
    : Store :=
  fold_left (fun st kv => onAddKey environmentName (fst kv) (ToString (snd kv)) st)
            entries store.

(** The second effect: while the JSON view is shown, a text that parses
    and encodes differently from [fetchedConfig] replaces the
    configuration; every error is swallowed, also the TypeError of
    [Object.entries], which comes after the removals. *)
Definition autoParse (showRawJson : bool) (rawJsonValue : list N)
    (fetchedConfig : option (list (list N * JsValue))) (store : Store)
    : Store :=
  if negb showRawJson then store
  else
    match JSON.parse rawJsonValue with
    | None => store
    | Some parsed =>
      let currentJson :=
        match fetchedConfig with
        | Some config => JSON.stringify (JsObject config) 0
        | None => Some (js "{}")
        end in
      let newJson := JSON.stringify parsed 0 in
      if bool_decide (currentJson = newJson) then store
      else
        let store := clearExisting fetchedConfig store in
        match Object_entries parsed with
        | Some entries => addEntries entries store
        | None => store
        end
    end.

(** What "Save Changes" leaves: the state of the parent, the message
    under the header, and the text of the alert if one was raised. *)
Record Saved : Type := {
  saved_store : Store;
  saved_uploadResult : option (list N);
  alerted : option (list N)
}.

Definition handleSaveRawJson (rawJsonValue : list N)
    (fetchedConfig : option (list (list N * JsValue)))
    (uploadResult : option (list N)) (store : Store) : Saved :=
  match JSON.parse rawJsonValue with
  | None =>
    {| saved_store := store;
       saved_uploadResult := uploadResult;
       alerted := Some (js "Invalid JSON: "
                        ++ SyntaxErrorMessage rawJsonValue) |}
  | Some parsed =>
    (* Clear existing config and add new config locally *)
    let store := clearExisting fetchedConfig store in
    match Object_entries parsed with
    | Some entries =>
      {| saved_store := addEntries entries store;
         saved_uploadResult := Some (js "‚úÖ Changes saved locally!");
         alerted := None |}
    | None =>
      {| saved_store := store;
         saved_uploadResult := uploadResult;
         alerted := Some (js "Invalid JSON: " ++ NullToObjectMessage) |}
    end
  end.

End Editing.
End EnvironmentTabEditing.

(* ================================================================== *)
(** * ConfigManager: loading a configuration and fetching from IPNS *)
(* ================================================================== *)

(** What [resolveIPNSFromPrivateKey] and [resolveIPNSFromPublicKey]
    answer, in the fields the page reads. *)
Record ResolveResult : Type := {
  resolve_success : bool;
  resolve_ipfsHash : option (list N);
  resolve_error : option (list N)
}.

(** What [fetchFromIPNS] answers, in the fields the page reads. *)
Record FetchResult : Type := {
  fetch_success : bool;
  fetch_data : option (list (list N * JsValue));
  fetch_ipfsHash : option (list N);
  fetch_error : option (list N)
}.

(** The functions the page imports from [ipnsUpdater] and [ipnsFetcher],
    and the dynamic [import] itself, as functions of the state of the
    outside world. Any behaviour is an instance. *)
Class IpnsServices (World : Type) := {
  import_ipnsUpdater : World -> (Thrown + unit) * World;
  resolveIPNSFromPrivateKey :
    JsValue -> World -> (Thrown + ResolveResult) * World;
  resolveIPNSFromPublicKey :
    list N -> World -> (Thrown + ResolveResult) * World;
  fetchFromIPNS : list N -> World -> (Thrown + FetchResult) * World
}.

Module ConfigManagerPage.

(** A [ConfigStructure] is the plain object that was loaded: environment
    names and [_env], in the order of its own keys. *)
Definition ConfigStructure : Type := list (list N * JsValue).

(** The state of the component, lines 103 to 108. *)
Record ManagerState : Type := {
  configStructure : option ConfigStructure;
  fetchedConfigs : gmap (list N) (list (list N * JsValue));
  currentIPFSHashes : gmap (list N) (list N);
  loading : gmap (list N) bool;
  error : option (list N);
  activeTab : list N
}.

Definition initial : ManagerState :=
  {| configStructure := None;
     fetchedConfigs := ∅;
     currentIPFSHashes := ∅;
     loading := ∅;
     error := None;
     activeTab := [] |}.

Definition handleConfigLoaded (config : ConfigStructure) (s : ManagerState)
    : ManagerState :=
  let s := {| configStructure := Some config;
              fetchedConfigs := ∅;
              currentIPFSHashes := ∅;
              loading := loading s;
              error := None;
              activeTab := activeTab s |} in
  (* Set first environment as active tab (skip _env) *)
  let envNames :=
    List.filter (fun name => negb (JsObject.key_eqb name (js "_env")))
                (JsCoercion.Object_keys config) in
  match envNames with
  | firstEnv :: _ =>
    if truthy firstEnv
    then {| configStructure := configStructure s;
            fetchedConfigs := fetchedConfigs s;
            currentIPFSHashes := currentIPFSHashes s;
            loading := loading s;
            error := error s;
            activeTab := firstEnv |}
    else s
  | [] => s
  end.

Definition handleReset (s : ManagerState) : ManagerState :=
  {| configStructure := None;
     fetchedConfigs := ∅;
     currentIPFSHashes := ∅;
     loading := loading s;
     error := None;
     activeTab := [] |}.

(** [value?.[k]] for an own property of a plain object; a primitive, an
    array and a missing property give [undefined]. *)
Definition member (k : list N) (value : JsValue) : JsValue :=
  match value with
  | JsObject props => ConfigManager.read_property k props
  | _ => JsUndefined
  end.

(** ToBoolean. *)
Definition ToBoolean (value : JsValue) : bool :=
  match value with
  | JsUndefined => false
  | JsNull => false
  | JsBool b => b
  | JsNumber n => negb (PrimFloat.eqb n 0 || PrimFloat.is_nan n)
  | JsString s => truthy s
  | JsArray _ => true
  | JsObject _ => true
  end.

(** What [handleFetch] does, one after the other: the state updates it
    issues and the calls it awaits, each with its answer. A setter with an
    environment name is the update [prev => ({ ...prev, [name]: value })]. *)
Inductive Step : Type :=
| SetLoading (environmentName : list N) (value : bool)
| SetError (value : option (list N))
| SetCurrentIPFSHash (environmentName : list N) (hash : list N)
| SetFetchedConfig (environmentName : list N)
                   (data : list (list N * JsValue))
| Import (answer : Thrown + unit)
| ResolveFromPrivateKey (key : JsValue) (answer : Thrown + ResolveResult)
| ResolveFromPublicKey (key : list N) (answer : Thrown + ResolveResult)
| FetchFromIPNS (key : list N) (answer : Thrown + FetchResult).

(** The state after one step; a call changes nothing of it. *)
Definition apply_step (s : ManagerState) (step : Step) : ManagerState :=
  match step with
  | SetLoading name value =>
    {| configStructure := configStructure s;
       fetchedConfigs := fetchedConfigs s;
       currentIPFSHashes := currentIPFSHashes s;
       loading := <[name := value]> (loading s);
       error := error s;
       activeTab := activeTab s |}
  | SetError value =>
    {| configStructure := configStructure s;
       fetchedConfigs := fetchedConfigs s;
       currentIPFSHashes := currentIPFSHashes s;
       loading := loading s;
       error := value;
       activeTab := activeTab s |}
  | SetCurrentIPFSHash name hash =>
    {| configStructure := configStructure s;
       fetchedConfigs := fetchedConfigs s;
       currentIPFSHashes := <[name := hash]> (currentIPFSHashes s);
       loading := loading s;
       error := error s;
       activeTab := activeTab s |}
  | SetFetchedConfig name data =>
    {| configStructure := configStructure s;
       fetchedConfigs := <[name := data]> (fetchedConfigs s);
       currentIPFSHashes := currentIPFSHashes s;
       loading := loading s;
       error := error s;
       activeTab := activeTab s |}
  | Import _ => s
  | ResolveFromPrivateKey _ _ => s
  | ResolveFromPublicKey _ _ => s
  | FetchFromIPNS _ _ => s
  end.

(** The state once the steps are applied in the order they were issued. *)
Definition settle (steps : list Step) (s : ManagerState) : ManagerState :=
  fold_left apply_step steps s.

(** The world of the page: the outside world and the steps so far. *)
Record Page (World : Type) : Type := {
  outside : World;
  issued : list Step
}.
Arguments outside {World} _.
Arguments issued {World} _.
Arguments Build_Page {World} _ _.

Section Fetch.
Context {World : Type} `{IpnsServices World}.

(** A state update is issued. *)
Definition set (step : Step) : M (Page World) unit :=
  fun st =>
    (Normal tt,
     {| world := {| outside := outside (world st);
                    issued := issued (world st) ++ [step] |};
        log := log st |}).

(** [await] of a call: the world answers and moves on, the call is noted,
    a rejection is thrown. *)
Definition await {A} (op : World -> (Thrown + A) * World)
    (step : Thrown + A -> Step) : M (Page World) A :=
  fun st =>
    let (answer, w') := op (outside (world st)) in
    let st' := {| world := {| outside := w';
                              issued := issued (world st) ++ [step answer] |};
                  log := log st |} in
    match answer with
    | inr a => (Normal a, st')
    | inl t => (Abrupt t, st')
    end.

(** [hash!], where the branch has found [hash] truthy. *)
Definition asserted (hash : option (list N)) : list N :=
  match hash with Some h => h | None => [] end.

(** [configStructure?.[environmentName]] of the render the handler was
    made in. *)
Definition environment_of (configStructure : option ConfigStructure)
    (environmentName : list N) : JsValue :=
  match configStructure with
  | Some config => ConfigManager.read_property environmentName config
  | None => JsUndefined
  end.

(** The [console] calls are left out: they change nothing the page
    reads. *)
Definition handleFetch (configStructure : option ConfigStructure)
    (environmentName ipnsKey : list N) : M (Page World) unit :=
  set (SetLoading environmentName true) ;;;
  set (SetError None) ;;;
  (* First, try to resolve IPNS to get current IPFS hash *)
  let environmentConfig := environment_of configStructure environmentName in
  try_catch
    (resolveResult <-
       (if ToBoolean (member (js "ipnsPrivateKey") environmentConfig)
        then
          await import_ipnsUpdater Import ;;;
          await (resolveIPNSFromPrivateKey
                   (member (js "ipnsPrivateKey") environmentConfig))
                (ResolveFromPrivateKey
                   (member (js "ipnsPrivateKey") environmentConfig))
        else
          await import_ipnsUpdater Import ;;;
          await (resolveIPNSFromPublicKey ipnsKey)
                (ResolveFromPublicKey ipnsKey)) ;;
     if resolve_success resolveResult
        && truthy_opt (resolve_ipfsHash resolveResult)
     then set (SetCurrentIPFSHash environmentName
                 (asserted (resolve_ipfsHash resolveResult)))
     else ret tt)
    (fun _ => ret tt) ;;;
  (* Then fetch the actual content *)
  result <- await (fetchFromIPNS ipnsKey) (FetchFromIPNS ipnsKey) ;;
  (if fetch_success result
   then
     match fetch_data result with
     | Some data =>
       (* result.data ?? {} is the data: the branch has found it truthy *)
       set (SetFetchedConfig environmentName data) ;;;
       (* Also store IPFS hash from gateway headers as fallback *)
       if truthy_opt (fetch_ipfsHash result)
          && negb (ToBoolean (member (js "ipnsPrivateKey")
                                (environment_of configStructure
                                                environmentName)))
       then set (SetCurrentIPFSHash environmentName
                   (asserted (fetch_ipfsHash result)))
       else ret tt
     | None =>
       set (SetError
              (Some (js "Failed to fetch " ++ environmentName ++ js ": "
                     ++ EnvironmentTab.template (fetch_error result))))
     end
   else
     set (SetError
            (Some (js "Failed to fetch " ++ environmentName ++ js ": "
                   ++ EnvironmentTab.template (fetch_error result))))) ;;;
  set (SetLoading environmentName false).

End Fetch.
End ConfigManagerPage.

(* ================================================================== *)
(** * Trimmed strings *)
(* ================================================================== *)

Module Trimmed.

(** No white space at the front. *)
Definition starts_clean (s : list N) : Prop :=
  match s with [] => True | c :: _ => is_white_space c = false end.

End Trimmed.

(* ================================================================== *)
(** * The runs of [handleFetch] *)
(* ================================================================== *)

Module PageRuns.
Import ConfigManagerPage.

(** A step that is a call, not a state update. *)
Definition is_call (step : Step) : bool :=
  match step with
  | Import _ => true
  | ResolveFromPrivateKey _ _ => true
  | ResolveFromPublicKey _ _ => true
  | FetchFromIPNS _ _ => true
  | _ => false
  end.

(** A step that leaves every environment but the named one: a call, the
    error, or an update under that name. *)
Definition scoped (environmentName : list N) (step : Step) : Prop :=
  match step with
  | SetLoading name _ => name = environmentName
  | SetCurrentIPFSHash name _ => name = environmentName
  | SetFetchedConfig name _ => name = environmentName
  | _ => True
  end.

Section Runs.
Context {World : Type} `{IpnsServices World}.

(** [configStructure?.[environmentName]?.ipnsPrivateKey]. *)
Definition privateKey (configStructure : option ConfigStructure)
    (environmentName : list N) : JsValue :=
  member (js "ipnsPrivateKey") (environment_of configStructure environmentName).

(** The resolver the private key selects, and the step of its call. *)
Definition resolver (configStructure : option ConfigStructure)
    (environmentName ipnsKey : list N)
    : World -> (Thrown + ResolveResult) * World :=
  if ToBoolean (privateKey configStructure environmentName)
  then resolveIPNSFromPrivateKey (privateKey configStructure environmentName)
  else resolveIPNSFromPublicKey ipnsKey.

Definition resolver_step (configStructure : option ConfigStructure)
    (environmentName ipnsKey : list N) : Thrown + ResolveResult -> Step :=
  if ToBoolean (privateKey configStructure environmentName)
  then ResolveFromPrivateKey (privateKey configStructure environmentName)
  else ResolveFromPublicKey ipnsKey.

(** The message of a fetch that did not give data. *)
Definition fetch_failure (environmentName : list N) (result : FetchResult)
    : list N :=
  js "Failed to fetch " ++ environmentName ++ js ": "
  ++ EnvironmentTab.template (fetch_error result).

(** The four ways the resolution can go, with its steps and the world it
    leaves. *)
Inductive resolve_run (configStructure : option ConfigStructure)
    (environmentName ipnsKey : list N) (w : World)
    : list Step -> World -> Prop :=
| import_rejected t w1 :
    import_ipnsUpdater w = (inl t, w1) ->
    resolve_run configStructure environmentName ipnsKey w
                [Import (inl t)] w1
| resolver_rejected w1 t w2 :
    import_ipnsUpdater w = (inr tt, w1) ->
    resolver configStructure environmentName ipnsKey w1 = (inl t, w2) ->
    resolve_run configStructure environmentName ipnsKey w
                [Import (inr tt);
                 resolver_step configStructure environmentName ipnsKey
                               (inl t)] w2
| resolver_unresolved w1 r w2 :
    import_ipnsUpdater w = (inr tt, w1) ->
    resolver configStructure environmentName ipnsKey w1 = (inr r, w2) ->
    resolve_success r && truthy_opt (resolve_ipfsHash r) = false ->
    resolve_run configStructure environmentName ipnsKey w
                [Import (inr tt);
                 resolver_step configStructure environmentName ipnsKey
                               (inr r)] w2
| resolver_resolved w1 r w2 hash :
    import_ipnsUpdater w = (inr tt, w1) ->
    resolver configStructure environmentName ipnsKey w1 = (inr r, w2) ->
    resolve_success r = true ->
    resolve_ipfsHash r = Some hash ->
    truthy hash = true ->
    resolve_run configStructure environmentName ipnsKey w
                [Import (inr tt);
                 resolver_step configStructure environmentName ipnsKey
                               (inr r);
                 SetCurrentIPFSHash environmentName hash] w2.

(** The four ways the fetch can go, with the completion of the handler. *)
Inductive fetch_run (configStructure : option ConfigStructure)
    (environmentName ipnsKey : list N) (w : World)
    : Completion unit -> list Step -> World -> Prop :=
| fetch_rejected t w1 :
    fetchFromIPNS ipnsKey w = (inl t, w1) ->
    fetch_run configStructure environmentName ipnsKey w
              (Abrupt t) [FetchFromIPNS ipnsKey (inl t)] w1
| fetch_failed r w1 :
    fetchFromIPNS ipnsKey w = (inr r, w1) ->
    fetch_success r = false \/ fetch_data r = None ->
    fetch_run configStructure environmentName ipnsKey w
              (Normal tt)
              [FetchFromIPNS ipnsKey (inr r);
               SetError (Some (fetch_failure environmentName r));
               SetLoading environmentName false] w1
| fetch_stored r w1 data :
    fetchFromIPNS ipnsKey w = (inr r, w1) ->
    fetch_success r = true ->
    fetch_data r = Some data ->
    truthy_opt (fetch_ipfsHash r)
    && negb (ToBoolean (privateKey configStructure environmentName)) = false ->
    fetch_run configStructure environmentName ipnsKey w
              (Normal tt)
              [FetchFromIPNS ipnsKey (inr r);
               SetFetchedConfig environmentName data;
               SetLoading environmentName false] w1
| fetch_stored_with_hash r w1 data hash :
    fetchFromIPNS ipnsKey w = (inr r, w1) ->
    fetch_success r = true ->
    fetch_data r = Some data ->
    fetch_ipfsHash r = Some hash ->
    truthy hash = true ->
    ToBoolean (privateKey configStructure environmentName) = false ->
    fetch_run configStructure environmentName ipnsKey w
              (Normal tt)
              [FetchFromIPNS ipnsKey (inr r);
               SetFetchedConfig environmentName data;
               SetCurrentIPFSHash environmentName hash;
               SetLoading environmentName false] w1.

End Runs.
End PageRuns.

(* ================================================================== *)
(** * Fixtures for the page and the editing side *)
(* ================================================================== *)

Module Fixture.

#[export] Instance type_errors : TypeErrors := {|
  NullToObjectMessage := js "Cannot convert undefined or null to object"
|}.

(** A store with the awkward snapshot under "production". *)
Definition awkward_store : gmap (list N) (list (list N * JsValue)) :=
  {[ js "production" := snapshot_props Scenario.awkward ]}.

(** A loaded configuration: [_env] first, then two environments, the
    first with a private key. *)
Definition loaded : ConfigManagerPage.ConfigStructure :=
  [(js "_env", JsObject [(js "pinataJWT", JsString (js "valid-token"))]);
   (js "production",
    JsObject [(js "ipnsKey", JsString (js "k51-name"));
              (js "ipnsPrivateKey", JsString (js "owner-key"))]);
   (js "staging", JsObject [(js "ipnsKey", JsString (js "k51-staging"))])].

(** The gateway is down: the resolvers answer, [fetchFromIPNS] rejects. *)
#[export] Instance gateway_down : IpnsServices nat := {|
  import_ipnsUpdater w := (inr tt, S w);
  resolveIPNSFromPrivateKey key w :=
    (inr {| resolve_success := true;
            resolve_ipfsHash := Some (js "bafy-resolved");
            resolve_error := None |}, S w);
  resolveIPNSFromPublicKey key w :=
    (inr {| resolve_success := false;
            resolve_ipfsHash := None;
            resolve_error := Some (js "no record") |}, S w);
  fetchFromIPNS key w := (inl (ErrorObject (js "Failed to fetch")), S w)
|}.

(** A text with values that are no strings:
    [{"name": "x", "tags": ["a", null], "nested": {}, "on": true}]. *)
Definition quoted (s : list N) : list N := [0x22] ++ s ++ [0x22].

Definition typed_text : list N :=
  [0x7B] ++ quoted (js "name") ++ js ": " ++ quoted (js "x") ++ js ", "
  ++ quoted (js "tags") ++ js ": [" ++ quoted (js "a") ++ js ", null], "
  ++ quoted (js "nested") ++ js ": {}, "
  ++ quoted (js "on") ++ js ": true}".

(** An array of two strings: [["a", "b"]]. *)
Definition array_text : list N :=
  js "[" ++ quoted (js "a") ++ js ", " ++ quoted (js "b") ++ js "]".

Definition page_start : State (ConfigManagerPage.Page nat) :=
  {| world := {| ConfigManagerPage.outside := 0%nat;
                 ConfigManagerPage.issued := [] |};
     log := [] |}.

End Fixture.

(* ================================================================== *)
(** * Properties *)
(* ================================================================== *)

(** String literals stay folded in the proofs below; a concrete
    evaluation goes through [vm_compute]. *)
#[global] Opaque js.

(** ** JSON strings *)

Module JsonFacts.
Import JSON.

(** ** Hexadecimal escapes *)

Lemma hex_value_digit (d : N) : d < 16 -> hex_value (hex_digit d) = Some d.
Proof.
  intros Hd. unfold hex_value, hex_digit.
  destruct (N.ltb_spec d 10).
  - replace ((0x30 <=? 0x30 + d) && (0x30 + d <=? 0x39)) with true
      by (symmetry; apply andb_true_intro; split; apply N.leb_le; lia).
    f_equal. lia.
  - replace ((0x30 <=? 0x61 + (d - 10)) && (0x61 + (d - 10) <=? 0x39))
      with false
      by (symmetry; apply andb_false_intro2; apply N.leb_gt; lia).
    replace ((0x61 <=? 0x61 + (d - 10)) && (0x61 + (d - 10) <=? 0x66))
      with true
      by (symmetry; apply andb_true_intro; split; apply N.leb_le; lia).
    f_equal. lia.
Qed.

Lemma hex_digits_value (c : N) :
  c < 65536 ->
  c / 4096 mod 16 * 4096 + c / 256 mod 16 * 256 + c / 16 mod 16 * 16
  + c mod 16 = c.
Proof.
  intros Hc.
  assert (E2 : c / 256 = c / 16 / 16)
    by (rewrite N.Div0.div_div; reflexivity).
  assert (E3 : c / 4096 = c / 16 / 16 / 16)
    by (rewrite !N.Div0.div_div; reflexivity).
  rewrite E2, E3.
  pose proof (N.div_mod c 16 ltac:(lia)).
  pose proof (N.div_mod (c / 16) 16 ltac:(lia)).
  pose proof (N.div_mod (c / 16 / 16) 16 ltac:(lia)).
  assert (c / 16 / 16 / 16 < 16).
  { repeat (apply N.Div0.div_lt_upper_bound). lia. }
  rewrite (N.mod_small (c / 16 / 16 / 16) 16) by lia.
  lia.
Qed.

Lemma parse_string_chars_u (h3 h2 h1 h0 : N) (rest : list N) :
  parse_string_chars (0x5C :: 0x75 :: h3 :: h2 :: h1 :: h0 :: rest)
  = match hex_value h3, hex_value h2, hex_value h1, hex_value h0 with
    | Some a, Some b, Some c, Some d =>
      cons_char (a * 4096 + b * 256 + c * 16 + d) (parse_string_chars rest)
    | _, _, _, _ => None
    end.
Proof. reflexivity. Qed.

Lemma parse_unicode_escape (c : N) (rest : list N) :
  c < 65536 ->
  parse_string_chars (UnicodeEscape c ++ rest)
  = cons_char c (parse_string_chars rest).
Proof.
  intros Hc. unfold UnicodeEscape.
  change (parse_string_chars
            (0x5C :: 0x75 :: hex_digit (c / 4096 mod 16)
               :: hex_digit (c / 256 mod 16) :: hex_digit (c / 16 mod 16)
               :: hex_digit (c mod 16) :: rest)
          = cons_char c (parse_string_chars rest)).
  rewrite parse_string_chars_u.
  rewrite !hex_value_digit by (apply N.mod_lt; lia).
  now rewrite hex_digits_value.
Qed.

(** A character that is copied as it is. *)
Lemma parse_string_chars_literal (c : N) (rest : list N) :
  c <> 0x22 -> c <> 0x5C -> 0x20 <= c ->
  parse_string_chars (c :: rest) = cons_char c (parse_string_chars rest).
Proof.
  intros Hq Hb Hc. simpl.
  destruct (N.eqb_spec c 0x22); [contradiction |].
  destruct (N.eqb_spec c 0x5C); [contradiction |].
  destruct (N.ltb_spec c 0x20); [lia | reflexivity].
Qed.

Lemma short_escape_none (c : N) :
  short_escape c = None -> c <> 0x22 /\ c <> 0x5C.
Proof.
  unfold short_escape.
  repeat match goal with
         | |- context [?a =? ?b] => destruct (N.eqb_spec a b); try discriminate
         end.
  now split.
Qed.

Lemma parse_short_escape (c e : N) (rest : list N) :
  short_escape c = Some e ->
  parse_string_chars (0x5C :: e :: rest)
  = cons_char c (parse_string_chars rest).
Proof.
  unfold short_escape.
  repeat match goal with
         | |- context [?a =? ?b] => destruct (N.eqb_spec a b); subst
         end; intros [= <-]; reflexivity.
Qed.

(** The round trip of a string: the parser reads back what
    QuoteJSONString wrote, up to the closing quote. *)
Lemma parse_quote_code_points (s rest : list N) :
  parse_string_chars (quote_code_points s ++ 0x22 :: rest) = Some (s, rest).
Proof.
  remember (length s) as n eqn:Hn.
  revert s Hn. induction n as [n IH] using lt_wf_ind. intros s Hn.
  destruct s as [| c s']; [reflexivity |].
  assert (IH1 : parse_string_chars (quote_code_points s' ++ 0x22 :: rest)
                = Some (s', rest)).
  { apply (IH (length s')); [subst n; simpl; lia | reflexivity]. }
  assert (Hescape : c < 65536 ->
            parse_string_chars
              ((UnicodeEscape c ++ quote_code_points s') ++ 0x22 :: rest)
            = Some (c :: s', rest)).
  { intros Hc. rewrite <- app_assoc, parse_unicode_escape by exact Hc.
    now rewrite IH1. }
  cbn [quote_code_points].
  destruct (short_escape c) as [e |] eqn:Hshort.
  - cbn [app]. rewrite (parse_short_escape c e) by exact Hshort.
    now rewrite IH1.
  - apply short_escape_none in Hshort as [Hq Hb].
    destruct (N.ltb_spec c 0x20) as [Hlow | Hlow]; [apply Hescape; lia |].
    unfold is_leading_surrogate, is_trailing_surrogate.
    destruct (N.leb_spec 0xD800 c) as [Hl1 | Hl1];
      destruct (N.leb_spec c 0xDBFF) as [Hl2 | Hl2]; cbn [andb].
    + destruct s' as [| d s''].
      * rewrite app_nil_r in Hescape. apply Hescape. lia.
      * destruct (N.leb_spec 0xDC00 d) as [Hd1 | Hd1];
          destruct (N.leb_spec d 0xDFFF) as [Hd2 | Hd2]; cbn [andb];
          try (apply Hescape; lia).
        cbn [app].
        rewrite parse_string_chars_literal by lia.
        rewrite parse_string_chars_literal by lia.
        rewrite (IH (length s'')); [reflexivity | subst n; simpl; lia
                                   | reflexivity].
    + destruct (N.leb_spec 0xDC00 c) as [Ht1 | Ht1];
        destruct (N.leb_spec c 0xDFFF) as [Ht2 | Ht2]; cbn [andb];
        try (apply Hescape; lia);
        cbn [app]; rewrite parse_string_chars_literal by lia;
        now rewrite IH1.
    + destruct (N.leb_spec 0xDC00 c) as [Ht1 | Ht1]; [lia |]. cbn [andb app].
      rewrite parse_string_chars_literal by lia. now rewrite IH1.
    + lia.
Qed.

End JsonFacts.

(** ** The parser and its fuel *)

Module ParserFacts.
Import JSON Codec.

Lemma skip_ws_length (inp : list N) :
  (length (skip_ws inp) <= length inp)%nat.
Proof.
  induction inp as [| c inp IH]; simpl; [lia |].
  destruct (is_json_ws c); simpl; lia.
Qed.

Lemma skip_ws_cons (inp : list N) c r :
  skip_ws inp = c :: r -> (length r < length inp)%nat.
Proof.
  intros Heq. pose proof (skip_ws_length inp) as Hle.
  rewrite Heq in Hle. simpl in Hle. lia.
Qed.

Lemma cons_char_length c r s rest (inp : list N) :
  cons_char c r = Some (s, rest) ->
  (forall s' rest', r = Some (s', rest') -> (length rest' < length inp)%nat) ->
  (length rest < length inp)%nat.
Proof.
  destruct r as [[s' rest'] |]; simpl; [| discriminate].
  intros [= <- <-] Hr. now apply (Hr s').
Qed.

Lemma parse_string_chars_length (inp : list N) s rest :
  parse_string_chars inp = Some (s, rest) -> (length rest < length inp)%nat.
Proof.
  remember (length inp) as n eqn:Hn. revert inp s rest Hn.
  induction n as [n IH] using lt_wf_ind. intros inp s rest Hn.
  destruct inp as [| c r]; [discriminate |]. simpl in Hn.
  assert (Hrec : forall inp' s' rest',
             (length inp' < n)%nat ->
             parse_string_chars inp' = Some (s', rest') ->
             (length rest' < n)%nat).
  { intros inp' s' rest' Hlt Hp.
    specialize (IH (length inp') Hlt inp' s' rest' eq_refl Hp). lia. }
  cbn [parse_string_chars].
  destruct (c =? 0x22).
  { intros [= <- <-]. simpl. lia. }
  destruct (c =? 0x5C).
  - destruct r as [| e r1]; [discriminate |].
    destruct (e =? 0x75).
    + destruct r1 as [| h3 [| h2 [| h1 [| h0 r2]]]]; try discriminate.
      destruct (hex_value h3), (hex_value h2), (hex_value h1), (hex_value h0);
        try discriminate.
      intros Hc. apply cons_char_length with (inp := c :: e :: h3 :: h2 :: h1 :: h0 :: r2) in Hc;
        [subst n; exact Hc |].
      intros s' rest' Hp. apply Hrec in Hp; simpl in *; lia.
    + destruct (unescape e); [| discriminate].
      intros Hc. apply cons_char_length with (inp := c :: e :: r1) in Hc;
        [subst n; exact Hc |].
      intros s' rest' Hp. apply Hrec in Hp; simpl in *; lia.
  - destruct (c <? 0x20); [discriminate |].
    intros Hc. apply cons_char_length with (inp := c :: r) in Hc;
      [subst n; exact Hc |].
    intros s' rest' Hp. apply Hrec in Hp; simpl in *; lia.
Qed.

Lemma span_digits_length (inp : list N) ds r :
  span_digits inp = (ds, r) -> (length r <= length inp)%nat.
Proof.
  revert ds r. induction inp as [| c inp IH]; simpl; intros ds r.
  - intros [= <- <-]. simpl. lia.
  - destruct (JsObject.is_digit c).
    + destruct (span_digits inp) as [ds' r'] eqn:Hspan.
      intros [= <- <-]. specialize (IH ds' r' eq_refl). lia.
    + intros [= <- <-]. simpl. lia.
Qed.

Lemma digits_after_length lead (inp : list N) l r :
  digits_after lead inp = Some (l, r) -> (length r <= length inp)%nat.
Proof.
  unfold digits_after.
  destruct (span_digits inp) as [ds r'] eqn:Hspan.
  apply span_digits_length in Hspan.
  destruct ds; [discriminate |]. now intros [= <- <-].
Qed.

Lemma scan_number_length (inp : list N) lexeme rest :
  scan_number inp = Some (lexeme, rest) -> (length rest < length inp)%nat.
Proof.
  unfold scan_number.
  set (signed := match inp with
                 | c :: r => if c =? 0x2D then ([c], r) else ([], inp)
                 | [] => ([], inp)
                 end).
  assert (Hsigned : (length (snd signed) <= length inp)%nat).
  { unfold signed. destruct inp as [| c r]; simpl; [lia |].
    destruct (c =? 0x2D); simpl; lia. }
  destruct signed as [sign r0]. simpl in Hsigned.
  destruct r0 as [| c r1]; [discriminate |]. simpl in Hsigned.
  set (int_part := if c =? 0x30 then Some ([c], r1)
                   else if JsObject.is_digit c
                        then let (ds, r2) := span_digits r1 in Some (c :: ds, r2)
                        else None).
  assert (Hint : forall ip r2, int_part = Some (ip, r2) ->
                               (length r2 <= length r1)%nat).
  { intros ip r2. unfold int_part.
    destruct (c =? 0x30); [now intros [= <- <-] |].
    destruct (JsObject.is_digit c); [| discriminate].
    destruct (span_digits r1) as [ds r2'] eqn:Hspan.
    apply span_digits_length in Hspan. now intros [= <- <-]. }
  destruct int_part as [[ip r2] |]; [| discriminate].
  specialize (Hint ip r2 eq_refl).
  set (frac := match r2 with
               | d :: r3 => if d =? 0x2E then digits_after [d] r3
                            else Some ([], r2)
               | [] => Some ([], r2)
               end).
  assert (Hfrac : forall fp r4, frac = Some (fp, r4) ->
                                (length r4 <= length r2)%nat).
  { intros fp r4. unfold frac. destruct r2 as [| d r3];
      [now intros [= <- <-] |].
    destruct (d =? 0x2E); [| now intros [= <- <-]].
    intros Hd. apply digits_after_length in Hd. simpl. lia. }
  destruct frac as [[fp r4] |]; [| discriminate].
  specialize (Hfrac fp r4 eq_refl).
  set (exp := match r4 with
              | e :: r5 =>
                if (e =? 0x65) || (e =? 0x45) then
                  match r5 with
                  | sg :: r6 =>
                    if (sg =? 0x2B) || (sg =? 0x2D)
                    then digits_after [e; sg] r6
                    else digits_after [e] r5
                  | [] => None
                  end
                else Some ([], r4)
              | [] => Some ([], r4)
              end).
  assert (Hexp : forall ep r7, exp = Some (ep, r7) ->
                               (length r7 <= length r4)%nat).
  { intros ep r7. unfold exp. destruct r4 as [| e r5];
      [now intros [= <- <-] |].
    destruct ((e =? 0x65) || (e =? 0x45)); [| now intros [= <- <-]].
    destruct r5 as [| sg r6]; [discriminate |].
    destruct ((sg =? 0x2B) || (sg =? 0x2D)); intros Hd;
      apply digits_after_length in Hd; simpl in *; lia. }
  destruct exp as [[ep r7] |]; [| discriminate].
  specialize (Hexp ep r7 eq_refl).
  intros [= <- <-]. lia.
Qed.

Lemma strip_prefix_length (prefix inp rest : list N) :
  strip_prefix prefix inp = Some rest ->
  (length rest + length prefix = length inp)%nat.
Proof.
  revert inp. induction prefix as [| p prefix IH]; intros inp; simpl.
  - intros [= <-]. lia.
  - destruct inp as [| c inp]; [discriminate |].
    destruct (p =? c); [| discriminate].
    intros Hs. apply IH in Hs. simpl. lia.
Qed.

Section Parser.
Context `{Engine}.

Lemma parse_value_eq fuel inp :
  parse_value (S fuel) inp
  = match skip_ws inp with
    | [] => SyntaxError
    | c :: r =>
      if c =? 0x7B then
        match skip_ws r with
        | c' :: r' =>
          if c' =? 0x7D then Parsed (JsObject []) r'
          else parse_members fuel r []
        | [] => SyntaxError
        end
      else if c =? 0x5B then
        match skip_ws r with
        | c' :: r' =>
          if c' =? 0x5D then Parsed (JsArray []) r'
          else parse_elements fuel r []
        | [] => SyntaxError
        end
      else if c =? 0x22 then
        match parse_string_chars r with
        | Some (s, r') => Parsed (JsString s) r'
        | None => SyntaxError
        end
      else parse_scalar (c :: r)
    end.
Proof. reflexivity. Qed.

Lemma parse_members_eq fuel inp acc :
  parse_members (S fuel) inp acc
  = match skip_ws inp with
    | q :: r =>
      if q =? 0x22 then
        match parse_string_chars r with
        | Some (k, r1) =>
          match skip_ws r1 with
          | colon :: r2 =>
            if colon =? 0x3A then
              match parse_value fuel r2 with
              | Parsed v r3 =>
                let acc' := JsObject.define k v acc in
                match skip_ws r3 with
                | c :: r4 =>
                  if c =? 0x2C then parse_members fuel r4 acc'
                  else if c =? 0x7D then Parsed (JsObject acc') r4
                  else SyntaxError
                | [] => SyntaxError
                end
              | SyntaxError => SyntaxError
              | OutOfFuel => OutOfFuel
              end
            else SyntaxError
          | [] => SyntaxError
          end
        | None => SyntaxError
        end
      else SyntaxError
    | [] => SyntaxError
    end.
Proof. reflexivity. Qed.

Lemma parse_elements_eq fuel inp acc :
  parse_elements (S fuel) inp acc
  = match parse_value fuel inp with
    | Parsed v r1 =>
      match skip_ws r1 with
      | c :: r2 =>
        if c =? 0x2C then parse_elements fuel r2 (acc ++ [v])
        else if c =? 0x5D then Parsed (JsArray (acc ++ [v])) r2
        else SyntaxError
      | [] => SyntaxError
      end
    | SyntaxError => SyntaxError
    | OutOfFuel => OutOfFuel
    end.
Proof. reflexivity. Qed.

Lemma parse_scalar_consumes (inp : list N) : consumes inp (parse_scalar inp).
Proof.
  unfold parse_scalar.
  assert (Htrue : length (js "true") = 4%nat) by (vm_compute; reflexivity).
  assert (Hfalse : length (js "false") = 5%nat) by (vm_compute; reflexivity).
  assert (Hnull : length (js "null") = 4%nat) by (vm_compute; reflexivity).
  destruct (strip_prefix (js "true") inp) as [r |] eqn:H1.
  { apply strip_prefix_length in H1. simpl. lia. }
  destruct (strip_prefix (js "false") inp) as [r |] eqn:H2.
  { apply strip_prefix_length in H2. simpl. lia. }
  destruct (strip_prefix (js "null") inp) as [r |] eqn:H3.
  { apply strip_prefix_length in H3. simpl. lia. }
  destruct (scan_number inp) as [[lexeme r] |] eqn:H4; [| exact I].
  apply scan_number_length in H4. exact H4.
Qed.

(** With twice the length of the input and a little more, the parser
    never runs out of fuel, and whatever it parses it takes from the
    input. *)
Lemma parse_fuel_enough (fuel : nat) :
  (forall inp, (2 * length inp + 1 <= fuel)%nat ->
               consumes inp (parse_value fuel inp))
  /\ (forall inp acc, (2 * length inp + 2 <= fuel)%nat ->
                      consumes inp (parse_members fuel inp acc))
  /\ (forall inp acc, (2 * length inp + 2 <= fuel)%nat ->
                      consumes inp (parse_elements fuel inp acc)).
Proof.
  induction fuel as [| fuel (IHv & IHm & IHe)].
  { repeat split; intros; lia. }
  split; [| split].
  - intros inp Hfuel. rewrite parse_value_eq.
    destruct (skip_ws inp) as [| c r] eqn:Hskip; [exact I |].
    pose proof (skip_ws_cons _ _ _ Hskip) as Hr.
    pose proof (skip_ws_length inp) as Hle. rewrite Hskip in Hle.
    simpl in Hle.
    destruct (c =? 0x7B).
    { destruct (skip_ws r) as [| c' r'] eqn:Hskip'; [exact I |].
      pose proof (skip_ws_cons _ _ _ Hskip') as Hr'.
      destruct (c' =? 0x7D); [simpl; lia |].
      specialize (IHm r [] ltac:(lia)).
      destruct (parse_members fuel r []); simpl in *; auto; lia. }
    destruct (c =? 0x5B).
    { destruct (skip_ws r) as [| c' r'] eqn:Hskip'; [exact I |].
      pose proof (skip_ws_cons _ _ _ Hskip') as Hr'.
      destruct (c' =? 0x5D); [simpl; lia |].
      specialize (IHe r [] ltac:(lia)).
      destruct (parse_elements fuel r []); simpl in *; auto; lia. }
    destruct (c =? 0x22).
    { destruct (parse_string_chars r) as [[s r'] |] eqn:Hs; [| exact I].
      apply parse_string_chars_length in Hs. simpl. lia. }
    pose proof (parse_scalar_consumes (c :: r)) as Hsc.
    destruct (parse_scalar (c :: r)); simpl in *; auto; lia.
  - intros inp acc Hfuel. rewrite parse_members_eq.
    destruct (skip_ws inp) as [| q r] eqn:Hskip; [exact I |].
    pose proof (skip_ws_cons _ _ _ Hskip) as Hr.
    destruct (q =? 0x22); [| exact I].
    destruct (parse_string_chars r) as [[k r1] |] eqn:Hk; [| exact I].
    apply parse_string_chars_length in Hk.
    destruct (skip_ws r1) as [| colon r2] eqn:Hskip1; [exact I |].
    pose proof (skip_ws_cons _ _ _ Hskip1) as Hr2.
    destruct (colon =? 0x3A); [| exact I].
    specialize (IHv r2 ltac:(lia)).
    destruct (parse_value fuel r2) as [v r3 | |]; simpl in IHv;
      [| exact I | contradiction].
    cbv zeta.
    destruct (skip_ws r3) as [| c r4] eqn:Hskip3; [exact I |].
    pose proof (skip_ws_cons _ _ _ Hskip3) as Hr4.
    destruct (c =? 0x2C).
    { specialize (IHm r4 (JsObject.define k v acc) ltac:(lia)).
      destruct (parse_members fuel r4 _); simpl in *; auto; lia. }
    destruct (c =? 0x7D); [simpl; lia | exact I].
  - intros inp acc Hfuel. rewrite parse_elements_eq.
    specialize (IHv inp ltac:(lia)).
    destruct (parse_value fuel inp) as [v r1 | |]; simpl in IHv;
      [| exact I | contradiction].
    destruct (skip_ws r1) as [| c r2] eqn:Hskip1; [exact I |].
    pose proof (skip_ws_cons _ _ _ Hskip1) as Hr2.
    destruct (c =? 0x2C).
    { specialize (IHe r2 (acc ++ [v]) ltac:(lia)).
      destruct (parse_elements fuel r2 _); simpl in *; auto; lia. }
    destruct (c =? 0x5D); [simpl; lia | exact I].
Qed.

(** [JSON.parse] answers [None] for a syntax error alone: its fuel is
    never used up. *)
Lemma parse_never_out_of_fuel (text : list N) :
  parse_value (S (S (2 * length text))) text <> OutOfFuel.
Proof.
  destruct (parse_fuel_enough (S (S (2 * length text)))) as (Hv & _).
  specialize (Hv text ltac:(lia)). intros Heq. now rewrite Heq in Hv.
Qed.

End Parser.
End ParserFacts.

(** ** Ordinary objects *)

Module JsObjectFacts.
Import JsObject.

Section Props.
Context {A : Type}.
Implicit Types (o acc : list (list N * A)) (k : list N) (v : A).

Lemma key_eqb_eq k k' : key_eqb k k' = true <-> k = k'.
Proof. unfold key_eqb. apply bool_decide_eq_true. Qed.

Lemma key_eqb_refl k : key_eqb k k = true.
Proof. now apply key_eqb_eq. Qed.

Lemma key_before_neq k k' : key_before k k' = true -> k <> k'.
Proof.
  unfold key_before. intros Hbefore <-.
  destruct (array_index k) as [i |].
  - apply N.ltb_lt in Hbefore. lia.
  - now rewrite key_eqb_refl in Hbefore.
Qed.

(** A key that comes after every key of the object is not one of them. *)
Lemma get_before_none k acc :
  Forall (fun a => key_before a k = true) (keys acc) -> get k acc = None.
Proof.
  induction acc as [| [k' v'] acc IH]; simpl; [reflexivity |].
  intros Hall. inversion Hall as [| ? ? Hhead Htail]; subst.
  destruct (key_eqb k k') eqn:Heq.
  - apply key_eqb_eq in Heq. apply key_before_neq in Hhead. congruence.
  - now apply IH.
Qed.

Lemma insert_index_last i k v acc :
  array_index k = Some i ->
  Forall (fun a => key_before a k = true) (keys acc) ->
  insert_index i k v acc = acc ++ [(k, v)].
Proof.
  intros Hk. induction acc as [| [k' v'] acc IH]; simpl; [reflexivity |].
  intros Hall. inversion Hall as [| ? ? Hhead Htail]; subst.
  unfold key_before in Hhead. rewrite Hk in Hhead.
  destruct (array_index k') as [j |]; [| discriminate].
  apply N.ltb_lt in Hhead.
  destruct (N.ltb_spec i j); [lia |]. now rewrite IH.
Qed.

(** Defining a key that comes after all the others appends it. *)
Lemma define_last k v acc :
  Forall (fun a => key_before a k = true) (keys acc) ->
  define k v acc = acc ++ [(k, v)].
Proof.
  intros Hall. unfold define, has. rewrite (get_before_none k acc Hall).
  destruct (array_index k) as [i |] eqn:Hk; [| reflexivity].
  now apply insert_index_last.
Qed.

Lemma ordered_keys_snoc ks k :
  ordered_keys (ks ++ [k]) = true <->
  ordered_keys ks = true /\ Forall (fun a => key_before a k = true) ks.
Proof.
  induction ks as [| a ks IH]; simpl.
  - split; [now split | reflexivity].
  - rewrite !andb_true_iff, forallb_app, andb_true_iff, IH. simpl.
    rewrite andb_true_r. split.
    + intros [[Ha Hk] [Hks Hall]]. repeat split; auto.
    + intros [[Ha Hks] Hall]. inversion Hall; subst. repeat split; auto.
Qed.

Lemma ordered_keys_app_l ks ks' :
  ordered_keys (ks ++ ks') = true -> ordered_keys ks = true.
Proof.
  induction ks as [| a ks IH]; simpl; [reflexivity |].
  rewrite !andb_true_iff, forallb_app, andb_true_iff.
  intros [[Ha _] Hks]. auto.
Qed.

(** Building an ordinary object property by property, in its own order,
    gives the object back. *)
Lemma fold_define_ordinary o acc :
  ordinary (acc ++ o) ->
  fold_left (fun acc' kv => define (fst kv) (snd kv) acc') o acc = acc ++ o.
Proof.
  unfold ordinary, keys. revert acc.
  induction o as [| [k v] o IH]; intros acc Hord; simpl.
  - now rewrite app_nil_r.
  - replace (acc ++ (k, v) :: o) with ((acc ++ [(k, v)]) ++ o) in *
      by now rewrite <- app_assoc.
    rewrite define_last; [now apply IH |].
    rewrite map_app in Hord. apply ordered_keys_app_l in Hord.
    rewrite map_app in Hord. simpl in Hord.
    now apply ordered_keys_snoc in Hord as [_ Hall].
Qed.

End Props.
End JsObjectFacts.

Module IndexFacts.
Import JsObject.

(** ** Array indices are canonical: one key per index *)

Lemma is_digit_bounds c : is_digit c = true -> 0x30 <= c <= 0x39.
Proof.
  unfold is_digit. rewrite andb_true_iff, !N.leb_le. tauto.
Qed.

Lemma digits_value_digits acc s v :
  digits_value acc s = Some v -> all_digits s.
Proof.
  unfold all_digits. revert acc.
  induction s as [| c s IH]; intros acc; simpl; [reflexivity |].
  destruct (is_digit c); [| discriminate]. intros Hv. simpl. eauto.
Qed.

(** The value of a digit string is below the power of ten of its length,
    and an accumulator shifts by that power. *)
Lemma digits_value_acc s :
  all_digits s ->
  exists v, v < 10 ^ N.of_nat (length s)
            /\ forall acc,
                 digits_value acc s
                 = Some (acc * 10 ^ N.of_nat (length s) + v).
Proof.
  unfold all_digits. induction s as [| c s IH]; simpl.
  - intros _. exists 0. split; [reflexivity |].
    intros acc. f_equal. change (10 ^ N.of_nat 0) with 1. lia.
  - rewrite andb_true_iff. intros [Hc Hs].
    destruct (IH Hs) as (v & Hv & Hacc).
    pose proof (is_digit_bounds c Hc) as Hb.
    assert (Hpow : 10 ^ N.of_nat (S (length s))
                   = 10 * 10 ^ N.of_nat (length s)).
    { rewrite Nat2N.inj_succ, N.pow_succ_r'. reflexivity. }
    exists ((c - 0x30) * 10 ^ N.of_nat (length s) + v). split.
    + rewrite Hpow. nia.
    + intros acc. rewrite Hc, Hacc, Hpow. f_equal. nia.
Qed.

(** Digit strings of one length with one value are one string. *)
Lemma digits_value_inj s t v :
  length s = length t ->
  digits_value 0 s = Some v -> digits_value 0 t = Some v -> s = t.
Proof.
  revert t v. induction s as [| c s IH]; intros [| d t] v Hlen;
    try discriminate Hlen; [reflexivity |].
  injection Hlen as Hlen. simpl.
  destruct (is_digit c) eqn:Hc; [| discriminate].
  destruct (is_digit d) eqn:Hd; [| discriminate].
  intros Hs Ht.
  pose proof (digits_value_digits _ _ _ Hs) as Hds.
  pose proof (digits_value_digits _ _ _ Ht) as Hdt.
  destruct (digits_value_acc s Hds) as (vs & Hvs & Hsacc).
  destruct (digits_value_acc t Hdt) as (vt & Hvt & Htacc).
  rewrite Hsacc in Hs. rewrite Htacc in Ht. rewrite <- Hlen in *.
  injection Hs as Hs. injection Ht as Ht.
  apply is_digit_bounds in Hc, Hd.
  set (P := 10 ^ N.of_nat (length s)) in *.
  assert (Hcd : c = d) by nia.
  subst d. f_equal.
  apply (IH t vs Hlen).
  - rewrite (Hsacc 0). f_equal; lia.
  - rewrite (Htacc 0). f_equal; nia.
Qed.

(** A digit string that starts with a non-zero digit is at least the
    power of ten below its length. *)
Lemma digits_value_lower c s v :
  c <> 0x30 ->
  digits_value 0 (c :: s) = Some v ->
  10 ^ N.of_nat (length s) <= v < 10 ^ N.of_nat (S (length s)).
Proof.
  intros Hc Hv.
  pose proof (digits_value_digits _ _ _ Hv) as Hd.
  destruct (digits_value_acc (c :: s) Hd) as (v' & Hv' & Hacc).
  rewrite (Hacc 0) in Hv. injection Hv as <-.
  split; [| simpl in Hv'; lia].
  unfold all_digits in Hd. simpl in Hd. apply andb_true_iff in Hd as [Hdc Hds].
  destruct (digits_value_acc s Hds) as (vs & Hvs & Hsacc).
  specialize (Hacc 0). simpl in Hacc. rewrite Hdc, Hsacc in Hacc.
  injection Hacc as Hacc. apply is_digit_bounds in Hdc.
  set (P := 10 ^ N.of_nat (length s)) in *. nia.
Qed.

Lemma pow10_mono (a b : nat) :
  (a < b)%nat -> 10 ^ N.of_nat (S a) <= 10 ^ N.of_nat b.
Proof. intros Hab. apply N.pow_le_mono_r; lia. Qed.

(** One index, one key. *)
Lemma array_index_inj k k' i :
  array_index k = Some i -> array_index k' = Some i -> k = k'.
Proof.
  assert (Hzero : forall s n, array_index s = Some n ->
                              (s = [0x30] /\ n = 0)
                              \/ (exists c r, s = c :: r /\ c <> 0x30
                                              /\ digits_value 0 s = Some n)).
  { intros s n. unfold array_index. destruct s as [| c r]; [discriminate |].
    destruct (N.eqb_spec c 0x30) as [-> | Hne].
    - destruct r; [| discriminate]. intros [= <-]. now left.
    - destruct (digits_value 0 (c :: r)) as [m |] eqn:Hm; [| discriminate].
      destruct (m <? 4294967295); [| discriminate].
      intros [= <-]. right. now exists c, r. }
  intros Hk Hk'.
  destruct (Hzero k i Hk) as [[-> ->] | (c & r & -> & Hc & Hv)];
    destruct (Hzero k' _ Hk') as [[-> Hi] | (c' & r' & -> & Hc' & Hv')].
  - reflexivity.
  - pose proof (digits_value_lower c' r' 0 Hc' Hv') as [Hlow _].
    pose proof (N.pow_nonzero 10 (N.of_nat (length r'))). lia.
  - subst i. pose proof (digits_value_lower c r 0 Hc Hv) as [Hlow _].
    pose proof (N.pow_nonzero 10 (N.of_nat (length r))). lia.
  - pose proof (digits_value_lower c r i Hc Hv) as [Hl Hu].
    pose proof (digits_value_lower c' r' i Hc' Hv') as [Hl' Hu'].
    assert (Hlen : length r = length r').
    { destruct (Nat.lt_trichotomy (length r) (length r')) as [Hlt | [? | Hlt]];
        [| assumption |]; apply pow10_mono in Hlt; lia. }
    apply (digits_value_inj _ _ i); [simpl; lia | assumption ..].
Qed.

End IndexFacts.

(** ** What the edits keep *)

Module InvariantFacts.
Import JsObject JsObjectFacts IndexFacts.

Section Props.
Context {A : Type}.
Implicit Types (o : list (list N * A)) (k : list N) (v : A).

Lemma get_none_not_in k o : get k o = None <-> ~ In k (keys o).
Proof.
  induction o as [| [k' v'] o IH]; simpl; [tauto |].
  destruct (key_eqb k k') eqn:Heq.
  - apply key_eqb_eq in Heq. subst. split; [discriminate |].
    intros Hn. exfalso. apply Hn. now left.
  - assert (k <> k') by (intros ->; now rewrite key_eqb_refl in Heq).
    rewrite IH. split; [intros Hn [? | ?]; [congruence | tauto] | tauto].
Qed.

Lemma keys_replace k v o : keys (replace k v o) = keys o.
Proof.
  induction o as [| [k' v'] o IH]; simpl; [reflexivity |].
  destruct (key_eqb k k'); simpl; [reflexivity | now rewrite IH].
Qed.

Lemma keys_insert_index i k v o a :
  In a (keys (insert_index i k v o)) -> a = k \/ In a (keys o).
Proof.
  induction o as [| [k' v'] o IH]; simpl; [intros [<- | []]; now left |].
  destruct (array_index k') as [j |]; [destruct (i <? j) |]; simpl;
    intuition (subst; auto).
Qed.

Lemma keys_delete k o a : In a (keys (delete k o)) -> In a (keys o).
Proof.
  induction o as [| [k' v'] o IH]; simpl; [tauto |].
  destruct (key_eqb k k'); simpl; intuition auto.
Qed.

(** An index key comes before whatever comes after a later key. *)
Lemma key_before_index_trans k k' a i j :
  array_index k = Some i -> array_index k' = Some j -> i < j ->
  key_before k' a = true -> key_before k a = true.
Proof.
  unfold key_before. intros -> -> Hij.
  destruct (array_index a) as [l |]; [| reflexivity].
  rewrite !N.ltb_lt. lia.
Qed.

(** After a string key only string keys come, and an index key comes
    before them all. *)
Lemma key_before_string_after k k' a i :
  array_index k = Some i -> array_index k' = None ->
  key_before k' a = true -> key_before k a = true.
Proof.
  unfold key_before. intros -> ->.
  destruct (array_index a); [discriminate | reflexivity].
Qed.

Lemma ordered_keys_cons k ks :
  ordered_keys (k :: ks) = true <->
  (forall a, In a ks -> key_before k a = true) /\ ordered_keys ks = true.
Proof.
  cbn [ordered_keys]. now rewrite andb_true_iff, forallb_forall.
Qed.

Lemma insert_index_ordered i k v o :
  array_index k = Some i -> ~ In k (keys o) ->
  ordered_keys (keys o) = true ->
  ordered_keys (keys (insert_index i k v o)) = true.
Proof.
  intros Hk. induction o as [| [k' v'] o IH]; [reflexivity |].
  change (keys ((k', v') :: o)) with (k' :: keys o).
  intros Hnew [Hhead Htail]%ordered_keys_cons.
  cbn [insert_index].
  destruct (array_index k') as [j |] eqn:Hk'.
  - destruct (N.ltb_spec i j) as [Hij | Hij].
    + change (keys ((k, v) :: (k', v') :: o)) with (k :: k' :: keys o).
      apply ordered_keys_cons. split.
      * intros a [<- | Ha].
        -- unfold key_before. rewrite Hk, Hk'. now apply N.ltb_lt.
        -- apply (key_before_index_trans k k' a i j); auto.
      * now apply ordered_keys_cons.
    + change (keys ((k', v') :: insert_index i k v o))
        with (k' :: keys (insert_index i k v o)).
      apply ordered_keys_cons. split.
      * intros a Ha. apply keys_insert_index in Ha as [-> | Ha]; [| auto].
        unfold key_before. rewrite Hk, Hk'. apply N.ltb_lt.
        assert (i <> j); [| lia].
        intros ->. apply Hnew. left. now apply (array_index_inj k' k j).
      * apply IH; [| exact Htail]. intros Hin. apply Hnew. now right.
  - change (keys ((k, v) :: (k', v') :: o)) with (k :: k' :: keys o).
    apply ordered_keys_cons. split.
    + intros a [<- | Ha].
      * unfold key_before. now rewrite Hk, Hk'.
      * apply (key_before_string_after k k' a i); auto.
    + now apply ordered_keys_cons.
Qed.

(** CreateDataProperty keeps an ordinary object ordinary. *)
Lemma define_ordinary k v o : ordinary o -> ordinary (define k v o).
Proof.
  unfold ordinary, define, has. intros Hord.
  destruct (get k o) as [old |] eqn:Hget.
  - now rewrite keys_replace.
  - apply get_none_not_in in Hget.
    destruct (array_index k) as [i |] eqn:Hk.
    + now apply insert_index_ordered.
    + unfold keys. rewrite map_app. apply ordered_keys_snoc.
      split; [exact Hord |]. apply List.Forall_forall. intros a Ha.
      cbn [fst]. unfold key_before. rewrite Hk.
      destruct (array_index a); [reflexivity |].
      destruct (key_eqb a k) eqn:Heq; [| reflexivity].
      apply key_eqb_eq in Heq. subst. contradiction.
Qed.

(** [delete] keeps an ordinary object ordinary. *)
Lemma delete_ordinary k o : ordinary o -> ordinary (delete k o).
Proof.
  unfold ordinary. induction o as [| [k' v'] o IH]; [reflexivity |].
  change (keys ((k', v') :: o)) with (k' :: keys o).
  intros [Hhead Htail]%ordered_keys_cons. cbn [delete].
  destruct (key_eqb k k'); [exact Htail |].
  change (keys ((k', v') :: delete k o)) with (k' :: keys (delete k o)).
  apply ordered_keys_cons. split; [| now apply IH].
  intros a Ha. apply Hhead. now apply keys_delete in Ha.
Qed.

End Props.

(** X21: every edit handler keeps every stored configuration an ordinary
    object: no key twice, array indices first and ascending. *)
Lemma handlers_keep_ordinary
    (environmentName key value newKey : list N)
    (prev : gmap (list N) (list (list N * JsValue))) :
  map_Forall (fun _ config => ordinary config) prev ->
  map_Forall (fun _ config => ordinary config)
             (ConfigManager.handleUpdateValue environmentName key value prev)
  /\ map_Forall (fun _ config => ordinary config)
                (ConfigManager.handleUpdateKey environmentName key newKey prev)
  /\ map_Forall (fun _ config => ordinary config)
                (ConfigManager.handleAddKey environmentName key value prev)
  /\ map_Forall (fun _ config => ordinary config)
                (ConfigManager.handleRemoveKey environmentName key prev).
Proof.
  intros Hall.
  assert (Hspread : ordinary (ConfigManager.spread (prev !! environmentName))).
  { destruct (prev !! environmentName) as [config |] eqn:Hget; simpl.
    - exact (Hall _ _ Hget).
    - reflexivity. }
  unfold ConfigManager.handleUpdateValue, ConfigManager.handleUpdateKey,
    ConfigManager.handleAddKey, ConfigManager.handleRemoveKey.
  repeat split.
  - apply map_Forall_insert_2; [now apply define_ordinary | exact Hall].
  - destruct (key_eqb key newKey); [exact Hall |].
    apply map_Forall_insert_2; [| exact Hall].
    unfold ConfigManager.assign.
    destruct (key_eqb newKey (js "__proto__")).
    + now apply delete_ordinary.
    + now apply define_ordinary, delete_ordinary.
  - destruct (negb (truthy (trim key))); [exact Hall |].
    apply map_Forall_insert_2; [now apply define_ordinary | exact Hall].
  - apply map_Forall_insert_2; [now apply delete_ordinary | exact Hall].
Qed.

End InvariantFacts.

(** ** The snapshot codec *)

Module CodecFacts.
Import JSON Codec JsonFacts ParserFacts JsObjectFacts InvariantFacts.

Lemma skip_ws_app (w x : list N) : all_ws w -> skip_ws (w ++ x) = skip_ws x.
Proof.
  unfold all_ws. induction w as [| c w IH]; simpl; [reflexivity |].
  rewrite andb_true_iff. intros [-> Hw]. now apply IH.
Qed.

Lemma skip_ws_token (c : N) (x : list N) :
  is_json_ws c = false -> skip_ws (c :: x) = c :: x.
Proof. intros Hc. simpl. now rewrite Hc. Qed.

Lemma all_ws_cons (c : N) (w : list N) :
  is_json_ws c = true -> all_ws w -> all_ws (c :: w).
Proof. unfold all_ws. simpl. now intros -> ->. Qed.

Lemma all_ws_repeat (n : nat) : all_ws (repeat 0x20 n).
Proof. unfold all_ws. induction n; simpl; auto. Qed.

Section Codec.
Context `{Engine}.

(** A quoted string is read back as a string value. *)
Lemma parse_value_string fuel w s rest :
  all_ws w ->
  parse_value (S fuel) (w ++ QuoteJSONString s ++ rest)
  = Parsed (JsString s) rest.
Proof.
  intros Hw. rewrite parse_value_eq, skip_ws_app by exact Hw.
  unfold QuoteJSONString. cbn [app].
  rewrite skip_ws_token by reflexivity.
  change (0x22 =? 0x7B) with false. change (0x22 =? 0x5B) with false.
  change (0x22 =? 0x22) with true. cbv iota.
  rewrite <- app_assoc. cbn [app]. now rewrite parse_quote_code_points.
Qed.

(** One member is read, its property defined, and the parser stands at
    what follows the member. *)
Lemma parse_members_member fuel w sp kv tail acc :
  all_ws w -> all_ws sp ->
  parse_members (S (S fuel)) (w ++ member_text sp kv ++ tail) acc
  = let acc' := JsObject.define (fst kv) (JsString (snd kv)) acc in
    match skip_ws tail with
    | c :: r4 =>
      if c =? 0x2C then parse_members (S fuel) r4 acc'
      else if c =? 0x7D then Parsed (JsObject acc') r4
      else SyntaxError
    | [] => SyntaxError
    end.
Proof.
  intros Hw Hsp. rewrite parse_members_eq, skip_ws_app by exact Hw.
  unfold member_text. rewrite <- !app_assoc.
  unfold QuoteJSONString at 1. cbn [app].
  rewrite skip_ws_token by reflexivity.
  change (0x22 =? 0x22) with true. cbv iota.
  rewrite <- !app_assoc. cbn [app].
  rewrite parse_quote_code_points.
  rewrite skip_ws_token by reflexivity.
  change (0x3A =? 0x3A) with true. cbv iota.
  now rewrite parse_value_string by exact Hsp.
Qed.

Lemma members_tail_length (sep sp : list N) ms :
  (length ms <= length (members_tail (0x2C%N :: sep) sp ms))%nat.
Proof.
  unfold members_tail. induction ms as [| m ms IH]; [simpl; lia |].
  cbn [List.map concat]. rewrite !length_app. cbn [length]. lia.
Qed.

(** The loop over the members: each is read and defined in turn, down to
    the closing brace. *)
Lemma parse_members_loop sp w1 w2 rest :
  all_ws sp -> all_ws w1 -> all_ws w2 ->
  forall ms kv w acc fuel,
    all_ws w -> (length ms + 2 <= fuel)%nat ->
    parse_members fuel
      (w ++ member_text sp kv
         ++ members_tail (0x2C :: w1) sp ms ++ w2 ++ 0x7D :: rest) acc
    = Parsed
        (JsObject
           (fold_left (fun o p => JsObject.define (fst p) (snd p) o)
                      (snapshot_props (kv :: ms)) acc))
        rest.
Proof.
  intros Hsp Hw1 Hw2. induction ms as [| m ms IH]; intros kv w acc fuel Hw Hfuel.
  - destruct fuel as [| [| fuel]]; [simpl in Hfuel; lia .. |].
    rewrite parse_members_member by assumption.
    unfold members_tail. cbn [List.map concat app].
    rewrite skip_ws_app by exact Hw2.
    rewrite skip_ws_token by reflexivity. reflexivity.
  - destruct fuel as [| [| fuel]]; [simpl in Hfuel; lia .. |].
    rewrite parse_members_member by assumption.
    unfold members_tail. cbn [List.map concat app].
    rewrite skip_ws_token by reflexivity.
    change (0x2C =? 0x2C) with true. cbv iota zeta.
    rewrite <- !app_assoc.
    fold (members_tail (0x2C :: w1) sp ms).
    rewrite IH; [reflexivity | exact Hw1 | simpl in Hfuel; lia].
Qed.

(** The text of a non-empty object, for any white space between the
    tokens, parses to the object its members define. *)
Lemma parse_object_text w sp w1 w2 kv ms :
  all_ws w -> all_ws sp -> all_ws w1 -> all_ws w2 ->
  parse (0x7B :: w ++ member_text sp kv
           ++ members_tail (0x2C :: w1) sp ms ++ w2 ++ [0x7D])
  = Some (JsObject
            (fold_left (fun o p => JsObject.define (fst p) (snd p) o)
                       (snapshot_props (kv :: ms)) [])).
Proof.
  intros Hw Hsp Hw1 Hw2. unfold parse.
  set (body := w ++ member_text sp kv
                 ++ members_tail (0x2C :: w1) sp ms ++ w2 ++ [0x7D]).
  rewrite parse_value_eq.
  rewrite skip_ws_token by reflexivity.
  change (0x7B =? 0x7B) with true. cbv iota.
  assert (Hbody : exists x, skip_ws body = 0x22 :: x).
  { unfold body. rewrite skip_ws_app by exact Hw.
    unfold member_text, QuoteJSONString at 1. cbn [app].
    rewrite skip_ws_token by reflexivity. now eexists. }
  destruct Hbody as [x ->]. change (0x22 =? 0x7D) with false. cbv iota.
  unfold body. rewrite parse_members_loop; try assumption.
  - reflexivity.
  - pose proof (members_tail_length w1 sp ms).
    cbn [length]. rewrite !length_app. cbn [length]. lia.
Qed.

(** The object the member loop returns is ordinary when the object it
    started from is. *)
Lemma parse_members_ordinary (fuel : nat) :
  forall inp acc o rest,
    JsObject.ordinary acc ->
    parse_members fuel inp acc = Parsed (JsObject o) rest ->
    JsObject.ordinary o.
Proof.
  induction fuel as [| fuel IH]; intros inp acc o rest Hacc; [discriminate |].
  rewrite parse_members_eq.
  destruct (skip_ws inp) as [| q r]; [discriminate |].
  destruct (q =? 0x22); [| discriminate].
  destruct (parse_string_chars r) as [[k r1] |]; [| discriminate].
  destruct (skip_ws r1) as [| colon r2]; [discriminate |].
  destruct (colon =? 0x3A); [| discriminate].
  destruct (parse_value fuel r2) as [v r3 | |]; try discriminate.
  cbv zeta.
  destruct (skip_ws r3) as [| c r4]; [discriminate |].
  assert (Hdef : JsObject.ordinary (JsObject.define k v acc))
    by now apply define_ordinary.
  destruct (c =? 0x2C); [now apply IH |].
  destruct (c =? 0x7D); [| discriminate].
  now intros [= <- <-].
Qed.

(** What SerializeJSONObject writes for a snapshot. *)
Lemma serialize_snapshot gap (s : list (list N * list N)) :
  SerializeJSONProperty gap [] (JsObject (snapshot_props s))
  = Some (wrap gap [] gap 0x7B 0x7D
               (List.map (member_text (if truthy gap then [0x20] else [])) s)).
Proof.
  cbn [SerializeJSONProperty app]. do 2 f_equal.
  induction s as [| [k v] s IH]; [reflexivity |].
  cbn [snapshot_props List.map fst snd SerializeJSONProperty].
  f_equal. exact IH.
Qed.

(** C6: the snapshot codec round-trips. For every snapshot, an ordinary
    object whose keys and values are strings, [JSON.stringify] with any
    indentation gives a text, and [JSON.parse] of that text gives the
    snapshot back, with the same keys in the same order and the same
    values. *)
Theorem snapshot_round_trip (s : list (list N * list N)) (space : N) :
  JsObject.ordinary (snapshot_props s) ->
  exists text,
    stringify (JsObject (snapshot_props s)) space = Some text
    /\ parse text = Some (JsObject (snapshot_props s)).
Proof.
  intros Hord. unfold stringify. rewrite serialize_snapshot.
  eexists; split; [reflexivity |].
  set (gap := repeat 0x20 (N.to_nat (N.min 10 space))).
  assert (Hgap : all_ws gap) by apply all_ws_repeat.
  destruct s as [| kv ms]; [reflexivity |].
  assert (Hfold :
    fold_left (fun o p => JsObject.define (fst p) (snd p) o)
              (snapshot_props (kv :: ms)) []
    = snapshot_props (kv :: ms)).
  { now rewrite fold_define_ordinary. }
  rewrite <- Hfold.
  unfold wrap, join. cbn [List.map].
  assert (Hnl : all_ws (0x0A :: gap)) by now apply all_ws_cons.
  destruct (truthy gap) eqn:Htruthy.
  - transitivity
      (parse (0x7B :: (0x0A :: gap) ++ member_text [0x20] kv
                ++ members_tail (0x2C :: 0x0A :: gap) [0x20] ms
                ++ [0x0A] ++ [0x7D])).
    + apply (f_equal parse). unfold members_tail. cbn [app].
      now rewrite <- !app_assoc.
    + apply parse_object_text; try exact Hnl; now apply all_ws_cons.
  - transitivity
      (parse (0x7B :: [] ++ member_text [] kv
                ++ members_tail [0x2C] [] ms ++ [] ++ [0x7D])).
    + apply (f_equal parse). unfold members_tail. cbn [app].
      now rewrite <- !app_assoc.
    + now apply parse_object_text.
Qed.

End Codec.
End CodecFacts.

(** ** The uploader *)

Module UploaderFacts.
Import ipfsUploader Trace Runs.

Section Facts.
Context `{Engine} `{ImportMetaEnv} {World : Type} `{Pinata World}.

(** Every run is one of the four, and returns normally. *)
Lemma uploadConfigToIPFS_runs config environmentName pinataJWT st :
  exists r st' evs,
    uploadConfigToIPFS config environmentName pinataJWT st = (Normal r, st')
    /\ upload_run config environmentName pinataJWT st r st' evs.
Proof.
  unfold uploadConfigToIPFS, try_catch, bind, getPinataInstance.
  destruct (truthy_opt (or_else pinataJWT VITE_PINATA_JWT)) eqn:Hjwt; simpl.
  - set (sdk := {| pinataJwt := or_else pinataJWT VITE_PINATA_JWT;
                   pinataGateway := js "https://gateway.pinata.cloud" |}).
    fold (file_of config environmentName).
    unfold call at 1; simpl.
    destruct (testAuthentication sdk (world st)) as [[t | []] w1] eqn:Hauth;
      simpl.
    + eexists _, _, _; split; [reflexivity |].
      apply run_rejected with (sdk := sdk).
      * assumption.
      * reflexivity.
      * assumption.
    + unfold call, read; simpl.
      fold (metadata_of environmentName (Date_toISOString w1)).
      destruct (upload_public_file sdk _ _ w1) as [[t | response] w2] eqn:Hup.
      * simpl. rewrite <- app_assoc. simpl.
        eexists _, _, _. split. reflexivity.
        apply run_transfer_fault with (sdk := sdk) (w1 := w1); try assumption.
        reflexivity.
      * simpl. rewrite <- app_assoc. simpl.
        eexists _, _, _; split; [reflexivity |].
        apply run_stored with (sdk := sdk) (w1 := w1); try assumption.
        reflexivity.
  - eexists _, _, _; split; [reflexivity |].
    apply run_no_credential; assumption.
Qed.

(** C4: [uploadConfigToIPFS] never raises. Whatever the configuration,
    the credential and the behaviour of the service, the call returns
    normally, with [{success: true, ipfsHash}] when the blob was stored and
    with [{success: false, error: message}] for a missing credential, a
    rejected authentication or a transfer fault. *)
Theorem uploadConfigToIPFS_never_raises
    (config : JsValue) (environmentName : list N)
    (pinataJWT : option (list N)) (st : State World) :
  exists r st' evs,
    uploadConfigToIPFS config environmentName pinataJWT st = (Normal r, st')
    /\ log st' = log st ++ evs
    /\ ((exists response,
           r = succeeded (cid response)
           /\ stored_identifiers evs = [cid response])
        \/ (r = failed jwt_required /\ evs = [])
        \/ (exists sdk t,
              r = failed (caught_message t)
              /\ evs = [TestAuthentication sdk (inl t)])
        \/ (exists sdk file metadata t,
              r = failed (caught_message t)
              /\ evs = [TestAuthentication sdk (inr tt);
                        UploadPublicFile sdk file metadata (inl t)])).
Proof.
  destruct (uploadConfigToIPFS_runs config environmentName pinataJWT st)
    as (r & st' & evs & Hrun & Hcase).
  exists r, st', evs. split; [exact Hrun |].
  destruct Hcase; simpl.
  - split; [now rewrite app_nil_r |]. right; left. now split.
  - split; [reflexivity |]. right; right; left. now exists sdk, t.
  - split; [reflexivity |]. right; right; right.
    now eexists sdk, _, _, t.
  - split; [reflexivity |]. left. now exists response.
Qed.

(** C5: the credential is checked before any data transfer. Without a
    credential the call fails with the configuration message and the state
    is untouched (no service is contacted); an upload call is always
    preceded by a successful authentication test with the same client; a
    rejected authentication leaves no upload call behind. *)
Theorem credential_checked_before_transfer
    (config : JsValue) (environmentName : list N)
    (pinataJWT : option (list N)) (st : State World) :
  exists r st' evs,
    uploadConfigToIPFS config environmentName pinataJWT st = (Normal r, st')
    /\ log st' = log st ++ evs
    /\ (truthy_opt (or_else pinataJWT VITE_PINATA_JWT) = false ->
        r = failed jwt_required /\ st' = st /\ evs = [])
    /\ (forall pre sdk file metadata answer post,
          evs = pre ++ UploadPublicFile sdk file metadata answer :: post ->
          In (TestAuthentication sdk (inr tt)) pre)
    /\ (forall sdk t,
          In (TestAuthentication sdk (inl t)) evs ->
          uploaded_files evs = [] /\ success r = false).
Proof.
  destruct (uploadConfigToIPFS_runs config environmentName pinataJWT st)
    as (r & st' & evs & Hrun & Hcase).
  exists r, st', evs. split; [exact Hrun |].
  destruct Hcase as [Hno | sdk t w1 Hyes Hsdk Hauth
                     | sdk w1 t w2 Hyes Hsdk Hauth Hup evs
                     | sdk w1 response w2 Hyes Hsdk Hauth Hup evs]; simpl.
  - split; [now rewrite app_nil_r |].
    split; [intros _; repeat split |]. split.
    + intros [| e pre] ? ? ? ? ? Heq; discriminate Heq.
    + intros ? ? [].
  - split; [reflexivity |]. split; [congruence |]. split.
    + intros [| e [| e' pre]] ? ? ? ? ? Heq; discriminate Heq.
    + intros ? ? _. now split.
  - split; [reflexivity |]. split; [congruence |]. split.
    + intros [| e [| e' [| e'' pre]]] ? ? ? ? ? Heq; try discriminate Heq.
      inversion Heq; subst. now left.
    + intros ? ? [Heq | [Heq | []]]; discriminate Heq.
  - split; [reflexivity |]. split; [congruence |]. split.
    + intros [| e [| e' [| e'' pre]]] ? ? ? ? ? Heq; try discriminate Heq.
      inversion Heq; subst. now left.
    + intros ? ? [Heq | [Heq | []]]; discriminate Heq.
Qed.

(** C7: encoding is deterministic. Two runs on the same configuration,
    under any environment names, credentials, clocks and service
    behaviours, hand the pinning service byte-identical files: the bytes
    are [JSON.stringify(config, null, 2)] and nothing else. *)
Theorem encoding_deterministic
    (config : JsValue) (name1 name2 : list N) (jwt1 jwt2 : option (list N))
    (st1 st2 : State World) :
  exists r1 st1' evs1 r2 st2' evs2,
    uploadConfigToIPFS config name1 jwt1 st1 = (Normal r1, st1')
    /\ uploadConfigToIPFS config name2 jwt2 st2 = (Normal r2, st2')
    /\ log st1' = log st1 ++ evs1
    /\ log st2' = log st2 ++ evs2
    /\ forall file1 file2,
         In file1 (uploaded_files evs1) -> In file2 (uploaded_files evs2) ->
         file_bits file1 = blob_part (JSON.stringify config 2)
         /\ file_bits file1 = file_bits file2.
Proof.
  destruct (uploadConfigToIPFS_runs config name1 jwt1 st1)
    as (r1 & st1' & evs1 & Hrun1 & Hcase1).
  destruct (uploadConfigToIPFS_runs config name2 jwt2 st2)
    as (r2 & st2' & evs2 & Hrun2 & Hcase2).
  exists r1, st1', evs1, r2, st2', evs2.
  assert (Hbits : forall name jwt st r st' evs file,
             upload_run config name jwt st r st' evs ->
             In file (uploaded_files evs) ->
             file_bits file = blob_part (JSON.stringify config 2)).
  { intros name jwt st r st' evs file Hcase Hin.
    destruct Hcase; simpl in Hin; try contradiction;
      destruct Hin as [<- | []]; reflexivity. }
  assert (Hlog : forall name jwt st r st' evs,
             upload_run config name jwt st r st' evs ->
             log st' = log st ++ evs).
  { intros name jwt st r st' evs Hcase.
    destruct Hcase; simpl; [now rewrite app_nil_r | reflexivity ..]. }
  repeat split; eauto.
  rewrite (Hbits _ _ _ _ _ _ file1 Hcase1), (Hbits _ _ _ _ _ _ file2 Hcase2);
    auto.
Qed.

(** C8: credential precedence. A credential supplied with the call is the
    one the client is built with, whatever the environment variable holds;
    the environment variable is used when the supplied one is absent or
    empty; and every service call of an upload carries the credential so
    chosen. *)
Theorem credential_precedence (pinataJWT : option (list N))
    (st : State World) :
  (truthy_opt pinataJWT = true ->
   getPinataInstance pinataJWT st
   = (Normal {| pinataJwt := pinataJWT;
                pinataGateway := js "https://gateway.pinata.cloud" |}, st))
  /\ (truthy_opt pinataJWT = false -> truthy_opt VITE_PINATA_JWT = true ->
      getPinataInstance pinataJWT st
      = (Normal {| pinataJwt := VITE_PINATA_JWT;
                   pinataGateway := js "https://gateway.pinata.cloud" |}, st))
  /\ (forall config environmentName,
      exists r st' evs,
        uploadConfigToIPFS config environmentName pinataJWT st
        = (Normal r, st')
        /\ log st' = log st ++ evs
        /\ Forall (fun used =>
                     used = if truthy_opt pinataJWT then pinataJWT
                            else VITE_PINATA_JWT)
                  (credentials_used evs)).
Proof.
  split; [| split].
  - intros Hp. unfold getPinataInstance, or_else. now rewrite Hp, Hp.
  - intros Hp Hv. unfold getPinataInstance, or_else. now rewrite Hp, Hv.
  - intros config environmentName.
    destruct (uploadConfigToIPFS_runs config environmentName pinataJWT st)
      as (r & st' & evs & Hrun & Hcase).
    exists r, st', evs. split; [exact Hrun |].
    destruct Hcase; simpl;
      (split; [first [now rewrite app_nil_r | reflexivity] |]);
      repeat constructor; assumption.
Qed.

(** C9: [isPinataConfigured] is true exactly when a credential is
    available, the argument or else the environment variable being a
    non-empty string; it is a value, so running it leaves the state of the
    world and the log of service calls as they were. *)
Theorem isPinataConfigured_spec (pinataJWT : option (list N)) :
  (isPinataConfigured pinataJWT = true <->
   (exists jwt, pinataJWT = Some jwt /\ jwt <> [])
   \/ (exists jwt, VITE_PINATA_JWT = Some jwt /\ jwt <> []))
  /\ forall st : State World,
       ret (isPinataConfigured pinataJWT) st
       = (Normal (isPinataConfigured pinataJWT), st).
Proof.
  split; [| reflexivity].
  unfold isPinataConfigured, or_else.
  destruct pinataJWT as [[| c jwt] |]; simpl.
  - destruct VITE_PINATA_JWT as [[| c jwt] |]; simpl; split;
      try discriminate; try (intros _; right; now eexists);
      intros [(j & Hj & Hne) | (j & Hj & Hne)]; congruence.
  - split; [intros _; left; now eexists | reflexivity].
  - destruct VITE_PINATA_JWT as [[| c jwt] |]; simpl; split;
      try discriminate; try (intros _; right; now eexists);
      intros [(j & Hj & Hne) | (j & Hj & Hne)]; congruence.
Qed.

End Facts.
End UploaderFacts.

(** ** The orchestrator *)

Module PublishFacts.
Import ipfsUploader ipnsUpdater Trace Runs UploaderFacts.

Section Facts.
Context `{Engine} `{ImportMetaEnv} {World : Type} `{Pinata World}
        `{NamingNetwork World}.

(** The outcome and the service calls of a run of [publish] over
    [uploadConfigToIPFS], from the run of the upload. *)
Lemma publish_runs (snapshot : JsValue) (r : EnvironmentRecord)
    (st : State World) :
  exists up st1 evs,
    upload_run snapshot (name r) (serviceCredential r) st up st1 evs
    /\ match success up, ipfsHash up, credential r with
       | true, Some identifier, Some cred =>
         let (answer, w2) := naming_publish cred identifier (world st1) in
         publish uploadConfigToIPFS snapshot r st
         = (Normal
              {| uploadResult := UploadSuccess identifier;
                 nameUpdateResult :=
                   match answer with
                   | inr newName =>
                     NameUpdated newName (js "https://ipfs.io/ipns/" ++ newName)
                   | inl failure => NameUpdateFailure failure
                   end |},
            {| world := w2;
               log := log st
                      ++ evs ++ [NamePublish cred identifier answer] |})
       | true, Some identifier, None =>
         publish uploadConfigToIPFS snapshot r st
         = (Normal {| uploadResult := UploadSuccess identifier;
                      nameUpdateResult := NameSkipped |}, st1)
       | _, _, _ =>
         publish uploadConfigToIPFS snapshot r st
         = (Normal {| uploadResult :=
                        UploadFailure match error up with
                                      | Some message => message
                                      | None => []
                                      end;
                      nameUpdateResult := NameSkipped |}, st1)
       end.
Proof.
  destruct (uploadConfigToIPFS_runs snapshot (name r) (serviceCredential r) st)
    as (up & st1 & evs & Hrun & Hcase).
  exists up, st1, evs. split; [exact Hcase |].
  unfold publish, bind. rewrite Hrun.
  assert (Hlog : log st1 = log st ++ evs).
  { destruct Hcase; simpl; [now rewrite app_nil_r | reflexivity ..]. }
  destruct (success up), (ipfsHash up) as [identifier |],
    (credential r) as [cred |]; try reflexivity.
  unfold name_update.
  destruct (naming_publish cred identifier (world st1)) as [answer w2].
  simpl. now rewrite Hlog, <- app_assoc.
Qed.

Lemma upload_run_log config environmentName jwt (st : State World) r st' evs :
  upload_run config environmentName jwt st r st' evs ->
  log st' = log st ++ evs.
Proof.
  intros Hrun. destruct Hrun; simpl; [now rewrite app_nil_r | reflexivity ..].
Qed.

(** A run that fails stored nothing; a run that succeeds stored exactly
    the identifier it returns; neither touches the naming network. *)
Lemma upload_run_failed config environmentName jwt (st : State World)
    message st' evs :
  upload_run config environmentName jwt st (failed message) st' evs ->
  stored_identifiers evs = [] /\ name_updates evs = [].
Proof.
  intros Hrun. inversion Hrun; subst; now split.
Qed.

Lemma upload_run_succeeded config environmentName jwt (st : State World)
    identifier st' evs :
  upload_run config environmentName jwt st (succeeded identifier) st' evs ->
  stored_identifiers evs = [identifier] /\ name_updates evs = [].
Proof.
  intros Hrun. inversion Hrun; subst; now split.
Qed.

Lemma publish_is_publish_run (snapshot : JsValue) (r : EnvironmentRecord)
    (st : State World) :
  exists o st' evs,
    publish uploadConfigToIPFS snapshot r st = (Normal o, st')
    /\ log st' = log st ++ evs
    /\ publish_run snapshot r st o st' evs.
Proof.
  destruct (publish_runs snapshot r st) as (up & st1 & evs & Hup & Hpub).
  pose proof (upload_run_log _ _ _ _ _ _ _ Hup) as Hlog.
  assert (Hshape : (exists m, up = failed m) \/ (exists i, up = succeeded i)).
  { destruct Hup; eauto. }
  destruct Hshape as [[m ->] | [i ->]]; simpl in Hpub.
  - eexists _, st1, evs. repeat split; [exact Hpub | exact Hlog |].
    now constructor.
  - destruct (credential r) as [cred |] eqn:Hcred.
    + destruct (naming_publish cred i (world st1)) as [answer w2] eqn:Hname.
      eexists _, _, _. split; [exact Hpub |]. split.
      * simpl. reflexivity.
      * now apply published_name with (st1 := st1).
    + eexists _, st1, evs. repeat split; [exact Hpub | exact Hlog |].
      now constructor.
Qed.

Lemma stored_identifiers_app evs1 evs2 :
  stored_identifiers (evs1 ++ evs2)
  = stored_identifiers evs1 ++ stored_identifiers evs2.
Proof.
  induction evs1 as [| [? ? | ? ? ? [? | ?] | ? ? ?] evs1 IH]; simpl;
    now rewrite ?IH.
Qed.

Lemma name_updates_app evs1 evs2 :
  name_updates (evs1 ++ evs2) = name_updates evs1 ++ name_updates evs2.
Proof.
  induction evs1 as [| [? ? | ? ? ? ? | ? ? ?] evs1 IH]; simpl;
    now rewrite ?IH.
Qed.

(** A naming call in a list of events splits the name updates. *)
Lemma name_updates_split pre cred identifier answer post :
  name_updates (pre ++ NamePublish cred identifier answer :: post)
  = name_updates pre ++ identifier :: name_updates post.
Proof. now rewrite name_updates_app. Qed.

(** The calls of a run in their order: a naming call is the last call,
    it follows the one stored identifier and is made on it. *)
Lemma publish_run_orders (snapshot : JsValue) (r : EnvironmentRecord)
    (st : State World) o st' evs :
  publish_run snapshot r st o st' evs ->
  (forall pre cred identifier answer post,
     evs = pre ++ NamePublish cred identifier answer :: post ->
     stored_identifiers pre = [identifier]
     /\ name_updates pre = []
     /\ uploadResult o = UploadSuccess identifier)
  /\ (forall failure,
        uploadResult o = UploadFailure failure -> name_updates evs = [])
  /\ (stored_identifiers evs = [] -> name_updates evs = []).
Proof.
  intros Hcase.
  assert (Hnone : forall evs0 pre cred identifier answer post,
             name_updates evs0 = [] ->
             evs0 = pre ++ NamePublish cred identifier answer :: post ->
             False).
  { intros evs0 pre cred identifier answer post Hnil ->.
    rewrite name_updates_split in Hnil. now destruct (name_updates pre). }
  destruct Hcase as [message st1 evs Hup | identifier st1 evs Hup Hcred
                     | identifier st1 evs cred answer w2 Hup Hcred Hname].
  - destruct (upload_run_failed _ _ _ _ _ _ _ Hup) as [Hstored Hnames].
    repeat split; auto; intros; exfalso; eauto.
  - destruct (upload_run_succeeded _ _ _ _ _ _ _ Hup) as [Hstored Hnames].
    repeat split; auto; try discriminate; intros; exfalso; eauto.
  - destruct (upload_run_succeeded _ _ _ _ _ _ _ Hup) as [Hstored Hnames].
    split; [| split; [discriminate |]].
    + intros pre cred' identifier' answer' post Heq.
      assert (Hpost : post = []).
      { destruct post as [| e post] using rev_ind; [reflexivity |].
        rewrite app_comm_cons, app_assoc in Heq.
        apply app_inj_tail in Heq as [Heq _]. exfalso; eauto. }
      subst post. apply app_inj_tail in Heq as [<- Heq].
      injection Heq as <- <- <-. now repeat split.
    + rewrite stored_identifiers_app, Hstored. discriminate.
Qed.

(** C1: in every run of [publish], a call to the naming network comes
    after the upload of the same run has returned its identifier, and is
    made on that identifier; when the upload fails, or nothing was stored,
    no naming call is made. *)
Theorem name_update_follows_upload (snapshot : JsValue)
    (r : EnvironmentRecord) (st : State World) :
  exists o st' evs,
    publish uploadConfigToIPFS snapshot r st = (Normal o, st')
    /\ log st' = log st ++ evs
    /\ (forall pre cred identifier answer post,
          evs = pre ++ NamePublish cred identifier answer :: post ->
          stored_identifiers pre = [identifier]
          /\ name_updates pre = []
          /\ uploadResult o = UploadSuccess identifier)
    /\ (forall failure,
          uploadResult o = UploadFailure failure -> name_updates evs = [])
    /\ (stored_identifiers evs = [] -> name_updates evs = []).
Proof.
  destruct (publish_is_publish_run snapshot r st)
    as (o & st' & evs & Hrun & Hlog & Hcase).
  exists o, st', evs. split; [exact Hrun |]. split; [exact Hlog |].
  exact (publish_run_orders snapshot r st o st' evs Hcase).
Qed.

(** C2: when the upload succeeds and the name update then fails, the
    outcome reports the upload as a success with the identifier the store
    returned, beside the naming failure; the message shown to the user
    says so. *)
Theorem upload_success_survives_name_failure (snapshot : JsValue)
    (r : EnvironmentRecord) (st : State World) :
  exists o st' evs,
    publish uploadConfigToIPFS snapshot r st = (Normal o, st')
    /\ log st' = log st ++ evs
    /\ forall cred identifier failure,
         In (NamePublish cred identifier (inl failure)) evs ->
         stored_identifiers evs = [identifier]
         /\ uploadResult o = UploadSuccess identifier
         /\ nameUpdateResult o = NameUpdateFailure failure
         /\ ipfsResult (exposed o) = succeeded identifier
         /\ (identifier <> [] ->
             EnvironmentTab.publish_message (exposed o)
             = js "‚úÖ Uploaded to IPFS! Hash: " ++ identifier
               ++ [0x0A] ++ js "‚ùå IPNS update failed: " ++ failure).
Proof.
  destruct (publish_is_publish_run snapshot r st)
    as (o & st' & evs & Hrun & Hlog & Hcase).
  exists o, st', evs. split; [exact Hrun |]. split; [exact Hlog |].
  intros cred0 identifier0 failure0 Hin.
  assert (Hnone : forall evs0,
             name_updates evs0 = [] ->
             In (NamePublish cred0 identifier0 (inl failure0)) evs0 -> False).
  { intros evs0 Hnil Hin0. apply in_split in Hin0 as (pre & post & ->).
    rewrite name_updates_split in Hnil. now destruct (name_updates pre). }
  destruct Hcase as [message st1 evs Hup | identifier st1 evs Hup Hcred
                     | identifier st1 evs cred answer w2 Hup Hcred Hname].
  - destruct (upload_run_failed _ _ _ _ _ _ _ Hup) as [_ Hnames].
    exfalso; eauto.
  - destruct (upload_run_succeeded _ _ _ _ _ _ _ Hup) as [_ Hnames].
    exfalso; eauto.
  - destruct (upload_run_succeeded _ _ _ _ _ _ _ Hup) as [Hstored Hnames].
    apply in_app_or in Hin as [Hin | [Heq | []]]; [exfalso; eauto |].
    injection Heq as -> -> ->.
    rewrite stored_identifiers_app, Hstored. simpl.
    repeat split.
    intros Hne. unfold EnvironmentTab.publish_message, exposed; simpl.
    destruct identifier0; [contradiction |]. simpl.
    now rewrite <- !app_assoc.
Qed.

(** C3: without an owning credential [publish] never calls the naming
    network and reports the name update as skipped, "no credential"; an
    upload that succeeded is still reported as a success, and the user is
    told that only the upload took place. *)
Theorem no_credential_skips_name_update (snapshot : JsValue)
    (r : EnvironmentRecord) (st : State World) :
  credential r = None ->
  exists o st' evs,
    publish uploadConfigToIPFS snapshot r st = (Normal o, st')
    /\ log st' = log st ++ evs
    /\ name_updates evs = []
    /\ nameUpdateResult o = NameSkipped
    /\ skipped (nameUpdateResult o) = Some (js "no credential")
    /\ ipnsResult (exposed o) = None
    /\ forall identifier,
         In identifier (stored_identifiers evs) ->
         uploadResult o = UploadSuccess identifier
         /\ (identifier <> [] ->
             EnvironmentTab.publish_message (exposed o)
             = js "‚úÖ Uploaded to IPFS! Hash: " ++ identifier ++ [0x0A]
               ++ js "‚ö†Ô∏è No IPNS private key found - IPFS upload only").
Proof.
  intros Hnone.
  destruct (publish_is_publish_run snapshot r st)
    as (o & st' & evs & Hrun & Hlog & Hcase).
  exists o, st', evs. split; [exact Hrun |]. split; [exact Hlog |].
  destruct Hcase as [message st1 evs Hup | identifier st1 evs Hup Hcred
                     | identifier st1 evs cred answer w2 Hup Hcred Hname].
  - destruct (upload_run_failed _ _ _ _ _ _ _ Hup) as [Hstored Hnames].
    rewrite Hstored. repeat (split; [solve [auto] |]). intros i [].
  - destruct (upload_run_succeeded _ _ _ _ _ _ _ Hup) as [Hstored Hnames].
    rewrite Hstored. repeat (split; [solve [auto] |]).
    intros i [<- | []]. split; [reflexivity |].
    intros Hne. unfold EnvironmentTab.publish_message, exposed; simpl.
    destruct identifier; [contradiction |]. simpl.
    now rewrite <- !app_assoc.
  - congruence.
Qed.

End Facts.
End PublishFacts.

(** ** The edit handlers *)

Module ConfigManagerFacts.
Import ConfigManager.

Lemma get_delete_absent {A} (k : list N) (o : list (list N * A)) :
  JsObject.get k o = None -> JsObject.delete k o = o.
Proof.
  induction o as [| [k' v'] o IH]; simpl; [reflexivity |].
  destruct (JsObject.key_eqb k k'); [discriminate |].
  intros Hget. now rewrite IH.
Qed.

(** C10: an edit of one environment leaves the stored configuration of
    every other environment as it was, for update, rename, add and remove
    alike; and removing a key that the environment's configuration does not
    hold leaves that configuration with the same properties (the whole
    store is unchanged when the environment has a configuration). *)
Theorem edits_scoped_to_environment
    (environmentName other key value newKey : list N)
    (prev : gmap (list N) (list (list N * JsValue))) :
  (other <> environmentName ->
   handleUpdateValue environmentName key value prev !! other = prev !! other
   /\ handleUpdateKey environmentName key newKey prev !! other = prev !! other
   /\ handleAddKey environmentName key value prev !! other = prev !! other
   /\ handleRemoveKey environmentName key prev !! other = prev !! other)
  /\ (JsObject.get key (spread (prev !! environmentName)) = None ->
      spread (handleRemoveKey environmentName key prev !! environmentName)
      = spread (prev !! environmentName))
  /\ (forall config,
        prev !! environmentName = Some config ->
        JsObject.get key config = None ->
        handleRemoveKey environmentName key prev = prev).
Proof.
  split; [| split].
  - intros Hne.
    unfold handleUpdateValue, handleUpdateKey, handleAddKey, handleRemoveKey.
    repeat split.
    + now rewrite lookup_insert_ne.
    + destruct (JsObject.key_eqb key newKey); [reflexivity |].
      now rewrite lookup_insert_ne.
    + destruct (negb (truthy (trim key))); [reflexivity |].
      now rewrite lookup_insert_ne.
    + now rewrite lookup_insert_ne.
  - intros Habsent. unfold handleRemoveKey.
    rewrite lookup_insert_eq. simpl. now apply get_delete_absent.
  - intros config Hconfig Habsent. unfold handleRemoveKey.
    rewrite Hconfig. simpl. rewrite get_delete_absent by exact Habsent.
    now apply insert_id.
Qed.

End ConfigManagerFacts.

(** ** The click handler *)

Module HandlerFacts.
Import ipfsUploader ipnsUpdater Trace Runs UploaderFacts PublishFacts.

Section Facts.
Context `{Engine} `{ImportMetaEnv} {World : Type} `{Pinata World}
        `{NamingNetwork World} {ConfigStructure : Type}.

(** The click handler over the orchestrator: it never throws, it leaves
    [uploading] off and a message in [uploadResult], and whatever it asks
    of the naming network comes after the identifier was stored. *)
Lemma handleUploadAndPublish_orders_calls
    (p : @EnvironmentTab.Props EnvironmentRecord ConfigStructure)
    (s : EnvironmentTab.TabState) (st : State World) :
  exists s' st' evs,
    EnvironmentTab.handleUploadAndPublish uploadAndUpdateIPNS p s st
    = (Normal s', st')
    /\ log st' = log st ++ evs
    /\ (exists message, EnvironmentTab.uploadResult s' = Some message)
    /\ forall pre cred identifier answer post,
         evs = pre ++ NamePublish cred identifier answer :: post ->
         stored_identifiers pre = [identifier].
Proof.
  unfold EnvironmentTab.handleUploadAndPublish.
  destruct (match EnvironmentTab.fetchedConfig p with
            | Some config => Some (JsObject config)
            | None => JSON.parse (EnvironmentTab.rawJsonValue s)
            end) as [config |].
  - destruct (publish_is_publish_run config
                (EnvironmentTab.environmentConfig p) st)
      as (o & st' & evs & Hrun & Hlog & Hcase).
    destruct (publish_run_orders _ _ _ _ _ _ Hcase) as (Horder & _).
    unfold bind, try_catch, uploadAndUpdateIPNS, bind. rewrite Hrun.
    cbn [ret]. eexists _, st', evs. split; [reflexivity |].
    split; [exact Hlog |]. split; [now eexists |].
    intros pre cred identifier answer post Heq.
    now destruct (Horder pre cred identifier answer post Heq).
  - eexists _, st, []. split; [reflexivity |].
    split; [now rewrite app_nil_r |]. split; [now eexists |].
    intros [| e pre] ? ? ? ? Heq; discriminate Heq.
Qed.

End Facts.
End HandlerFacts.

(** ** Scenarios *)

Module ScenarioFacts.
Import ipfsUploader ipnsUpdater Trace Runs Scenario ConfigManager.

#[local] Existing Instance no_env.

Example stringify_snapshot : JSON.stringify snapshot 2 = Some encoded.
Proof. vm_compute. reflexivity. Qed.

Example parse_encoded : JSON.parse encoded = Some snapshot.
Proof. vm_compute. reflexivity. Qed.

(** A repeated key keeps its first place and takes its last value; array
    indices come first. *)
Example parse_orders_keys :
  JSON.parse (js "{ ") = None
  /\ JSON.parse ([0x7B] ++ [0x22; 0x62; 0x22; 0x3A; 0x22; 0x78; 0x22; 0x2C]
                  ++ [0x22; 0x31; 0x22; 0x3A; 0x22; 0x79; 0x22; 0x2C]
                  ++ [0x22; 0x62; 0x22; 0x3A; 0x22; 0x7A; 0x22; 0x7D])
     = Some (JsObject [(js "1", JsString (js "y"));
                       (js "b", JsString (js "z"))]).
Proof. vm_compute. split; reflexivity. Qed.

(** Scenario A: a valid service credential and no owning credential. *)
Example scenario_A :
  exists st',
    publish uploadConfigToIPFS snapshot (record None valid) start
    = (Normal {| uploadResult := UploadSuccess stored;
                 nameUpdateResult := NameSkipped |}, st')
    /\ stored_identifiers (log st') = [stored]
    /\ name_updates (log st') = [].
Proof. eexists. vm_compute. repeat split. Qed.

(** Scenario B: both credentials; the name is bound to the identifier the
    store returned. *)
Example scenario_B :
  exists st',
    publish uploadConfigToIPFS snapshot (record owner valid) start
    = (Normal {| uploadResult := UploadSuccess stored;
                 nameUpdateResult :=
                   NameUpdated (js "k51-name")
                               (js "https://ipfs.io/ipns/k51-name") |}, st')
    /\ stored_identifiers (log st') = [stored]
    /\ name_updates (log st') = [stored].
Proof. eexists. vm_compute. repeat split. Qed.

(** Scenario C: a missing, then an invalid service credential; nothing is
    handed to the store. *)
Example scenario_C :
  publish uploadConfigToIPFS snapshot (record owner None) start
  = (Normal {| uploadResult := UploadFailure jwt_required;
               nameUpdateResult := NameSkipped |}, start)
  /\ exists st',
       publish uploadConfigToIPFS snapshot
               (record owner (Some (js "stale-token"))) start
       = (Normal {| uploadResult := UploadFailure (js "Authentication failed");
                    nameUpdateResult := NameSkipped |}, st')
       /\ uploaded_files (log st') = []
       /\ name_updates (log st') = [].
Proof. split; [| eexists]; vm_compute; repeat split. Qed.

(** Scenario D: the upload succeeds and the naming network fails. *)
Example scenario_D :
  exists st',
    publish uploadConfigToIPFS snapshot
            (record (Some (js "other-key")) valid) start
    = (Normal {| uploadResult := UploadSuccess stored;
                 nameUpdateResult :=
                   NameUpdateFailure (js "naming network unreachable") |},
       st')
    /\ In (NamePublish (js "other-key") stored
                       (inl (js "naming network unreachable"))) (log st').
Proof.
  eexists. vm_compute. split; [reflexivity |]. do 2 right. left. reflexivity.
Qed.

(** The edit handlers at work: a blank key is not added; an index key goes
    first; a rename moves the value to the end; renaming a key that is not
    there stores [undefined], which the encoding leaves out; removing from
    an environment without a configuration gives it an empty one. *)
Example edits :
  handleAddKey (js "production") (js "  ") (js "x") store = store
  /\ handleAddKey (js "production") (js "7") (js "x") store
       !! js "production"
     = Some [(js "7", JsString (js "x")); (js "a", JsString (js "1"))]
  /\ handleUpdateKey (js "production") (js "a") (js "b")
       (handleAddKey (js "production") (js "z") (js "2") store)
       !! js "production"
     = Some [(js "z", JsString (js "2")); (js "b", JsString (js "1"))]
  /\ handleUpdateKey (js "production") (js "missing") (js "b") store
       !! js "production"
     = Some [(js "a", JsString (js "1")); (js "b", JsUndefined)]
  /\ JSON.stringify
       (JsObject [(js "a", JsString (js "1")); (js "b", JsUndefined)]) 0
     = Some ([0x7B] ++ [0x22; 0x61; 0x22; 0x3A; 0x22; 0x31; 0x22] ++ [0x7D])
  /\ handleRemoveKey (js "staging") (js "a") store !! js "staging" = Some [].
Proof. vm_compute. repeat split. Qed.

(** The capability check and the precedence of credentials. *)
Example configured :
  @isPinataConfigured no_env None = false
  /\ @isPinataConfigured no_env (Some []) = false
  /\ @isPinataConfigured no_env valid = true
  /\ @isPinataConfigured shared_env None = true
  /\ credentials_used
       (log (snd (@uploadConfigToIPFS engine shared_env nat pinata
                    snapshot (js "production") valid start)))
     = [valid; valid]
  /\ credentials_used
       (log (snd (@uploadConfigToIPFS engine shared_env nat pinata
                    snapshot (js "production") (Some []) start)))
     = [Some (js "shared-token"); Some (js "shared-token")].
Proof. vm_compute. repeat split. Qed.

(** Two runs at different times under different names store the same
    bytes. *)
Example same_bytes :
  uploaded_files
    (log (snd (@uploadConfigToIPFS engine no_env nat pinata
                 snapshot (js "production") valid start)))
  = [{| file_bits := encoded; file_name := js "production";
        file_type := js "application/json" |}]
  /\ uploaded_files
       (log (snd (@uploadConfigToIPFS engine shared_env nat pinata
                    snapshot (js "staging") None
                    {| world := 5%nat; log := [] |})))
     = [{| file_bits := encoded; file_name := js "staging";
           file_type := js "application/json" |}].
Proof. vm_compute. repeat split. Qed.

(** The round trip at a snapshot that needs every kind of escape. *)
Lemma snapshot_round_trip_witness :
  JsObject.ordinary (snapshot_props awkward)
  /\ exists text,
       JSON.stringify (JsObject (snapshot_props awkward)) 2 = Some text
       /\ JSON.parse text = Some (JsObject (snapshot_props awkward)).
Proof.
  assert (Hord : JsObject.ordinary (snapshot_props awkward))
    by (vm_compute; reflexivity).
  split; [exact Hord |].
  exact (CodecFacts.snapshot_round_trip awkward 2 Hord).
Defined.

(** Scenario A once more, through the theorem: no owning credential. *)
Lemma no_credential_skips_name_update_witness :
  credential (record None valid) = None
  /\ exists o st' evs,
       publish uploadConfigToIPFS snapshot (record None valid) start
       = (Normal o, st')
       /\ log st' = log start ++ evs
       /\ name_updates evs = []
       /\ nameUpdateResult o = NameSkipped.
Proof.
  split; [reflexivity |].
  destruct (PublishFacts.no_credential_skips_name_update
              snapshot (record None valid) start eq_refl)
    as (o & st' & evs & Hrun & Hlog & Hnames & Hskipped & _).
  exists o, st', evs. auto.
Defined.

End ScenarioFacts.

(** ** Reading a property after a write *)

Module AccessFacts.
Import JsObject JsObjectFacts InvariantFacts.

Section Props.
Context {A : Type}.
Implicit Types (k : list N) (v : A) (o : list (list N * A)).

Lemma key_eqb_neq k k' : k <> k' -> key_eqb k k' = false.
Proof. intros Hne. unfold key_eqb. now apply bool_decide_eq_false. Qed.

Lemma get_some_in k v o : get k o = Some v -> In k (keys o).
Proof.
  induction o as [| [k' v'] o IH]; simpl; [discriminate |].
  destruct (key_eqb k k') eqn:Heq; [| auto].
  apply key_eqb_eq in Heq. auto.
Qed.

Lemma get_replace_same k v o :
  has k o = true -> get k (replace k v o) = Some v.
Proof.
  unfold has. induction o as [| [k' v'] o IH]; simpl; [discriminate |].
  destruct (key_eqb k k') eqn:Heq; simpl; rewrite Heq; auto.
Qed.

Lemma get_replace_other k k' v o :
  k' <> k -> get k' (replace k v o) = get k' o.
Proof.
  intros Hne. induction o as [| [k0 v0] o IH]; simpl; [reflexivity |].
  destruct (key_eqb k k0) eqn:Heq; simpl; [| now rewrite IH].
  apply key_eqb_eq in Heq. subst k0. now rewrite key_eqb_neq.
Qed.

Lemma get_insert_index_same i k v o :
  get k o = None -> get k (insert_index i k v o) = Some v.
Proof.
  induction o as [| [k' v'] o IH]; simpl.
  - now rewrite key_eqb_refl.
  - destruct (key_eqb k k') eqn:Heq; [discriminate |]. intros Hget.
    destruct (array_index k') as [j |]; [destruct (i <? j) |]; simpl;
      rewrite ?key_eqb_refl, ?Heq; auto.
Qed.

Lemma get_insert_index_other i k k' v o :
  k' <> k -> get k' (insert_index i k v o) = get k' o.
Proof.
  intros Hne. induction o as [| [k0 v0] o IH]; simpl.
  - now rewrite key_eqb_neq.
  - destruct (array_index k0) as [j |]; [destruct (i <? j) |]; simpl;
      rewrite ?(key_eqb_neq k' k) by exact Hne; try reflexivity.
    now rewrite IH.
Qed.

Lemma get_app k o o' :
  get k (o ++ o') = match get k o with Some v => Some v | None => get k o' end.
Proof.
  induction o as [| [k0 v0] o IH]; simpl; [reflexivity |].
  now destruct (key_eqb k k0).
Qed.

(** A property that was just defined reads as the value it was given. *)
Lemma get_define_same k v o : get k (define k v o) = Some v.
Proof.
  unfold define. destruct (has k o) eqn:Hhas.
  - now apply get_replace_same.
  - assert (Hget : get k o = None).
    { unfold has in Hhas. now destruct (get k o). }
    destruct (array_index k) as [i |].
    + now apply get_insert_index_same.
    + rewrite get_app, Hget. simpl. now rewrite key_eqb_refl.
Qed.

(** Defining a property leaves the value of every other one. *)
Lemma get_define_other k k' v o :
  k' <> k -> get k' (define k v o) = get k' o.
Proof.
  intros Hne. unfold define. destruct (has k o).
  - now apply get_replace_other.
  - destruct (array_index k) as [i |].
    + now apply get_insert_index_other.
    + rewrite get_app. simpl. rewrite key_eqb_neq by exact Hne.
      now destruct (get k' o).
Qed.

Lemma in_keys_get k o : In k (keys o) <-> get k o <> None.
Proof.
  split.
  - intros Hin Hget. now apply get_none_not_in in Hget.
  - destruct (get k o) eqn:Hget; [intros _ | congruence].
    now apply get_some_in in Hget.
Qed.

(** The keys after a definition: the old ones and the defined one. *)
Lemma in_keys_define a k v o :
  In a (keys (define k v o)) <-> a = k \/ In a (keys o).
Proof.
  rewrite !in_keys_get. destruct (decide (a = k)) as [-> | Hne].
  - rewrite get_define_same. split; [now left | congruence].
  - rewrite get_define_other by exact Hne. split; [now right |].
    now intros [Heq | Hget].
Qed.

Lemma get_delete_other k k' o :
  k' <> k -> get k' (delete k o) = get k' o.
Proof.
  intros Hne. induction o as [| [k0 v0] o IH]; simpl; [reflexivity |].
  destruct (key_eqb k k0) eqn:Heq; simpl.
  - apply key_eqb_eq in Heq. subst k0. now rewrite key_eqb_neq.
  - now rewrite IH.
Qed.

Lemma ordinary_tail k v o : ordinary ((k, v) :: o) -> ordinary o.
Proof.
  unfold ordinary. simpl. rewrite andb_true_iff. now intros [_ Ho].
Qed.

Lemma ordinary_head_absent k v o : ordinary ((k, v) :: o) -> get k o = None.
Proof.
  unfold ordinary. simpl. rewrite andb_true_iff. intros [Hall _].
  apply get_none_not_in. intros Hin.
  rewrite forallb_forall in Hall. specialize (Hall _ Hin).
  now apply key_before_neq in Hall.
Qed.

(** In an ordinary object a deleted property is gone. *)
Lemma get_delete_same k o : ordinary o -> get k (delete k o) = None.
Proof.
  induction o as [| [k0 v0] o IH]; simpl; [reflexivity |]. intros Hord.
  destruct (key_eqb k k0) eqn:Heq.
  - apply key_eqb_eq in Heq. subst k0. now apply ordinary_head_absent in Hord.
  - simpl. rewrite Heq. apply IH. now apply ordinary_tail in Hord.
Qed.

Lemma delete_insert_index i k v o :
  get k o = None -> delete k (insert_index i k v o) = o.
Proof.
  induction o as [| [k' v'] o IH]; simpl.
  - now rewrite key_eqb_refl.
  - destruct (key_eqb k k') eqn:Heq; [discriminate |]. intros Hget.
    destruct (array_index k') as [j |]; [destruct (i <? j) |]; simpl;
      rewrite ?key_eqb_refl, ?Heq; try reflexivity.
    now rewrite IH.
Qed.

Lemma delete_app_last k v o :
  get k o = None -> delete k (o ++ [(k, v)]) = o.
Proof.
  induction o as [| [k' v'] o IH]; simpl.
  - now rewrite key_eqb_refl.
  - destruct (key_eqb k k') eqn:Heq; [discriminate |]. intros Hget.
    now rewrite IH.
Qed.

(** Deleting a property that was just created gives the object back. *)
Lemma delete_define_fresh k v o :
  get k o = None -> delete k (define k v o) = o.
Proof.
  intros Hget. unfold define, has. rewrite Hget.
  destruct (array_index k) as [i |].
  - now apply delete_insert_index.
  - now apply delete_app_last.
Qed.

Lemma has_replace k v o : has k o = true -> has k (replace k v o) = true.
Proof. intros Hhas. unfold has. now rewrite get_replace_same. Qed.

Lemma replace_replace k v v' o :
  replace k v' (replace k v o) = replace k v' o.
Proof.
  induction o as [| [k0 v0] o IH]; simpl; [reflexivity |].
  destruct (key_eqb k k0) eqn:Heq; simpl; rewrite Heq; [reflexivity |].
  now rewrite IH.
Qed.

Lemma replace_insert_index i k v v' o :
  get k o = None ->
  replace k v' (insert_index i k v o) = insert_index i k v' o.
Proof.
  induction o as [| [k' v1] o IH]; simpl.
  - now rewrite key_eqb_refl.
  - destruct (key_eqb k k') eqn:Heq; [discriminate |]. intros Hget.
    destruct (array_index k') as [j |]; [destruct (i <? j) |]; simpl;
      rewrite ?key_eqb_refl, ?Heq; try reflexivity.
    now rewrite IH.
Qed.

Lemma replace_app_last k v v' o :
  get k o = None -> replace k v' (o ++ [(k, v)]) = o ++ [(k, v')].
Proof.
  induction o as [| [k' v1] o IH]; simpl.
  - now rewrite key_eqb_refl.
  - destruct (key_eqb k k') eqn:Heq; [discriminate |]. intros Hget.
    now rewrite IH.
Qed.

(** Of two definitions of the same property the second one stays. *)
Lemma define_define k v v' o : define k v' (define k v o) = define k v' o.
Proof.
  assert (Hdefined : has k (define k v o) = true).
  { unfold has. now rewrite get_define_same. }
  unfold define at 1. rewrite Hdefined.
  unfold define. destruct (has k o) eqn:Hhas.
  - apply replace_replace.
  - assert (Hget : get k o = None).
    { unfold has in Hhas. now destruct (get k o). }
    destruct (array_index k) as [i |].
    + now apply replace_insert_index.
    + now apply replace_app_last.
Qed.

End Props.
End AccessFacts.

(** ** The edit handlers, key by key *)

Module EditFacts.
Import JsObject JsObjectFacts InvariantFacts AccessFacts ConfigManager.

Implicit Types (prev : gmap (list N) (list (list N * JsValue))).

(** X1: a value that was written is the value that is read. After
    [handleUpdateValue] the key holds the new string and every other key
    of the environment holds what it held; [handleAddKey] is the same
    update when the key is not blank and no update at all when it is. *)
Theorem written_value_is_read (environmentName key value : list N) prev :
  get key (spread (handleUpdateValue environmentName key value prev
                   !! environmentName))
  = Some (JsString value)
  /\ (forall other,
        other <> key ->
        get other (spread (handleUpdateValue environmentName key value prev
                           !! environmentName))
        = get other (spread (prev !! environmentName)))
  /\ handleAddKey environmentName key value prev
     = if truthy (trim key)
       then handleUpdateValue environmentName key value prev
       else prev.
Proof.
  unfold handleUpdateValue, handleAddKey. rewrite lookup_insert_eq. simpl.
  split; [apply get_define_same |].
  split; [intros other Hne; now apply get_define_other |].
  now destruct (truthy (trim key)).
Qed.

(** X2: editing the value of a key the environment has keeps the keys and
    their order; a new key that is no array index goes last; and in every
    case the keys afterwards are the old ones and the edited one. *)
Theorem value_edit_keeps_key_order (environmentName key value : list N) prev :
  (has key (spread (prev !! environmentName)) = true ->
   keys (spread (handleUpdateValue environmentName key value prev
                 !! environmentName))
   = keys (spread (prev !! environmentName)))
  /\ (has key (spread (prev !! environmentName)) = false ->
      array_index key = None ->
      keys (spread (handleUpdateValue environmentName key value prev
                    !! environmentName))
      = keys (spread (prev !! environmentName)) ++ [key])
  /\ (forall k,
        In k (keys (spread (handleUpdateValue environmentName key value prev
                            !! environmentName)))
        <-> k = key \/ In k (keys (spread (prev !! environmentName)))).
Proof.
  unfold handleUpdateValue. rewrite lookup_insert_eq. simpl.
  set (config := spread (prev !! environmentName)).
  split; [| split].
  - intros Hhas. unfold define. rewrite Hhas. apply keys_replace.
  - intros Hhas Hindex. unfold define. rewrite Hhas, Hindex.
    unfold keys. now rewrite map_app.
  - intros k. apply in_keys_define.
Qed.

(** X3: a removed key is gone. After [handleRemoveKey] the key reads as
    absent and every other key of the environment holds what it held. *)
Theorem removed_key_is_gone (environmentName key : list N) prev :
  ordinary (spread (prev !! environmentName)) ->
  get key (spread (handleRemoveKey environmentName key prev
                   !! environmentName)) = None
  /\ forall other,
       other <> key ->
       get other (spread (handleRemoveKey environmentName key prev
                          !! environmentName))
       = get other (spread (prev !! environmentName)).
Proof.
  intros Hord. unfold handleRemoveKey. rewrite lookup_insert_eq. simpl.
  split; [now apply get_delete_same |].
  intros other Hne. now apply get_delete_other.
Qed.


(** X5: adding a key the environment does not have and removing it again
    gives the configuration back, with its keys in their old order. *)
Theorem add_then_remove_restores (environmentName key value : list N) prev :
  truthy (trim key) = true ->
  get key (spread (prev !! environmentName)) = None ->
  spread (handleRemoveKey environmentName key
            (handleAddKey environmentName key value prev) !! environmentName)
  = spread (prev !! environmentName)
  /\ forall config,
       prev !! environmentName = Some config ->
       handleRemoveKey environmentName key
         (handleAddKey environmentName key value prev) = prev.
Proof.
  intros Hkey Hget. unfold handleRemoveKey, handleAddKey. rewrite Hkey. simpl.
  rewrite !lookup_insert_eq. simpl.
  rewrite delete_define_fresh by exact Hget.
  split; [reflexivity |].
  intros config Hconfig. rewrite insert_insert_eq.
  rewrite Hconfig. simpl. now apply insert_id.
Qed.

(** X6: the last write wins. Two updates of the same key of the same
    environment leave the store that the second one alone leaves, the key
    in the same place. *)
Theorem last_write_wins (environmentName key first second : list N) prev :
  handleUpdateValue environmentName key second
    (handleUpdateValue environmentName key first prev)
  = handleUpdateValue environmentName key second prev.
Proof.
  unfold handleUpdateValue. rewrite lookup_insert_eq. simpl.
  rewrite define_define. apply insert_insert_eq.
Qed.

End EditFacts.

(** ** String.prototype.trim *)

Module TrimFacts.
Import Trimmed.

Lemma trim_start_clean (s : list N) : starts_clean (trim_start s).
Proof.
  induction s as [| c s IH]; simpl; [exact I |].
  destruct (is_white_space c) eqn:Hc; [exact IH | exact Hc].
Qed.

Lemma trim_start_id (s : list N) : starts_clean s -> trim_start s = s.
Proof. destruct s as [| c s]; simpl; [reflexivity | now intros ->]. Qed.

Lemma trim_start_suffix (s : list N) : exists ws, s = ws ++ trim_start s.
Proof.
  induction s as [| c s [ws IH]]; simpl; [now exists [] |].
  destruct (is_white_space c).
  - exists (c :: ws). simpl. now rewrite <- IH.
  - now exists [].
Qed.

Lemma starts_clean_app_l (x y : list N) :
  starts_clean (x ++ y) -> x <> [] -> starts_clean x.
Proof. destruct x as [| c x]; simpl; [congruence | auto]. Qed.

(** The trimmed string starts with no white space. *)
Lemma trim_starts_clean (s : list N) : starts_clean (trim s).
Proof.
  unfold trim.
  destruct (trim_start_suffix (rev (trim_start s))) as [ws Hws].
  set (u := trim_start (rev (trim_start s))) in *.
  destruct (rev u) as [| c r] eqn:Hu; [exact I |].
  apply (starts_clean_app_l _ (rev ws)); [| discriminate].
  rewrite <- Hu, <- rev_app_distr, <- Hws, rev_involutive.
  apply trim_start_clean.
Qed.

(** Trimming twice is trimming once. *)
Lemma trim_idempotent (s : list N) : trim (trim s) = trim s.
Proof.
  pose proof (trim_starts_clean s) as Hclean.
  unfold trim at 1. rewrite (trim_start_id (trim s)) by exact Hclean.
  unfold trim. rewrite rev_involutive.
  rewrite (trim_start_id (trim_start _)); [reflexivity |].
  apply trim_start_clean.
Qed.

(** The trimmed string ends with no white space. *)
Lemma trim_ends_clean (s : list N) : starts_clean (rev (trim s)).
Proof. unfold trim. rewrite rev_involutive. apply trim_start_clean. Qed.

End TrimFacts.

(** ** JSON.parse gives ordinary objects *)

Module ParsedFacts.
Import JSON JsObject ParserFacts CodecFacts.

Section Parsed.
Context `{Engine}.

Lemma parse_scalar_not_object (inp rest : list N) props :
  parse_scalar inp <> Parsed (JsObject props) rest.
Proof.
  unfold parse_scalar.
  destruct (strip_prefix (js "true") inp); [discriminate |].
  destruct (strip_prefix (js "false") inp); [discriminate |].
  destruct (strip_prefix (js "null") inp); [discriminate |].
  destruct (scan_number inp) as [[lexeme r] |]; discriminate.
Qed.

Lemma parse_elements_not_object (fuel : nat) :
  forall inp acc rest props,
    parse_elements fuel inp acc <> Parsed (JsObject props) rest.
Proof.
  induction fuel as [| fuel IH]; intros inp acc rest props; [discriminate |].
  rewrite parse_elements_eq.
  destruct (parse_value fuel inp) as [v r1 | |]; try discriminate.
  destruct (skip_ws r1) as [| c r2]; [discriminate |].
  destruct (c =? 0x2C); [apply IH |].
  destruct (c =? 0x5D); discriminate.
Qed.

(** The object [JSON.parse] returns has every key once, array indices
    first. *)
Lemma parse_object_ordinary (text : list N) props :
  parse text = Some (JsObject props) -> ordinary props.
Proof.
  unfold parse. rewrite parse_value_eq.
  destruct (skip_ws text) as [| c r]; [discriminate |].
  destruct (c =? 0x7B).
  - destruct (skip_ws r) as [| c' r']; [discriminate |].
    destruct (c' =? 0x7D).
    + destruct (skip_ws r'); [| discriminate]. now intros [= <-].
    + destruct (parse_members _ r []) as [v rest | |] eqn:Hm;
        try discriminate.
      destruct (skip_ws rest); [| discriminate]. intros [= ->].
      now apply parse_members_ordinary in Hm.
  - destruct (c =? 0x5B).
    + destruct (skip_ws r) as [| c' r']; [discriminate |].
      destruct (c' =? 0x5D).
      * destruct (skip_ws r'); discriminate.
      * destruct (parse_elements _ r []) as [v rest | |] eqn:He;
          try discriminate.
        destruct (skip_ws rest); [| discriminate]. intros [= ->].
        now apply parse_elements_not_object in He.
    + destruct (c =? 0x22).
      * destruct (parse_string_chars r) as [[s r'] |]; [| discriminate].
        destruct (skip_ws r'); discriminate.
      * destruct (parse_scalar (c :: r)) as [v rest | |] eqn:Hs;
          try discriminate.
        destruct (skip_ws rest); [| discriminate]. intros [= ->].
        now apply parse_scalar_not_object in Hs.
Qed.

End Parsed.
End ParsedFacts.

(** ** The editing side of the tab over the handlers of the page *)

Module EditingFacts.
Import JsObject JsObjectFacts InvariantFacts AccessFacts TrimFacts ParsedFacts.
Import JsCoercion ConfigManager Trimmed.

Implicit Types (prev : gmap (list N) (list (list N * JsValue))).

(** X7: the "Add" row over [handleAddKey] of the page. With a key and a
    value that are not blank, the key is stored trimmed, with no white
    space at either end, holding the trimmed value, and the two inputs
    are emptied; with a blank key or a blank value nothing changes, store
    and inputs alike. *)
Theorem add_row_stores_trimmed (environmentName : list N)
    (i : EnvironmentTabEditing.Inputs) prev :
  (truthy (trim (EnvironmentTabEditing.newKey i))
   && truthy (trim (EnvironmentTabEditing.newValue i)) = true ->
   EnvironmentTabEditing.handleAddKey handleAddKey environmentName i prev
   = ({| EnvironmentTabEditing.newKey := [];
         EnvironmentTabEditing.newValue := [] |},
      handleUpdateValue environmentName
        (trim (EnvironmentTabEditing.newKey i))
        (trim (EnvironmentTabEditing.newValue i)) prev)
   /\ get (trim (EnvironmentTabEditing.newKey i))
          (spread (snd (EnvironmentTabEditing.handleAddKey handleAddKey
                          environmentName i prev) !! environmentName))
      = Some (JsString (trim (EnvironmentTabEditing.newValue i)))
   /\ starts_clean (trim (EnvironmentTabEditing.newKey i))
   /\ starts_clean (rev (trim (EnvironmentTabEditing.newKey i)))
   /\ trim (EnvironmentTabEditing.newKey i) <> [])
  /\ (truthy (trim (EnvironmentTabEditing.newKey i))
      && truthy (trim (EnvironmentTabEditing.newValue i)) = false ->
      EnvironmentTabEditing.handleAddKey handleAddKey environmentName i prev
      = (i, prev)).
Proof.
  unfold EnvironmentTabEditing.handleAddKey.
  set (key := trim (EnvironmentTabEditing.newKey i)).
  set (value := trim (EnvironmentTabEditing.newValue i)).
  split; intros Hboth; rewrite Hboth; [| reflexivity].
  apply andb_true_iff in Hboth as [Hkey Hvalue].
  assert (Hstored : handleAddKey environmentName key value prev
                    = handleUpdateValue environmentName key value prev).
  { unfold handleAddKey. subst key. now rewrite trim_idempotent, Hkey. }
  rewrite Hstored. split; [reflexivity |].
  split; [cbn [snd]; unfold handleUpdateValue; rewrite lookup_insert_eq;
          apply get_define_same |].
  split; [apply trim_starts_clean |].
  split; [apply trim_ends_clean |].
  intros Hnil. now rewrite Hnil in Hkey.
Qed.

(** Removing every key of a configuration, in the order of its keys,
    leaves the environment with the empty configuration. *)
Lemma remove_every_key (environmentName : list N) config :
  forall prev,
    prev !! environmentName = Some config ->
    fold_left (fun st k => handleRemoveKey environmentName k st)
              (keys config) prev
    = <[environmentName := []]> prev.
Proof.
  induction config as [| [k v] config IH]; intros prev Hprev; simpl.
  - symmetry. now apply insert_id.
  - unfold handleRemoveKey at 2. rewrite Hprev. simpl.
    rewrite key_eqb_refl. rewrite IH by apply lookup_insert_eq.
    apply insert_insert_eq.
Qed.

Lemma clearExisting_spec (environmentName : list N) prev :
  spread (EnvironmentTabEditing.clearExisting handleRemoveKey environmentName
            (prev !! environmentName) prev !! environmentName) = []
  /\ (is_Some (prev !! environmentName) ->
      is_Some (EnvironmentTabEditing.clearExisting handleRemoveKey
                 environmentName (prev !! environmentName) prev
               !! environmentName))
  /\ forall other,
       other <> environmentName ->
       EnvironmentTabEditing.clearExisting handleRemoveKey environmentName
         (prev !! environmentName) prev !! other
       = prev !! other.
Proof.
  unfold EnvironmentTabEditing.clearExisting, Object_keys.
  destruct (prev !! environmentName) as [config |] eqn:Hprev.
  - rewrite (remove_every_key _ _ _ Hprev).
    rewrite lookup_insert_eq. split; [reflexivity |].
    split; [intros _; now eexists |].
    intros other Hne. now rewrite lookup_insert_ne.
  - rewrite Hprev. split; [reflexivity |]. split; [auto | reflexivity].
Qed.


Section Coerced.
Context `{Engine} `{TypeErrors}.

(** What is stored for the entries of the parsed value: the entries with
    a key that is not blank, each value as [String] writes it. *)
Lemma addEntries_spec (environmentName : list N) entries :
  forall prev,
    spread (EnvironmentTabEditing.addEntries handleAddKey environmentName
              entries prev !! environmentName)
    = fold_left (fun o kv => define (fst kv) (snd kv) o)
        (List.map (fun kv => (fst kv, JsString (ToString (snd kv))))
           (List.filter (fun kv => truthy (trim (fst kv))) entries))
        (spread (prev !! environmentName))
    /\ (is_Some (prev !! environmentName) ->
        is_Some (EnvironmentTabEditing.addEntries handleAddKey
                   environmentName entries prev !! environmentName))
    /\ forall other,
         other <> environmentName ->
         EnvironmentTabEditing.addEntries handleAddKey environmentName
           entries prev !! other
         = prev !! other.
Proof.
  unfold EnvironmentTabEditing.addEntries.
  induction entries as [| [k v] entries IH]; intros prev; simpl;
    [now repeat split |].
  destruct (IH (handleAddKey environmentName k (ToString v) prev))
    as (Hhere & Hsome & Hothers).
  unfold handleAddKey in Hhere, Hsome, Hothers |- *.
  destruct (truthy (trim k)); simpl in *.
  - rewrite lookup_insert_eq in Hhere, Hsome. simpl in Hhere.
    split; [exact Hhere |]. split; [intros _; now apply Hsome |].
    intros other Hne. rewrite Hothers by exact Hne.
    now rewrite lookup_insert_ne.
  - now repeat split.
Qed.

Lemma forallb_filter_keep {A} (p q : A -> bool) (l : list A) :
  forallb p l = true -> forallb p (List.filter q l) = true.
Proof.
  induction l as [| a l IH]; simpl; [reflexivity |].
  rewrite andb_true_iff. intros [Ha Hl].
  destruct (q a); simpl; [rewrite Ha |]; auto.
Qed.

(** Leaving properties out of an ordinary object and changing values
    keeps it ordinary. *)
Lemma ordinary_filter_map {A B} (p : list N -> bool) (f : A -> B)
    (o : list (list N * A)) :
  ordinary o ->
  ordinary (List.map (fun kv => (fst kv, f (snd kv)))
              (List.filter (fun kv => p (fst kv)) o)).
Proof.
  unfold ordinary, keys.
  induction o as [| [k v] o IH]; simpl; [reflexivity |].
  rewrite andb_true_iff. intros [Hall Ho].
  assert (Hrest :
    forallb (key_before k)
      (List.map fst
         (List.map (fun kv => (fst kv, f (snd kv)))
            (List.filter (fun kv => p (fst kv)) o))) = true).
  { rewrite List.map_map. simpl.
    clear IH Ho. induction o as [| [k' v'] o IHo]; simpl; [reflexivity |].
    simpl in Hall. apply andb_true_iff in Hall as [Hk' Ho].
    destruct (p k'); simpl; [rewrite Hk' |]; auto. }
  destruct (p k); simpl; [rewrite Hrest |]; auto.
Qed.

(** The store "Save Changes" leaves for a text that parses to an
    object. *)
Lemma save_object_spec (environmentName rawJsonValue : list N)
    (uploadResult : option (list N)) prev props :
  JSON.parse rawJsonValue = Some (JsObject props) ->
  spread (EnvironmentTabEditing.saved_store
            (EnvironmentTabEditing.handleSaveRawJson
               handleAddKey handleRemoveKey environmentName rawJsonValue
               (prev !! environmentName) uploadResult prev)
          !! environmentName)
  = List.map (fun kv => (fst kv, JsString (ToString (snd kv))))
      (List.filter (fun kv => truthy (trim (fst kv))) props)
  /\ (is_Some (prev !! environmentName) ->
      is_Some (EnvironmentTabEditing.saved_store
                 (EnvironmentTabEditing.handleSaveRawJson
                    handleAddKey handleRemoveKey environmentName rawJsonValue
                    (prev !! environmentName) uploadResult prev)
               !! environmentName))
  /\ forall other,
       other <> environmentName ->
       EnvironmentTabEditing.saved_store
         (EnvironmentTabEditing.handleSaveRawJson
            handleAddKey handleRemoveKey environmentName rawJsonValue
            (prev !! environmentName) uploadResult prev) !! other
       = prev !! other.
Proof.
  intros Hparse. unfold EnvironmentTabEditing.handleSaveRawJson.
  rewrite Hparse. cbn [Object_entries EnvironmentTabEditing.saved_store].
  destruct (clearExisting_spec environmentName prev)
    as (Hcleared & Hstill & Hkept).
  set (cleared := EnvironmentTabEditing.clearExisting handleRemoveKey
                    environmentName (prev !! environmentName) prev) in *.
  destruct (addEntries_spec environmentName props cleared)
    as (Hadded & Hsome & Hothers).
  split; [| split].
  - rewrite Hadded, Hcleared.
    apply (fold_define_ordinary _ []). simpl.
    apply (ordinary_filter_map (fun k => truthy (trim k))
             (fun v => JsString (ToString v))).
    now apply parse_object_ordinary in Hparse.
  - intros Hprev. now apply Hsome, Hstill.
  - intros other Hne. rewrite Hothers by exact Hne. now apply Hkept.
Qed.


(** X9: "Save Changes" on a text that parses to [null]. The removals come
    before [Object.entries] throws: the environment is left with no key at
    all, the alert says "Invalid JSON" with the message of the TypeError,
    no confirmation is shown, and every other environment is as it was. *)
Theorem save_null_empties_configuration
    (environmentName rawJsonValue : list N) (uploadResult : option (list N))
    prev :
  JSON.parse rawJsonValue = Some JsNull ->
  spread (EnvironmentTabEditing.saved_store
            (EnvironmentTabEditing.handleSaveRawJson
               handleAddKey handleRemoveKey environmentName rawJsonValue
               (prev !! environmentName) uploadResult prev)
          !! environmentName) = []
  /\ (forall config,
        prev !! environmentName = Some config ->
        EnvironmentTabEditing.saved_store
          (EnvironmentTabEditing.handleSaveRawJson
             handleAddKey handleRemoveKey environmentName rawJsonValue
             (prev !! environmentName) uploadResult prev)
        = <[environmentName := []]> prev)
  /\ (forall other,
        other <> environmentName ->
        EnvironmentTabEditing.saved_store
          (EnvironmentTabEditing.handleSaveRawJson
             handleAddKey handleRemoveKey environmentName rawJsonValue
             (prev !! environmentName) uploadResult prev) !! other
        = prev !! other)
  /\ EnvironmentTabEditing.saved_uploadResult
       (EnvironmentTabEditing.handleSaveRawJson
          handleAddKey handleRemoveKey environmentName rawJsonValue
          (prev !! environmentName) uploadResult prev)
     = uploadResult
  /\ EnvironmentTabEditing.alerted
       (EnvironmentTabEditing.handleSaveRawJson
          handleAddKey handleRemoveKey environmentName rawJsonValue
          (prev !! environmentName) uploadResult prev)
     = Some (js "Invalid JSON: " ++ NullToObjectMessage).
Proof.
  intros Hparse. unfold EnvironmentTabEditing.handleSaveRawJson.
  rewrite Hparse. cbn [Object_entries EnvironmentTabEditing.saved_store
    EnvironmentTabEditing.saved_uploadResult EnvironmentTabEditing.alerted].
  destruct (clearExisting_spec environmentName prev)
    as (Hcleared & _ & Hkept).
  split; [exact Hcleared |].
  split; [| split; [exact Hkept | split; reflexivity]].
  intros config Hconfig.
  unfold EnvironmentTabEditing.clearExisting, Object_keys.
  rewrite Hconfig. now apply remove_every_key.
Qed.

(** X22: typing in the value input of a row, over the handlers of the
    page. The key is removed and added again: it holds the typed value,
    and a key that is no array index ends up last, behind every other
    key; a row whose key is blank is deleted, since the page does not add
    a blank key; every other key holds what it held. *)
Theorem row_value_edit_moves_key_last (environmentName key value : list N)
    prev :
  ordinary (spread (prev !! environmentName)) ->
  (truthy (trim key) = true ->
   get key (spread (EnvironmentTabEditing.onValueChange
                      handleAddKey handleRemoveKey environmentName key value
                      prev !! environmentName))
   = Some (JsString value)
   /\ (array_index key = None ->
       spread (EnvironmentTabEditing.onValueChange
                 handleAddKey handleRemoveKey environmentName key value prev
               !! environmentName)
       = delete key (spread (prev !! environmentName))
         ++ [(key, JsString value)]))
  /\ (truthy (trim key) = false ->
      spread (EnvironmentTabEditing.onValueChange
                handleAddKey handleRemoveKey environmentName key value prev
              !! environmentName)
      = delete key (spread (prev !! environmentName)))
  /\ (forall other,
        other <> key ->
        get other (spread (EnvironmentTabEditing.onValueChange
                             handleAddKey handleRemoveKey environmentName
                             key value prev !! environmentName))
        = get other (spread (prev !! environmentName))).
Proof.
  intros Hord. unfold EnvironmentTabEditing.onValueChange.
  unfold handleAddKey, handleRemoveKey. rewrite !lookup_insert_eq.
  cbn [spread].
  set (config := spread (prev !! environmentName)) in *.
  assert (Hgone : get key (delete key config) = None)
    by now apply get_delete_same.
  split; [| split].
  - intros Hkey. rewrite Hkey. cbn [negb]. rewrite lookup_insert_eq.
    cbn [spread]. split; [apply get_define_same |].
    intros Hindex. unfold define, has. now rewrite Hgone, Hindex.
  - intros Hkey. rewrite Hkey. cbn [negb]. now rewrite lookup_insert_eq.
  - intros other Hne. destruct (truthy (trim key)); cbn [negb];
      rewrite lookup_insert_eq; cbn [spread];
      rewrite ?get_define_other by exact Hne; now apply get_delete_other.
Qed.


End Coerced.
End EditingFacts.

(** ** The two effects of the tab *)

Module EffectFacts.
Import JSON Codec JsObject JsObjectFacts CodecFacts EditingFacts.
Import JsCoercion ConfigManager.

Section Effects.
Context `{Engine} `{TypeErrors} {Store : Type}.

(** The text of a snapshot, whatever the indentation, parses to the
    snapshot. *)
Lemma snapshot_text_parses (s : list (list N * list N)) (space : N) :
  ordinary (snapshot_props s) ->
  exists text,
    stringify (JsObject (snapshot_props s)) space = Some text
    /\ parse text = Some (JsObject (snapshot_props s)).
Proof.
  intros Hord. unfold stringify. rewrite serialize_snapshot.
  eexists; split; [reflexivity |].
  set (gap := repeat 0x20 (N.to_nat (N.min 10 space))).
  assert (Hgap : all_ws gap) by apply all_ws_repeat.
  destruct s as [| kv ms]; [reflexivity |].
  assert (Hfold :
    fold_left (fun o p => define (fst p) (snd p) o)
              (snapshot_props (kv :: ms)) []
    = snapshot_props (kv :: ms)) by now rewrite fold_define_ordinary.
  rewrite <- Hfold.
  unfold wrap, join. cbn [List.map].
  assert (Hnl : all_ws (0x0A :: gap)) by now apply all_ws_cons.
  destruct (truthy gap).
  - rewrite <- (parse_object_text (0x0A :: gap) [0x20] (0x0A :: gap) [0x0A]);
      [| exact Hnl | now apply all_ws_cons | exact Hnl | now apply all_ws_cons].
    apply (f_equal parse). unfold members_tail. cbn [app].
    now rewrite <- !app_assoc.
  - rewrite <- (parse_object_text [] [] [] []); try reflexivity.
    apply (f_equal parse). unfold members_tail. cbn [app].
    now rewrite <- !app_assoc.
Qed.

(** X10: the text the first effect writes never makes the second effect
    edit. For a configuration of string values, the text written from it
    parses to an object with the same encoding, so the auto-parse calls
    neither callback, whatever the callbacks are; and so it is for the
    text an empty tab starts with. *)
Theorem synced_text_is_settled
    (onAddKey : list N -> list N -> list N -> Store -> Store)
    (onRemoveKey : list N -> list N -> Store -> Store)
    (environmentName rawJsonValue : list N) (showRawJson : bool)
    (s : list (list N * list N)) (store : Store) :
  ordinary (snapshot_props s) ->
  EnvironmentTabEditing.autoParse onAddKey onRemoveKey environmentName
    showRawJson
    (EnvironmentTabEditing.syncRawJson (Some (snapshot_props s)) rawJsonValue)
    (Some (snapshot_props s)) store = store
  /\ EnvironmentTabEditing.autoParse onAddKey onRemoveKey environmentName
       showRawJson (EnvironmentTabEditing.syncRawJson None []) None store
     = store.
Proof.
  intros Hord. unfold EnvironmentTabEditing.autoParse.
  destruct showRawJson; [| split; reflexivity]. cbn [negb].
  split.
  - unfold EnvironmentTabEditing.syncRawJson.
    destruct (snapshot_text_parses s 2 Hord) as (text & -> & ->).
    now rewrite bool_decide_eq_true_2.
  - replace (parse (EnvironmentTabEditing.syncRawJson None []))
      with (Some (JsObject [])) by (vm_compute; reflexivity).
    rewrite bool_decide_eq_true_2; [reflexivity |].
    vm_compute. reflexivity.
Qed.

Lemma coerced_snapshot (p : list N -> bool) (s : list (list N * list N)) :
  List.map (fun kv => (fst kv, JsString (ToString (snd kv))))
    (List.filter (fun kv => p (fst kv)) (snapshot_props s))
  = snapshot_props (List.filter (fun kv => p (fst kv)) s).
Proof.
  induction s as [| [k v] s IH]; simpl; [reflexivity |].
  destruct (p k); simpl; now rewrite IH.
Qed.

Lemma filter_all {A} (p : A -> bool) (l : list A) :
  forallb p l = true -> List.filter p l = l.
Proof.
  induction l as [| a l IH]; simpl; [reflexivity |].
  rewrite andb_true_iff. intros [-> Hl]. now rewrite IH.
Qed.

(** X20: "Save Changes" on the text as the first effect wrote it. For a
    configuration of string values the environment is left with the same
    keys in the same order holding the same values, the keys that are
    blank apart: those are dropped. With no blank key the whole store is
    what it was. *)
Theorem save_unedited_text (environmentName rawJsonValue : list N)
    (uploadResult : option (list N))
    (prev : gmap (list N) (list (list N * JsValue)))
    (s : list (list N * list N)) :
  ordinary (snapshot_props s) ->
  prev !! environmentName = Some (snapshot_props s) ->
  spread (EnvironmentTabEditing.saved_store
            (EnvironmentTabEditing.handleSaveRawJson
               handleAddKey handleRemoveKey environmentName
               (EnvironmentTabEditing.syncRawJson (prev !! environmentName)
                                                  rawJsonValue)
               (prev !! environmentName) uploadResult prev)
          !! environmentName)
  = snapshot_props (List.filter (fun kv => truthy (trim (fst kv))) s)
  /\ (forallb (fun kv => truthy (trim (fst kv))) s = true ->
      EnvironmentTabEditing.saved_store
        (EnvironmentTabEditing.handleSaveRawJson
           handleAddKey handleRemoveKey environmentName
           (EnvironmentTabEditing.syncRawJson (prev !! environmentName)
                                              rawJsonValue)
           (prev !! environmentName) uploadResult prev)
      = prev).
Proof.
  intros Hord Hprev.
  destruct (snapshot_text_parses s 2 Hord) as (text & Htext & Hparse).
  assert (Hsync : EnvironmentTabEditing.syncRawJson (prev !! environmentName)
                    rawJsonValue = text).
  { unfold EnvironmentTabEditing.syncRawJson. now rewrite Hprev, Htext. }
  rewrite Hsync.
  destruct (save_object_spec environmentName text uploadResult prev _ Hparse)
    as (Hhere & Hsome & Hothers).
  rewrite (coerced_snapshot (fun k => truthy (trim k))) in Hhere.
  split; [exact Hhere |].
  intros Hall. apply map_eq. intros name.
  destruct (decide (name = environmentName)) as [-> | Hne];
    [| now apply Hothers].
  destruct Hsome as [config Hconfig]; [now rewrite Hprev |].
  rewrite Hconfig in Hhere |- *. simpl in Hhere. subst config.
  now rewrite Hprev, filter_all.
Qed.

End Effects.

End EffectFacts.

(** ** The publish button, the status line and the click handler *)

Module ButtonFacts.
Import ipfsUploader Trace Runs UploaderFacts.

Section Facts.
Context `{Engine} `{ImportMetaEnv} {World : Type} `{Pinata World}.

(** X11: the publish button and the uploader agree on the credential.
    When the button is enabled nothing is uploading, the JSON view if shown
    is not blank, and an upload with the credential of the button passes
    the credential check: its first act is the authentication test, with
    that credential. When [isPinataConfigured] is false the button is
    disabled whatever else holds, and an upload would fail with the
    "JWT is required" message without contacting the service. *)
Theorem publish_button_agrees_with_uploader
    (pinataJWT : option (list N)) (config : JsValue)
    (environmentName : list N) (st : State World) :
  (forall uploading showRawJson rawJsonValue,
     EnvironmentTabEditing.publishDisabled uploading pinataJWT showRawJson
       rawJsonValue = false ->
     uploading = false
     /\ (showRawJson = true -> trim rawJsonValue <> [])
     /\ exists r st' sdk answer rest,
          uploadConfigToIPFS config environmentName pinataJWT st
          = (Normal r, st')
          /\ log st' = log st ++ TestAuthentication sdk answer :: rest
          /\ pinataJwt sdk = or_else pinataJWT VITE_PINATA_JWT)
  /\ (isPinataConfigured pinataJWT = false ->
      (forall uploading showRawJson rawJsonValue,
         EnvironmentTabEditing.publishDisabled uploading pinataJWT
           showRawJson rawJsonValue = true)
      /\ uploadConfigToIPFS config environmentName pinataJWT st
         = (Normal (failed jwt_required), st)).
Proof.
  split.
  - intros uploading showRawJson rawJsonValue.
    unfold EnvironmentTabEditing.publishDisabled.
    rewrite !orb_false_iff, negb_false_iff, andb_false_iff, negb_false_iff.
    intros [[Hup Hconfigured] Hraw].
    split; [exact Hup |]. split.
    { intros ->. destruct Hraw as [Hraw | Hraw]; [discriminate |].
      intros Hnil. now rewrite Hnil in Hraw. }
    destruct (uploadConfigToIPFS_runs config environmentName pinataJWT st)
      as (r & st' & evs & Hrun & Hcase).
    unfold isPinataConfigured in Hconfigured.
    destruct Hcase as [Hno | sdk t w1 _ Hsdk _ | sdk w1 t w2 _ Hsdk _ _
                       | sdk w1 response w2 _ Hsdk _ _].
    + congruence.
    + eexists _, _, sdk, (inl t), [].
      split; [exact Hrun | split; [reflexivity | exact Hsdk]].
    + eexists _, _, sdk, (inr tt), _.
      split; [exact Hrun | split; [reflexivity | exact Hsdk]].
    + eexists _, _, sdk, (inr tt), _.
      split; [exact Hrun | split; [reflexivity | exact Hsdk]].
  - intros Hconfigured. split.
    + intros uploading showRawJson rawJsonValue.
      unfold EnvironmentTabEditing.publishDisabled.
      rewrite Hconfigured. simpl. now rewrite orb_true_r.
    + unfold isPinataConfigured in Hconfigured.
      unfold uploadConfigToIPFS, try_catch, bind, getPinataInstance.
      now rewrite Hconfigured.
Qed.

(** X12: the status line looks at the environment variable alone. Without
    it the line says "not configured", also when a credential of the
    configuration makes [isPinataConfigured] true; with it the line names
    the environment and [isPinataConfigured] is true for every
    argument. *)
Theorem status_line_follows_environment_variable (environmentName : list N) :
  (truthy_opt VITE_PINATA_JWT = false ->
   getUploadStatusMessage environmentName
   = js "Pinata not configured. Please set VITE_PINATA_JWT environment variable."
   /\ forall jwt, truthy jwt = true -> isPinataConfigured (Some jwt) = true)
  /\ (truthy_opt VITE_PINATA_JWT = true ->
      getUploadStatusMessage environmentName
      = js "Ready to upload " ++ environmentName
        ++ js " configuration to IPFS"
      /\ forall pinataJWT, isPinataConfigured pinataJWT = true).
Proof.
  unfold getUploadStatusMessage, isPinataConfigured, or_else. simpl.
  split; intros Henv; rewrite Henv; simpl; (split; [reflexivity |]).
  - intros jwt Hjwt. simpl. now rewrite Hjwt.
  - intros [jwt |]; simpl; [| exact Henv].
    now destruct (truthy jwt) eqn:Hjwt.
Qed.

End Facts.

Section Handler.
Context `{Engine} `{ImportMetaEnv} {World : Type} `{Pinata World}.
Context {EnvironmentConfig ConfigStructure : Type}.

Variable uploadAndUpdateIPNS :
  JsValue -> list N -> EnvironmentConfig -> ConfigStructure
  -> (JsValue -> list N -> option (list N) -> M World UploadResult)
  -> M World PublishResults.

(** X13: the click handler never throws, whatever the orchestrator does,
    a rejection included. It leaves a message and the text as it was. With
    no fetched configuration and a text that does not parse it calls
    nothing and leaves [uploading] as it was; otherwise it runs the
    orchestrator once, on the fetched configuration if there is one and on
    the parsed text if not, and leaves [uploading] off. *)
Theorem handleUploadAndPublish_never_throws
    (p : @EnvironmentTab.Props EnvironmentConfig ConfigStructure)
    (s : EnvironmentTab.TabState) (st : State World) :
  exists s' st',
    EnvironmentTab.handleUploadAndPublish uploadAndUpdateIPNS p s st
    = (Normal s', st')
    /\ EnvironmentTab.rawJsonValue s' = EnvironmentTab.rawJsonValue s
    /\ (exists message, EnvironmentTab.uploadResult s' = Some message)
    /\ (EnvironmentTab.fetchedConfig p = None ->
        JSON.parse (EnvironmentTab.rawJsonValue s) = None ->
        st' = st
        /\ EnvironmentTab.uploading s' = EnvironmentTab.uploading s)
    /\ (forall config,
          match EnvironmentTab.fetchedConfig p with
          | Some fetched => Some (JsObject fetched)
          | None => JSON.parse (EnvironmentTab.rawJsonValue s)
          end = Some config ->
          st' = snd (uploadAndUpdateIPNS config
                       (EnvironmentTab.environmentName p)
                       (EnvironmentTab.environmentConfig p)
                       (EnvironmentTab.configStructure p)
                       uploadConfigToIPFS st)
          /\ EnvironmentTab.uploading s' = false).
Proof.
  unfold EnvironmentTab.handleUploadAndPublish.
  destruct (match EnvironmentTab.fetchedConfig p with
            | Some config => Some (JsObject config)
            | None => JSON.parse (EnvironmentTab.rawJsonValue s)
            end) as [config |] eqn:Hconfig.
  - unfold bind, try_catch.
    destruct (uploadAndUpdateIPNS config _ _ _ _ st) as [[results | t] st1]
      eqn:Hrun; cbn [ret]; eexists _, st1;
      (split; [reflexivity |]); (split; [reflexivity |]);
      (split; [now eexists |]); (split;
        [ intros Hfetched Hparse; rewrite Hfetched in Hconfig; congruence
        | intros config' [= <-]; rewrite Hrun; now split ]).
  - eexists _, st. split; [reflexivity |]. split; [reflexivity |].
    split; [now eexists |]. split; [now split |]. discriminate.
Qed.

End Handler.
End ButtonFacts.

(** ** The page: loading a configuration, fetching from IPNS *)

Module PageFacts.
Import ConfigManagerPage PageRuns.

Lemma first_environment (pre post : ConfigStructure) name value :
  Forall (fun kv => fst kv = js "_env") pre ->
  name <> js "_env" ->
  List.filter (fun name => negb (JsObject.key_eqb name (js "_env")))
              (JsCoercion.Object_keys (pre ++ (name, value) :: post))
  = name :: List.filter (fun name => negb (JsObject.key_eqb name (js "_env")))
                        (JsCoercion.Object_keys post).
Proof.
  intros Hpre Hname. unfold JsCoercion.Object_keys, JsObject.keys.
  induction Hpre as [| [k v] pre Hk _ IH]; simpl.
  - unfold JsObject.key_eqb at 1. now rewrite bool_decide_eq_false_2.
  - simpl in Hk. subst k.
    unfold JsObject.key_eqb at 1. now rewrite bool_decide_eq_true_2.
Qed.

(** X14: loading a configuration. The fetched configurations, the hashes
    and the error are cleared, the loading flags are kept. The active tab
    becomes the first key that is not [_env], in the order of the keys of
    the configuration; it stays what it was when there is no such key and
    when that key is the empty string. *)
Theorem config_load_picks_first_environment (config : ConfigStructure)
    (s : ManagerState) :
  configStructure (handleConfigLoaded config s) = Some config
  /\ fetchedConfigs (handleConfigLoaded config s) = ∅
  /\ currentIPFSHashes (handleConfigLoaded config s) = ∅
  /\ error (handleConfigLoaded config s) = None
  /\ loading (handleConfigLoaded config s) = loading s
  /\ (forall pre name value post,
        config = pre ++ (name, value) :: post ->
        Forall (fun kv => fst kv = js "_env") pre ->
        name <> js "_env" ->
        activeTab (handleConfigLoaded config s)
        = if truthy name then name else activeTab s)
  /\ (Forall (fun kv => fst kv = js "_env") config ->
      activeTab (handleConfigLoaded config s) = activeTab s).
Proof.
  unfold handleConfigLoaded.
  repeat (split;
    [ destruct (List.filter _ _) as [| firstEnv rest];
      [| destruct (truthy firstEnv)]; reflexivity |]).
  split.
  - intros pre name value post -> Hpre Hname.
    rewrite first_environment by assumption.
    now destruct (truthy name).
  - intros Hall.
    replace (List.filter _ (JsCoercion.Object_keys config)) with (@nil (list N));
      [reflexivity |].
    unfold JsCoercion.Object_keys, JsObject.keys.
    induction Hall as [| [k v] rest Hk _ IH]; simpl; [reflexivity |].
    simpl in Hk. subst k.
    unfold JsObject.key_eqb at 1. now rewrite bool_decide_eq_true_2.
Qed.

Section Fetch.
Context {World : Type} `{IpnsServices World}.

Implicit Types (st : State (Page World)).

(** Every run of [handleFetch]: the two updates it starts with, a
    resolution, a fetch; the log of the service calls of uploads is left
    alone. *)
Lemma handleFetch_runs (configStructure : option ConfigStructure)
    (environmentName ipnsKey : list N) st :
  exists c resolving fetching w1 w2,
    handleFetch configStructure environmentName ipnsKey st
    = (c, {| world :=
               {| outside := w2;
                  issued := issued (world st)
                            ++ [SetLoading environmentName true;
                                SetError None]
                            ++ resolving ++ fetching |};
             log := log st |})
    /\ resolve_run configStructure environmentName ipnsKey
                   (outside (world st)) resolving w1
    /\ fetch_run configStructure environmentName ipnsKey w1 c fetching w2.
Proof.
  assert (Hresolve :
    exists resolving w1 c1,
      try_catch
        (resolveResult <-
           (if ToBoolean (member (js "ipnsPrivateKey")
                            (environment_of configStructure environmentName))
            then
              await import_ipnsUpdater Import ;;;
              await (resolveIPNSFromPrivateKey
                       (member (js "ipnsPrivateKey")
                          (environment_of configStructure environmentName)))
                    (ResolveFromPrivateKey
                       (member (js "ipnsPrivateKey")
                          (environment_of configStructure environmentName)))
            else
              await import_ipnsUpdater Import ;;;
              await (resolveIPNSFromPublicKey ipnsKey)
                    (ResolveFromPublicKey ipnsKey)) ;;
         if resolve_success resolveResult
            && truthy_opt (resolve_ipfsHash resolveResult)
         then set (SetCurrentIPFSHash environmentName
                     (asserted (resolve_ipfsHash resolveResult)))
         else ret tt)
        (fun _ => ret tt)
        {| world :=
             {| outside := outside (world st);
                issued := (issued (world st)
                           ++ [SetLoading environmentName true])
                          ++ [SetError None] |};
           log := log st |}
      = (Normal c1,
         {| world :=
              {| outside := w1;
                 issued := ((issued (world st)
                             ++ [SetLoading environmentName true])
                            ++ [SetError None]) ++ resolving |};
            log := log st |})
      /\ resolve_run configStructure environmentName ipnsKey
                     (outside (world st)) resolving w1).
  { assert (Hchosen :
      (if ToBoolean (member (js "ipnsPrivateKey")
                       (environment_of configStructure environmentName))
       then
         await import_ipnsUpdater Import ;;;
         await (resolveIPNSFromPrivateKey
                  (member (js "ipnsPrivateKey")
                     (environment_of configStructure environmentName)))
               (ResolveFromPrivateKey
                  (member (js "ipnsPrivateKey")
                     (environment_of configStructure environmentName)))
       else
         await import_ipnsUpdater Import ;;;
         await (resolveIPNSFromPublicKey ipnsKey)
               (ResolveFromPublicKey ipnsKey))
      = (await import_ipnsUpdater Import ;;;
         await (resolver configStructure environmentName ipnsKey)
               (resolver_step configStructure environmentName ipnsKey))).
    { unfold resolver, resolver_step, privateKey. now destruct (ToBoolean _). }
    rewrite Hchosen.
    unfold try_catch, bind, await, set, ret. cbn [world log outside issued].
    destruct (import_ipnsUpdater (outside (world st))) as [[t | []] w0]
      eqn:Himport.
    { exists [Import (inl t)], w0, tt.
      split; [reflexivity | now apply import_rejected]. }
    cbn [world log outside issued].
    destruct (resolver configStructure environmentName ipnsKey w0)
      as [[t | r] w1] eqn:Hresolver.
    - exists [Import (inr tt);
              resolver_step configStructure environmentName ipnsKey (inl t)],
             w1, tt.
      split; [| now apply resolver_rejected with (w1 := w0)].
      now rewrite <- !app_assoc.
    - destruct (resolve_success r && truthy_opt (resolve_ipfsHash r))
        eqn:Hfound.
      + apply andb_true_iff in Hfound as [Hsuccess Hhash].
        destruct (resolve_ipfsHash r) as [hash |] eqn:Hsome; [| discriminate].
        exists [Import (inr tt);
                resolver_step configStructure environmentName ipnsKey (inr r);
                SetCurrentIPFSHash environmentName hash], w1, tt.
        split; [| now apply resolver_resolved with (w1 := w0) (r := r)].
        cbn [world log outside issued asserted].
        now rewrite <- !app_assoc.
      + exists [Import (inr tt);
                resolver_step configStructure environmentName ipnsKey (inr r)],
               w1, tt.
        split; [| now apply resolver_unresolved with (w1 := w0)].
        now rewrite <- !app_assoc. }
  destruct Hresolve as (resolving & w1 & [] & Hresolve & Hrun).
  unfold handleFetch.
  unfold bind at 1. unfold set at 1. cbn [world log outside issued].
  unfold bind at 1. unfold set at 1. cbn [world log outside issued].
  unfold bind at 1. rewrite Hresolve.
  unfold bind, await, set, ret. cbn [world log outside issued].
  fold (privateKey configStructure environmentName).
  fold (fetch_failure environmentName).
  destruct (fetchFromIPNS ipnsKey w1) as [[t | r] w2] eqn:Hfetch.
  - exists (Abrupt t), resolving, [FetchFromIPNS ipnsKey (inl t)], w1, w2.
    split; [| split; [exact Hrun | now apply fetch_rejected]].
    now rewrite <- !app_assoc.
  - destruct (fetch_success r) eqn:Hsuccess.
    + destruct (fetch_data r) as [data |] eqn:Hdata.
      * cbn [world log outside issued].
        destruct (truthy_opt (fetch_ipfsHash r)
                  && negb (ToBoolean
                             (privateKey configStructure environmentName)))
          eqn:Hgateway.
        -- apply andb_true_iff in Hgateway as [Hhash Hkey].
           apply negb_true_iff in Hkey.
           destruct (fetch_ipfsHash r) as [hash |] eqn:Hsome;
             [| discriminate].
           eexists (Normal tt), resolving, _, w1, w2.
           split; [| split; [exact Hrun |
                             apply fetch_stored_with_hash with (r := r);
                             first [eassumption | exact Hhash]]].
           cbn [world log outside issued asserted].
           now rewrite <- !app_assoc.
        -- eexists (Normal tt), resolving, _, w1, w2.
           split; [| split; [exact Hrun | apply fetch_stored; eassumption]].
           cbn [world log outside issued].
           now rewrite <- !app_assoc.
      * eexists (Normal tt), resolving, _, w1, w2.
        split; [| split; [exact Hrun | apply fetch_failed; eauto]].
        cbn [world log outside issued].
        now rewrite <- !app_assoc.
    + eexists (Normal tt), resolving, _, w1, w2.
      split; [| split; [exact Hrun | apply fetch_failed; eauto]].
      cbn [world log outside issued].
      now rewrite <- !app_assoc.
Qed.

Lemma apply_resolver_step (configStructure : option ConfigStructure)
    (environmentName ipnsKey : list N) answer (s : ManagerState) :
  apply_step s (resolver_step configStructure environmentName ipnsKey answer)
  = s.
Proof. unfold resolver_step. now destruct (ToBoolean _). Qed.

Lemma scoped_resolver_step (configStructure : option ConfigStructure)
    (environmentName ipnsKey : list N) answer :
  scoped environmentName
         (resolver_step configStructure environmentName ipnsKey answer).
Proof. unfold resolver_step. now destruct (ToBoolean _). Qed.

Lemma is_call_resolver_step (configStructure : option ConfigStructure)
    (environmentName ipnsKey : list N) answer :
  is_call (resolver_step configStructure environmentName ipnsKey answer)
  = true.
Proof. unfold resolver_step. now destruct (ToBoolean _). Qed.

Lemma settle_scoped (environmentName : list N) (steps : list Step) :
  Forall (scoped environmentName) steps ->
  forall s,
    configStructure (settle steps s) = configStructure s
    /\ activeTab (settle steps s) = activeTab s
    /\ forall other,
         other <> environmentName ->
         fetchedConfigs (settle steps s) !! other = fetchedConfigs s !! other
         /\ currentIPFSHashes (settle steps s) !! other
            = currentIPFSHashes s !! other
         /\ loading (settle steps s) !! other = loading s !! other.
Proof.
  unfold settle. induction 1 as [| step steps Hstep _ IH]; intros s; simpl;
    [now repeat split |].
  destruct (IH (apply_step s step)) as (Hconfig & Htab & Hothers).
  rewrite Hconfig, Htab.
  split; [now destruct step |]. split; [now destruct step |].
  intros other Hne. destruct (Hothers other Hne) as (Hf & Hh & Hl).
  rewrite Hf, Hh, Hl.
  destruct step; simpl in Hstep |- *; subst;
    rewrite ?lookup_insert_ne by congruence; auto.
Qed.

(** X15: a fetch edits one environment. Every update [handleFetch] issues
    is the error or an update under the name of its environment: once they
    are applied, the fetched configuration, the hash and the loading flag
    of every other environment are what they were, and so are the loaded
    configuration and the active tab. *)
Theorem fetch_edits_one_environment
    (configStructure : option ConfigStructure)
    (environmentName ipnsKey : list N) st :
  exists c st' steps,
    handleFetch configStructure environmentName ipnsKey st = (c, st')
    /\ issued (world st') = issued (world st) ++ steps
    /\ log st' = log st
    /\ forall s,
         ConfigManagerPage.configStructure (settle steps s)
         = ConfigManagerPage.configStructure s
         /\ activeTab (settle steps s) = activeTab s
         /\ forall other,
              other <> environmentName ->
              fetchedConfigs (settle steps s) !! other
              = fetchedConfigs s !! other
              /\ currentIPFSHashes (settle steps s) !! other
                 = currentIPFSHashes s !! other
              /\ loading (settle steps s) !! other = loading s !! other.
Proof.
  destruct (handleFetch_runs configStructure environmentName ipnsKey st)
    as (c & resolving & fetching & w1 & w2 & Hrun & Hres & Hfetch).
  eexists c, _, _. split; [exact Hrun |].
  split; [reflexivity |]. split; [reflexivity |].
  apply settle_scoped.
  cbn [app]. do 2 (constructor; [reflexivity |]).
  apply List.Forall_app. split.
  - destruct Hres; repeat constructor; apply scoped_resolver_step.
  - destruct Hfetch; repeat constructor.
Qed.

Ltac settle_steps :=
  unfold settle; cbn [app fold_left];
  rewrite ?apply_resolver_step;
  cbn [apply_step ConfigManagerPage.configStructure fetchedConfigs
       currentIPFSHashes loading error activeTab].

(** X16: the loading flag and the one way to fail. [handleFetch] ends
    normally unless [fetchFromIPNS] rejects; a rejected import or resolver
    is swallowed. After a normal end the loading flag of the environment
    is off. After a rejection of [fetchFromIPNS], which is the last thing
    the handler did, the flag stays on, no configuration was stored and
    no error is shown. *)
Theorem fetch_loading_flag (configStructure : option ConfigStructure)
    (environmentName ipnsKey : list N) st :
  exists c st' steps,
    handleFetch configStructure environmentName ipnsKey st = (c, st')
    /\ issued (world st') = issued (world st) ++ steps
    /\ (forall s,
          loading (settle steps s) !! environmentName
          = Some match c with Normal _ => false | Abrupt _ => true end)
    /\ (forall t,
          c = Abrupt t ->
          (exists before,
             steps = before ++ [FetchFromIPNS ipnsKey (inl t)])
          /\ forall s,
               fetchedConfigs (settle steps s) = fetchedConfigs s
               /\ error (settle steps s) = None).
Proof.
  destruct (handleFetch_runs configStructure environmentName ipnsKey st)
    as (c & resolving & fetching & w1 & w2 & Hrun & Hres & Hfetch).
  eexists c, _, _. split; [exact Hrun |]. split; [reflexivity |].
  split.
  - intros s. destruct Hres; destruct Hfetch; settle_steps;
      now rewrite lookup_insert_eq.
  - intros t0 Hc. destruct Hfetch; try discriminate.
    injection Hc as ->. split.
    + eexists. rewrite !app_assoc. reflexivity.
    + intros s. destruct Hres; settle_steps; now split.
Qed.

(** X17: the calls of a fetch, in their order. [handleFetch] imports the
    updater, then calls one resolver, the one by private key when the
    environment has a truthy [ipnsPrivateKey] and the one by public key
    (on [ipnsKey]) when it has not, and no resolver when the import was
    rejected; then it calls [fetchFromIPNS] on [ipnsKey], once, also when
    the import or the resolver was rejected. It makes no other call. *)
Theorem fetch_calls_in_order (configStructure : option ConfigStructure)
    (environmentName ipnsKey : list N) st :
  exists c st' steps imported resolved fetched,
    handleFetch configStructure environmentName ipnsKey st = (c, st')
    /\ issued (world st') = issued (world st) ++ steps
    /\ List.filter is_call steps
       = Import imported :: resolved ++ [FetchFromIPNS ipnsKey fetched]
    /\ ((exists t, imported = inl t /\ resolved = [])
        \/ (imported = inr tt
            /\ exists answer,
                 resolved
                 = [if ToBoolean (privateKey configStructure environmentName)
                    then ResolveFromPrivateKey
                           (privateKey configStructure environmentName) answer
                    else ResolveFromPublicKey ipnsKey answer])).
Proof.
  destruct (handleFetch_runs configStructure environmentName ipnsKey st)
    as (c & resolving & fetching & w1 & w2 & Hrun & Hres & Hfetch).
  assert (Hone : forall answer,
    [resolver_step configStructure environmentName ipnsKey answer]
    = [if ToBoolean (privateKey configStructure environmentName)
       then ResolveFromPrivateKey
              (privateKey configStructure environmentName) answer
       else ResolveFromPublicKey ipnsKey answer]).
  { intros answer. unfold resolver_step. now destruct (ToBoolean _). }
  assert (Hfetching : exists fetched,
    List.filter is_call fetching = [FetchFromIPNS ipnsKey fetched]).
  { destruct Hfetch; now eexists. }
  destruct Hfetching as [fetched Hfetching].
  assert (Hresolving : exists imported resolved,
    List.filter is_call resolving = Import imported :: resolved
    /\ ((exists t, imported = inl t /\ resolved = [])
        \/ (imported = inr tt
            /\ exists answer,
                 resolved
                 = [resolver_step configStructure environmentName ipnsKey
                                  answer]))).
  { destruct Hres; cbn [List.filter is_call];
      rewrite ?is_call_resolver_step; eexists _, _;
      (split; [reflexivity |]); eauto. }
  destruct Hresolving as (imported & resolved & Hresolving & Hcase).
  eexists c, _, _, imported, resolved, fetched.
  split; [exact Hrun |]. split; [reflexivity |]. split.
  - cbn [app List.filter is_call].
    now rewrite List.filter_app, Hresolving, Hfetching.
  - destruct Hcase as [Hcase | [Himported [answer ->]]]; [now left |].
    right. split; [exact Himported |]. exists answer. apply Hone.
Qed.

Lemma resolver_step_not_fetch (configStructure : option ConfigStructure)
    (environmentName ipnsKey : list N) answer key fetched :
  resolver_step configStructure environmentName ipnsKey answer
  <> FetchFromIPNS key fetched.
Proof. unfold resolver_step. now destruct (ToBoolean _). Qed.

Lemma resolve_run_no_fetch (configStructure : option ConfigStructure)
    (environmentName ipnsKey : list N) w resolving w1 key answer :
  resolve_run configStructure environmentName ipnsKey w resolving w1 ->
  ~ In (FetchFromIPNS key answer) resolving.
Proof.
  intros Hres Hin.
  destruct Hres; simpl in Hin;
    repeat (destruct Hin as [Hin | Hin];
            [first [discriminate
                   | now apply resolver_step_not_fetch in Hin] |]);
    exact Hin.
Qed.

(** The answer a run of the fetch notes is the one it acted on. *)
Lemma fetch_run_answer (configStructure : option ConfigStructure)
    (environmentName ipnsKey : list N) w c fetching w2 r
    (resolving : list Step) w0 w1 :
  resolve_run configStructure environmentName ipnsKey w0 resolving w1 ->
  fetch_run configStructure environmentName ipnsKey w c fetching w2 ->
  In (FetchFromIPNS ipnsKey (inr r))
     ([SetLoading environmentName true; SetError None]
      ++ resolving ++ fetching) ->
  fetchFromIPNS ipnsKey w = (inr r, w2).
Proof.
  intros Hres Hfetch Hin. cbn [app] in Hin.
  destruct Hin as [Hin | [Hin | Hin]]; try discriminate.
  apply in_app_or in Hin as [Hin | Hin];
    [now apply (resolve_run_no_fetch _ _ _ _ _ _ _ _ Hres) in Hin |].
  destruct Hfetch; simpl in Hin;
    repeat (destruct Hin as [Hin | Hin];
            [first [discriminate | injection Hin as <-; assumption] |]);
    destruct Hin.
Qed.

(** X18: what a fetch stores. When [fetchFromIPNS] answers, the handler
    ends normally. If the answer is a success with data, the data becomes
    the configuration of the environment and no error is shown; if not,
    the configurations are what they were and the error names the
    environment and carries the error of the answer. *)
Theorem fetch_outcome (configStructure : option ConfigStructure)
    (environmentName ipnsKey : list N) st :
  exists c st' steps,
    handleFetch configStructure environmentName ipnsKey st = (c, st')
    /\ issued (world st') = issued (world st) ++ steps
    /\ forall r,
         In (FetchFromIPNS ipnsKey (inr r)) steps ->
         c = Normal tt
         /\ forall s,
              match (if fetch_success r then fetch_data r else None) with
              | Some data =>
                fetchedConfigs (settle steps s)
                = <[environmentName := data]> (fetchedConfigs s)
                /\ error (settle steps s) = None
              | None =>
                fetchedConfigs (settle steps s) = fetchedConfigs s
                /\ error (settle steps s)
                   = Some (js "Failed to fetch " ++ environmentName
                           ++ js ": "
                           ++ EnvironmentTab.template (fetch_error r))
              end.
Proof.
  destruct (handleFetch_runs configStructure environmentName ipnsKey st)
    as (c & resolving & fetching & w1 & w2 & Hrun & Hres & Hfetch).
  eexists c, _, _. split; [exact Hrun |]. split; [reflexivity |].
  intros r Hin.
  pose proof (fetch_run_answer _ _ _ _ _ _ _ _ _ _ _ Hres Hfetch Hin)
    as Hanswer.
  destruct Hfetch as [t w2 Hcall | r' w2 Hcall Hfailed
                      | r' w2 data Hcall Hsuccess Hdata Hgateway
                      | r' w2 data hash Hcall Hsuccess Hdata Hsome Hhash Hkey];
    rewrite Hcall in Hanswer; try discriminate;
    injection Hanswer as ->; (split; [reflexivity |]); intros s.
  - destruct Hfailed as [Hfailed | Hfailed]; rewrite Hfailed;
      [| destruct (fetch_success r)];
      destruct Hres; settle_steps; now split.
  - rewrite Hsuccess, Hdata. destruct Hres; settle_steps; now split.
  - rewrite Hsuccess, Hdata. destruct Hres; settle_steps; now split.
Qed.

(** X19: which hash a fetch leaves. With a truthy [ipnsPrivateKey] the
    hash of the environment afterwards is the one the resolver by private
    key found, or the one from before: what the gateway reported is never
    stored. Without a private key, a successful fetch that reports a hash
    leaves that hash, whatever the resolver by public key had found. *)
Theorem fetch_hash_source (configStructure : option ConfigStructure)
    (environmentName ipnsKey : list N) st :
  exists c st' steps,
    handleFetch configStructure environmentName ipnsKey st = (c, st')
    /\ issued (world st') = issued (world st) ++ steps
    /\ (ToBoolean (privateKey configStructure environmentName) = true ->
        forall s,
          currentIPFSHashes (settle steps s) !! environmentName
          = currentIPFSHashes s !! environmentName
          \/ exists r hash,
               In (ResolveFromPrivateKey
                     (privateKey configStructure environmentName) (inr r))
                  steps
               /\ resolve_success r = true
               /\ resolve_ipfsHash r = Some hash
               /\ currentIPFSHashes (settle steps s) !! environmentName
                  = Some hash)
    /\ (ToBoolean (privateKey configStructure environmentName) = false ->
        forall r data hash,
          In (FetchFromIPNS ipnsKey (inr r)) steps ->
          fetch_success r = true ->
          fetch_data r = Some data ->
          fetch_ipfsHash r = Some hash ->
          truthy hash = true ->
          forall s,
            currentIPFSHashes (settle steps s) !! environmentName
            = Some hash).
Proof.
  destruct (handleFetch_runs configStructure environmentName ipnsKey st)
    as (c & resolving & fetching & w1 & w2 & Hrun & Hres & Hfetch).
  eexists c, _, _. split; [exact Hrun |]. split; [reflexivity |].
  split.
  - intros Hkey s.
    assert (Hstep : forall answer,
      resolver_step configStructure environmentName ipnsKey answer
      = ResolveFromPrivateKey (privateKey configStructure environmentName)
                              answer).
    { intros answer. unfold resolver_step. now rewrite Hkey. }
    destruct Hres as [t w1 Himport | w0 t w1 Himport Hcall
                      | w0 r w1 Himport Hcall Hnone
                      | w0 r w1 hash Himport Hcall Hsuccess Hsome Hhash].
    1-3: left; destruct Hfetch; settle_steps; try reflexivity; congruence.
    right. exists r, hash. rewrite Hstep.
    split; [cbn [app]; right; right; right; now left |].
    split; [exact Hsuccess |]. split; [exact Hsome |].
    destruct Hfetch; settle_steps; try apply lookup_insert_eq; congruence.
  - intros Hkey r data hash Hin Hsuccess Hdata Hsome Hhash s.
    pose proof (fetch_run_answer _ _ _ _ _ _ _ _ _ _ _ Hres Hfetch Hin)
      as Hanswer.
    destruct Hfetch as [t w2 Hcall | r' w2 Hcall Hfailed
                        | r' w2 data' Hcall Hsuccess' Hdata' Hgateway
                        | r' w2 data' hash' Hcall Hsuccess' Hdata' Hsome'
                            Hhash' Hkey'];
      rewrite Hcall in Hanswer; try discriminate; injection Hanswer as ->.
    + destruct Hfailed; congruence.
    + rewrite Hsome, Hkey in Hgateway. simpl in Hgateway.
      rewrite Hhash in Hgateway. discriminate.
    + assert (hash' = hash) as -> by congruence.
      destruct Hres; settle_steps; apply lookup_insert_eq.
Qed.

End Fetch.
End PageFacts.

(** ** The properties on the fixtures *)

Module FixtureFacts.
Import JsObject ConfigManager Scenario Fixture.

(** X3 on the store of the edit examples: the one key is removed. *)
Lemma removed_key_is_gone_witness :
  ordinary (spread (store !! js "production"))
  /\ get (js "a")
         (spread (handleRemoveKey (js "production") (js "a") store
                  !! js "production")) = None.
Proof.
  assert (Hord : ordinary (spread (store !! js "production")))
    by (vm_compute; reflexivity).
  split; [exact Hord |].
  exact (proj1 (EditFacts.removed_key_is_gone
                  (js "production") (js "a") store Hord)).
Defined.


(** X5 on the store of the edit examples: [b] is added and removed. *)
Lemma add_then_remove_restores_witness :
  truthy (trim (js "b")) = true
  /\ get (js "b") (spread (store !! js "production")) = None
  /\ handleRemoveKey (js "production") (js "b")
       (handleAddKey (js "production") (js "b") (js "2") store) = store.
Proof.
  assert (Hkey : truthy (trim (js "b")) = true) by (vm_compute; reflexivity).
  assert (Hget : get (js "b") (spread (store !! js "production")) = None)
    by (vm_compute; reflexivity).
  split; [exact Hkey |]. split; [exact Hget |].
  apply (proj2 (EditFacts.add_then_remove_restores
                  (js "production") (js "b") (js "2") store Hkey Hget)
               [(js "a", JsString (js "1"))]).
  vm_compute. reflexivity.
Defined.

(** X21 on the store of the edit examples: an array index is added. *)
Lemma handlers_keep_ordinary_witness :
  map_Forall (fun _ config => ordinary config) store
  /\ map_Forall (fun _ config => ordinary config)
                (handleUpdateValue (js "production") (js "7") (js "x") store).
Proof.
  assert (Hstore : map_Forall (fun _ config => ordinary config) store).
  { apply map_Forall_singleton. vm_compute. reflexivity. }
  split; [exact Hstore |].
  exact (proj1 (InvariantFacts.handlers_keep_ordinary
                  (js "production") (js "7") (js "x") (js "y") store Hstore)).
Defined.


(** X9 on the text [null]. *)
Lemma save_null_empties_configuration_witness :
  JSON.parse (js "null") = Some JsNull
  /\ EnvironmentTabEditing.saved_store
       (EnvironmentTabEditing.handleSaveRawJson
          handleAddKey handleRemoveKey (js "production") (js "null")
          (store !! js "production") None store)
     = <[js "production" := []]> store.
Proof.
  assert (Hparse : JSON.parse (js "null") = Some JsNull)
    by (vm_compute; reflexivity).
  split; [exact Hparse |].
  apply (proj1 (proj2 (EditingFacts.save_null_empties_configuration
                         (js "production") (js "null") None store Hparse))
               [(js "a", JsString (js "1"))]).
  vm_compute. reflexivity.
Defined.

(** X10 on the awkward snapshot. *)
Lemma synced_text_is_settled_witness :
  ordinary (snapshot_props awkward)
  /\ EnvironmentTabEditing.autoParse handleAddKey handleRemoveKey
       (js "production") true
       (EnvironmentTabEditing.syncRawJson (Some (snapshot_props awkward)) [])
       (Some (snapshot_props awkward)) awkward_store
     = awkward_store.
Proof.
  assert (Hord : ordinary (snapshot_props awkward))
    by (vm_compute; reflexivity).
  split; [exact Hord |].
  exact (proj1 (EffectFacts.synced_text_is_settled
                  handleAddKey handleRemoveKey (js "production") [] true
                  awkward awkward_store Hord)).
Defined.

(** X20 on the awkward snapshot, whose empty key is dropped. *)
Lemma save_unedited_text_witness :
  ordinary (snapshot_props awkward)
  /\ awkward_store !! js "production" = Some (snapshot_props awkward)
  /\ spread (EnvironmentTabEditing.saved_store
               (EnvironmentTabEditing.handleSaveRawJson
                  handleAddKey handleRemoveKey (js "production")
                  (EnvironmentTabEditing.syncRawJson
                     (awkward_store !! js "production") [])
                  (awkward_store !! js "production") None awkward_store)
             !! js "production")
     = snapshot_props
         (List.filter (fun kv => truthy (trim (fst kv))) awkward).
Proof.
  assert (Hord : ordinary (snapshot_props awkward))
    by (vm_compute; reflexivity).
  assert (Hprev : awkward_store !! js "production"
                  = Some (snapshot_props awkward))
    by (vm_compute; reflexivity).
  split; [exact Hord |]. split; [exact Hprev |].
  exact (proj1 (EffectFacts.save_unedited_text
                  (js "production") [] None awkward_store awkward
                  Hord Hprev)).
Defined.

(** X22 on the store of the edit examples: the one row is edited. *)
Lemma row_value_edit_moves_key_last_witness :
  ordinary (spread (store !! js "production"))
  /\ (truthy (trim (js "a")) = true ->
      get (js "a")
          (spread (EnvironmentTabEditing.onValueChange
                     handleAddKey handleRemoveKey (js "production")
                     (js "a") (js "3") store !! js "production"))
      = Some (JsString (js "3"))).
Proof.
  assert (Hord : ordinary (spread (store !! js "production")))
    by (vm_compute; reflexivity).
  split; [exact Hord |]. intros Hkey.
  exact (proj1 (proj1 (EditingFacts.row_value_edit_moves_key_last
                         (js "production") (js "a") (js "3") store Hord)
                      Hkey)).
Defined.


(** The gateway is down: the private key resolves, the fetch rejects, the
    handler rejects with it and the loading flag stays on. *)
Example gateway_down_leaves_loading :
  let (c, st') :=
    ConfigManagerPage.handleFetch (Some loaded) (js "production")
      (js "k51-name") page_start in
  c = Abrupt (ErrorObject (js "Failed to fetch"))
  /\ ConfigManagerPage.issued (world st')
     = [ConfigManagerPage.SetLoading (js "production") true;
        ConfigManagerPage.SetError None;
        ConfigManagerPage.Import (inr tt);
        ConfigManagerPage.ResolveFromPrivateKey (JsString (js "owner-key"))
          (inr {| resolve_success := true;
                  resolve_ipfsHash := Some (js "bafy-resolved");
                  resolve_error := None |});
        ConfigManagerPage.SetCurrentIPFSHash (js "production")
          (js "bafy-resolved");
        ConfigManagerPage.FetchFromIPNS (js "k51-name")
          (inl (ErrorObject (js "Failed to fetch")))]
  /\ ConfigManagerPage.loading
       (ConfigManagerPage.settle (ConfigManagerPage.issued (world st'))
          (ConfigManagerPage.handleConfigLoaded loaded
             ConfigManagerPage.initial))
     !! js "production" = Some true
  /\ ConfigManagerPage.activeTab
       (ConfigManagerPage.handleConfigLoaded loaded ConfigManagerPage.initial)
     = js "production".
Proof. vm_compute. repeat split; reflexivity. Qed.

(** Values that are no strings are stored as [String] writes them. *)
Example save_coerces_values :
  EnvironmentTabEditing.saved_store
    (EnvironmentTabEditing.handleSaveRawJson
       handleAddKey handleRemoveKey (js "production") typed_text
       (store !! js "production") None store)
  !! js "production"
  = Some [(js "name", JsString (js "x"));
          (js "tags", JsString (js "a,"));
          (js "nested", JsString (js "[object Object]"));
          (js "on", JsString (js "true"))].
Proof. vm_compute. reflexivity. Qed.

(** An array is saved under its indices, and the reset keeps only the
    loading flags. *)
Example save_array_uses_indices :
  EnvironmentTabEditing.saved_store
    (EnvironmentTabEditing.handleSaveRawJson
       handleAddKey handleRemoveKey (js "production") array_text
       (store !! js "production") None store)
  !! js "production"
  = Some [(js "0", JsString (js "a")); (js "1", JsString (js "b"))]
  /\ ConfigManagerPage.handleReset
       (ConfigManagerPage.handleConfigLoaded loaded ConfigManagerPage.initial)
     = ConfigManagerPage.initial.
Proof. vm_compute. split; reflexivity. Qed.

End FixtureFacts.
